(** * Simphony: netlist data model and circuit cascading engine

    A shallow embedding of [simphony/core/netlist.py] (the netlist classes
    and the [CircuitConnector] cascade, which the file keeps as a prototype
    in comments) and of the dynamic-list helper and the visitor methods
    [visit_ona], [visit_subckt], [visit_component] and [visit_file] of
    [simphony/plugins/siepic/__init__.py].

    Conventions of the embedding:
    - a Python exception is a [Raise] in the [result] type; a plain
      [return] with no value is [Ok None];
    - net identifiers are modelled by their integer value ([Z]); the
      prototype keeps them as decimal strings and compares [str(n)]
      against them, [int(x)] reads them back;
    - list positions coming from [enumerate] and [list.index] are [nat];
    - the S-matrix algebra ([rf.innerconnect_s], [rf.connect_s]) and the
      component models ([get_s_parameters]) live outside this file and are
      parameters of the development. *)

From Stdlib Require Import ZArith QArith Lia String Ascii DecimalString.
From stdpp Require Import base decidable option numbers relations strings list
  gmap.

(** ** Exceptions *)

Inductive exn : Type :=
  | IndexError
  | ValueError
  | AttributeError
  | TypeError.

Inductive result (A : Type) : Type :=
  | Ok (a : A)
  | Raise (e : exn).
Arguments Ok {A} a.
Arguments Raise {A} e.

Global Instance result_bind : MBind result := λ A B k m,
  match m with
  | Ok a => k a
  | Raise e => Raise e
  end.

(** ** Python list primitives *)

(** [l[i]] for a non-negative [i]. *)
Definition getitem {A} (l : list A) (i : nat) : result A :=
  match l !! i with
  | Some x => Ok x
  | None => Raise IndexError
  end.

(** [del l[i]] for a non-negative [i]. *)
Definition delitem {A} (l : list A) (i : nat) : result (list A) :=
  if decide (i < length l) then Ok (delete i l) else Raise IndexError.

(** [enumerate(l)], counting from [k]. *)
Fixpoint enumerate_from {A} (k : nat) (l : list A) : list (nat * A) :=
  match l with
  | [] => []
  | x :: l' => (k, x) :: enumerate_from (S k) l'
  end.

Definition enumerate {A} (l : list A) : list (nat * A) := enumerate_from 0 l.

(** [[i for i, x in enumerate(nets) if x == net_id]] *)
Definition positions_from (k : nat) (net_id : Z) (nets : list Z) : list nat :=
  (filter (λ p, p.2 = net_id) (enumerate_from k nets)).*1.

Definition positions (net_id : Z) (nets : list Z) : list nat :=
  positions_from 0 net_id nets.

(** The specification's view of a deletion: the elements of [l] whose
    position is not listed in [ps], in their original order. *)
Definition remove_positions_from {A} (k : nat) (ps : list nat) (l : list A)
  : list A :=
  (filter (λ p, p.1 ∉ ps) (enumerate_from k l)).*2.

Definition remove_positions {A} (ps : list nat) (l : list A) : list A :=
  remove_positions_from 0 ps l.

(** [del l[i]] followed by the index-shifted [del] of position [j]: the
    shape shared by lines 151-155 and 165-169. *)
Definition del_pair {A} (i j : nat) (l : list A) : result (list A) :=
  l ← delitem l i;
  if decide (i < j) then delitem l (j - 1) else delitem l j.

(** An element of a split netlist line, as [_parse_line] tells them
    apart. *)
Inductive line_item : Type :=
  | NetItem (net : Z)
  | OtherItem.

Section Cascade.

(** Frequency vectors, S-matrices and component models. *)
Context {Freq SMat Model : Type}.

(** ** Data model *)

(** A component instance: its ordered net list and its model. *)
Record ComponentInstance : Type := {
  nets : list Z;
  model : Model
}.

(** [ComponentSimulation]: attributes [nets], [f], [s]. *)
Record ComponentSimulation : Type := {
  cs_nets : list Z;
  cs_f : Freq;
  cs_s : SMat
}.

(** [Netlist]: attribute [components]. *)
Record Netlist : Type := {
  components : list ComponentInstance
}.

(** [ObjectModelNetlist]: attributes [component_list] and [net_count]
    ([instance_list] is never read). *)
Record ObjectModelNetlist : Type := {
  component_list : list ComponentInstance;
  net_count : Z
}.

Variable get_s_parameters : ComponentInstance → Freq * SMat.
Variable innerconnect_s : SMat → nat → nat → SMat.
Variable connect_s : SMat → nat → SMat → nat → SMat.

(** ** Netlist *)

(** [any(int(x) < 0 for x in component.nets)] *)
Definition is_external (component : ComponentInstance) : Prop :=
  Exists (λ x, (x < 0)%Z) (nets component).

Definition get_external_components (netlist : ObjectModelNetlist)
  : list ComponentInstance :=
  filter is_external (component_list netlist).

(** [max(nets)]: [ValueError] on the empty list. *)
Definition py_max (l : list Z) : result Z :=
  match l with
  | [] => Raise ValueError
  | x :: l' => Ok (foldl Z.max x l')
  end.

(** [Netlist.net_count] (a property). *)
Definition Netlist_net_count (self : Netlist) : result Z :=
  let nets := (components self) ≫= nets in
  m ← py_max nets; Ok (m + 1)%Z.

(** ** ObjectModelNetlist *)

(** [ObjectModelNetlist.__init__] *)
Definition ObjectModelNetlist_init : ObjectModelNetlist :=
  {| component_list := []; net_count := 0 |}.

(** [_parse_line]: the loop over [line_elements[1:]] as far as the
    counter goes. A [NetItem] is an element containing ["N$"], read by
    [int(item.replace("N$", ''))]; every other element only touches the
    local [component], which stays [None] because
    [create_component_by_name] returns [None] in this file. The final
    [component.nets = nets] therefore raises [AttributeError]; the
    counter has been updated on [self] by then. *)
Definition _parse_line (self : ObjectModelNetlist)
    (line_elements : list line_item) : ObjectModelNetlist * result unit :=
  let count :=
    foldl (λ c item,
             match item with
             | NetItem net => if decide (net > c)%Z then net else c
             | OtherItem => c
             end)
          (net_count self) (drop 1 line_elements) in
  ({| component_list := component_list self; net_count := count |},
   Raise AttributeError).

(** ** CircuitConnector *)

(** [ComponentSimulation(component)]: the net list is deep-copied. *)
Definition ComponentSimulation_init (component : ComponentInstance)
  : ComponentSimulation :=
  let '(f, s) := get_s_parameters component in
  {| cs_nets := nets component; cs_f := f; cs_s := s |}.

(** The working entries are distinct objects without [__eq__], so
    [component_list.index(component)] is the position the entry was
    taken from: the comprehension is modelled over [enumerate]. *)
Definition filtered_comps_from (k : nat) (net_id : Z)
    (cl : list ComponentSimulation) : list (nat * ComponentSimulation) :=
  filter (λ p, net_id ∈ cs_nets p.2) (enumerate_from k cl).

Definition _match_ports (net_id : Z) (cl : list ComponentSimulation)
  : result (nat * nat * nat * nat) :=
  let filtered_comps := filtered_comps_from 0 net_id cl in
  let comp_idx := filtered_comps.*1 in
  let net_idx := filtered_comps ≫= (λ p, positions net_id (cs_nets p.2)) in
  let comp_idx := if decide (length comp_idx = 1)
                  then comp_idx ++ comp_idx else comp_idx in
  c0 ← getitem comp_idx 0;
  n0 ← getitem net_idx 0;
  c1 ← getitem comp_idx 1;
  n1 ← getitem net_idx 1;
  Ok (c0, n0, c1, n1).

(** Lines 151-155: the two deletions of a self-loop fold on one net
    list. *)
Definition self_loop_nets (ia ib : nat) (nets : list Z)
  : result (list Z) :=
  del_pair ia ib nets.

(** [del component_list[ca]] followed by the index-shifted deletion of
    [cb] (lines 165-169). *)
Definition retire_pair (ca cb : nat) (cl : list ComponentSimulation)
  : result (list ComponentSimulation) :=
  del_pair ca cb cl.

(** The scan of the specification: every [(entry, port_index)] pair of
    the working list whose net id is [net_id], entries in list order and
    ports in port order. *)
Definition scan_from (k : nat) (net_id : Z) (cl : list ComponentSimulation)
  : list (nat * nat) :=
  enumerate_from k cl ≫=
    (λ p, (λ i, (p.1, i)) <$> positions net_id (cs_nets p.2)).

Definition scan (net_id : Z) (cl : list ComponentSimulation)
  : list (nat * nat) := scan_from 0 net_id cl.

(** Total number of ports of a working list. *)
Definition port_count (cl : list ComponentSimulation) : nat :=
  sum_list ((λ e, length (cs_nets e)) <$> cl).

(** Number of ports of one entry that carry [net_id]. *)
Definition net_occ (net_id : Z) (e : ComponentSimulation) : nat :=
  length (filter (λ x, x = net_id) (cs_nets e)).

(** What a self-loop fold should leave in place of entry [A]. *)
Definition self_loop_entry (A : ComponentSimulation) (ia ib : nat)
  : ComponentSimulation :=
  {| cs_nets := remove_positions [ia; ib] (cs_nets A);
     cs_f := cs_f A;
     cs_s := innerconnect_s (cs_s A) ia ib |}.

(** What a cross-merge fold of [A] and [B] should build; [first] is the
    entry whose frequency vector the new entry receives. *)
Definition merged_entry (first A : ComponentSimulation) (ia : nat)
    (B : ComponentSimulation) (ib : nat) : ComponentSimulation :=
  {| cs_nets := delete ia (cs_nets A) ++ delete ib (cs_nets B);
     cs_f := cs_f first;
     cs_s := connect_s (cs_s A) ia (cs_s B) ib |}.

(** One iteration of the [for n in range(...)] loop body. *)
Definition connect_step (n : Z) (cl : list ComponentSimulation)
  : result (list ComponentSimulation) :=
  '(ca, ia, cb, ib) ← _match_ports n cl;
  if decide (ca = cb) then
    A ← getitem cl ca;
    let s := innerconnect_s (cs_s A) ia ib in
    nets ← self_loop_nets ia ib (cs_nets A);
    Ok (<[ca := {| cs_nets := nets; cs_f := cs_f A; cs_s := s |}]> cl)
  else
    first ← getitem cl 0;
    A ← getitem cl ca;
    B ← getitem cl cb;
    let s := connect_s (cs_s A) ia (cs_s B) ib in
    netsA ← delitem (cs_nets A) ia;
    netsB ← delitem (cs_nets B) ib;
    let combination :=
      {| cs_nets := netsA ++ netsB; cs_f := cs_f first; cs_s := s |} in
    cl ← retire_pair ca cb cl;
    Ok (cl ++ [combination]).

(** The loop over the net ids. The first component of the result logs
    every id handed to [_match_ports], in the order of the calls. *)
Fixpoint cascade (ids : list Z) (cl : list ComponentSimulation)
  : list Z * result (list ComponentSimulation) :=
  match ids with
  | [] => ([], Ok cl)
  | n :: ids' =>
      match connect_step n cl with
      | Ok cl' => let '(log, r) := cascade ids' cl' in (n :: log, r)
      | Raise e => ([n], Raise e)
      end
  end.

(** [range(0, netlist.net_count + 1)] *)
Definition cascade_ids (netlist : ObjectModelNetlist) : list Z :=
  seqZ 0 (net_count netlist + 1)%Z.

Definition working_entries (netlist : ObjectModelNetlist)
  : list ComponentSimulation :=
  ComponentSimulation_init <$> component_list netlist.

(** [connect_circuit]: the prototype reads a variable [netlist], here
    its argument, with the attributes of an [ObjectModelNetlist].
    [Ok None] is the bare [return] taken when [net_count == 0]. *)
Definition connect_circuit (netlist : ObjectModelNetlist)
  : result (option (ComponentSimulation * list ComponentInstance)) :=
  if decide (net_count netlist = 0%Z) then Ok None
  else
    cl ← (cascade (cascade_ids netlist) (working_entries netlist)).2;
    first ← getitem cl 0;
    Ok (Some (first, get_external_components netlist)).

(** The ids looked up by a run of [connect_circuit]. *)
Definition looked_up (netlist : ObjectModelNetlist) : list Z :=
  if decide (net_count netlist = 0%Z) then []
  else (cascade (cascade_ids netlist) (working_entries netlist)).1.

End Cascade.

Arguments ComponentInstance : clear implicits.
Arguments ComponentSimulation : clear implicits.
Arguments Netlist : clear implicits.
Arguments ObjectModelNetlist : clear implicits.

(** Map over the value of a computation that did not raise. *)
Definition result_map {A B} (f : A → B) (r : result A) : result B :=
  match r with
  | Ok a => Ok (f a)
  | Raise e => Raise e
  end.

(** The same working entry with another frequency vector: used to
    compare a run with the run on other frequency grids. *)
Definition refreq {Freq Freq' SMat : Type} (g : Freq → Freq')
    (e : ComponentSimulation Freq SMat) : ComponentSimulation Freq' SMat :=
  {| cs_nets := cs_nets e; cs_f := g (cs_f e); cs_s := cs_s e |}.

(** ** Connected groups

    Two components are linked when they share an internal net id; a
    grouping of the components is a labelling of their positions under
    which linked components carry one label and components with one label
    are joined by a chain of links. The groups are the connected
    sub-circuits, and their number is the number of labels in use. *)

Definition linked {Model : Type} (components : list (ComponentInstance Model))
    (p q : nat) : Prop :=
  ∃ A B x, components !! p = Some A ∧ components !! q = Some B
    ∧ (0 ≤ x)%Z ∧ x ∈ nets A ∧ x ∈ nets B.

Definition grouping {Model : Type} (group : nat → nat)
    (components : list (ComponentInstance Model)) : Prop :=
  (∀ p q, linked components p q → group p = group q)
  ∧ (∀ p q, p < length components → q < length components →
       group p = group q → rtc (linked components) p q).

Definition group_count {Model : Type} (group : nat → nat)
    (components : list (ComponentInstance Model)) : nat :=
  length (remove_dups (group <$> seq 0 (length components))).

(** The same for a working list whose entries carry a tag each (the
    position of the component an entry started from, kept by a merged
    entry from its first source). *)
Definition shares {Freq SMat : Type}
    (tl : list (nat * ComponentSimulation Freq SMat)) (t u : nat) : Prop :=
  ∃ e1 e2 x, (t, e1) ∈ tl ∧ (u, e2) ∈ tl
    ∧ (0 ≤ x)%Z ∧ x ∈ cs_nets e1 ∧ x ∈ cs_nets e2.

Definition grouped {Freq SMat : Type} (group : nat → nat)
    (tl : list (nat * ComponentSimulation Freq SMat)) : Prop :=
  NoDup tl.*1
  ∧ (∀ t u, shares tl t u → group t = group u)
  ∧ (∀ t u, t ∈ tl.*1 → u ∈ tl.*1 → group t = group u →
       rtc (shares tl) t u).

(** ** A concrete instance for running the definitions

    S-matrices are kept symbolic: a matrix is the term that built it. *)
Module Sym.

Inductive smat : Type :=
  | Leaf (tag : Z)
  | Inner (s : smat) (ia ib : nat)
  | Conn (sa : smat) (ia : nat) (sb : smat) (ib : nat).

(** A model is the pair its [get_s_parameters] returns; a frequency
    vector is a list of integers (say, in Hz). *)
Definition freq : Type := list Z.
Definition model_t : Type := freq * smat.

Definition comp : Type := ComponentInstance model_t.
Definition entry : Type := ComponentSimulation freq smat.

Definition get_s_parameters (c : comp) : freq * smat := model c.

Definition mk (nets : list Z) (f : freq) (tag : Z) : comp :=
  {| nets := nets; model := (f, Leaf tag) |}.

Definition connect_step := connect_step (Freq := freq) Inner Conn.
Definition cascade := cascade (Freq := freq) Inner Conn.
Definition connect_circuit :=
  connect_circuit (Model := model_t) get_s_parameters Inner Conn.
Definition looked_up :=
  looked_up (Model := model_t) get_s_parameters Inner Conn.

(** Example working lists and netlists. *)

Definition sim (nets : list Z) (f : freq) (tag : Z) : entry :=
  {| cs_nets := nets; cs_f := f; cs_s := Leaf tag |}.

(** No entry carries net 0. *)
Definition cl_absent : list entry := [sim [-1; 1; 1]%Z [193]%Z 1].

(** Net 0 on three ports of three entries. *)
Definition cl_fanout : list entry :=
  [sim [0; -1]%Z [193]%Z 1; sim [0; -2]%Z [193]%Z 2; sim [0; -3]%Z [193]%Z 3].

(** Entries 1 and 2 share net 0 and one frequency vector; entry 0 has
    another. *)
Definition cl_freq : list entry :=
  [sim [-1]%Z [100]%Z 1; sim [0; -2]%Z [200]%Z 2; sim [-3; 0]%Z [200]%Z 3].

(** Net 1 only, counter at 1: id 0 is missing. *)
Definition nl_gap : ObjectModelNetlist model_t :=
  {| component_list := [mk [1; 1; -1]%Z [193]%Z 1]; net_count := 1 |}.

(** Two components joined by nets 0 and 1; their models disagree on the
    frequency vector. *)
Definition nl_pair : ObjectModelNetlist model_t :=
  {| component_list := [mk [0; 1; -1]%Z [193]%Z 1; mk [0; 1; -2]%Z [194]%Z 2];
     net_count := 1 |}.

(** Two components sharing no net id, each with a loop of its own. *)
Definition nl_apart : ObjectModelNetlist model_t :=
  {| component_list := [mk [0; 0; -1]%Z [193]%Z 1; mk [1; 1; -2]%Z [193]%Z 2];
     net_count := 1 |}.

(** Two components sharing no net id and without internal nets. *)
Definition nl_bare : ObjectModelNetlist model_t :=
  {| component_list := [mk [-1]%Z [193]%Z 1; mk [-2]%Z [193]%Z 2];
     net_count := 0 |}.

End Sym.

(** * The cascade over a store

    The working entries are built from deep copies of the components' net
    lists and then mutated with [del]. To state what a run leaves
    untouched, the net lists are placed in a store of list objects: a
    reference is a position in the store, allocation appends. A component
    instance and a working entry hold a reference to their net list.
    [get_s_parameters] belongs to the component models; it is taken to
    read the component without writing to it. *)

Abbreviation store A := (list (list A)).

(** The list behind a reference. *)
Definition deref {A} (h : store A) (r : nat) : list A :=
  match h !! r with
  | Some l => l
  | None => []
  end.

(** A new list object. *)
Definition alloc {A} (h : store A) (l : list A) : store A * nat :=
  (h ++ [l], length h).

(** [del r[i]] on the list object behind [r]. *)
Definition store_del {A} (h : store A) (r i : nat) : result (store A) :=
  l ← delitem (deref h r) i; Ok (<[r := l]> h).

Section StoreCascade.

Context {Freq SMat Model : Type}.

(** A component instance with its net list by reference. *)
Record ComponentObject : Type := {
  nets_ref : nat;
  model_of : Model
}.

(** A working entry with its net list by reference. *)
Record SimulationObject : Type := {
  so_nets : nat;
  so_f : Freq;
  so_s : SMat
}.

Variable get_s_parameters : ComponentInstance Model → Freq * SMat.
Variable innerconnect_s : SMat → nat → nat → SMat.
Variable connect_s : SMat → nat → SMat → nat → SMat.

(** The values a component object and a working entry stand for. *)
Definition component_value (h : store Z) (c : ComponentObject)
  : ComponentInstance Model :=
  {| nets := deref h (nets_ref c); model := model_of c |}.

Definition entry_value (h : store Z) (e : SimulationObject)
  : ComponentSimulation Freq SMat :=
  {| cs_nets := deref h (so_nets e); cs_f := so_f e; cs_s := so_s e |}.

(** The values a store and a working list stand for. *)
Definition working_values (st : store Z * list SimulationObject)
  : list (ComponentSimulation Freq SMat) :=
  entry_value st.1 <$> st.2.

(** [ComponentSimulation(component)]: [copy.deepcopy(component.nets)]
    allocates the copy. *)
Definition SimulationObject_init (h : store Z) (component : ComponentObject)
  : store Z * SimulationObject :=
  let '(h', r) := alloc h (deref h (nets_ref component)) in
  let '(f, s) := get_s_parameters (component_value h' component) in
  (h', {| so_nets := r; so_f := f; so_s := s |}).

(** The list comprehension that builds [component_list]. *)
Fixpoint make_entries (h : store Z) (components : list ComponentObject)
  : store Z * list SimulationObject :=
  match components with
  | [] => (h, [])
  | c :: components' =>
      let '(h1, e) := SimulationObject_init h c in
      let '(h2, es) := make_entries h1 components' in
      (h2, e :: es)
  end.

(** The loop body on the store. [_match_ports] only reads. *)
Definition store_step (n : Z) (st : store Z * list SimulationObject)
  : result (store Z * list SimulationObject) :=
  let '(h, cl) := st in
  '(ca, ia, cb, ib) ← _match_ports n (entry_value h <$> cl);
  if decide (ca = cb) then
    A ← getitem cl ca;
    let s := innerconnect_s (so_s A) ia ib in
    h ← store_del h (so_nets A) ia;
    h ← (if decide (ia < ib) then store_del h (so_nets A) (ib - 1)
         else store_del h (so_nets A) ib);
    Ok (h, <[ca := {| so_nets := so_nets A; so_f := so_f A; so_s := s |}]> cl)
  else
    first ← getitem cl 0;
    A ← getitem cl ca;
    B ← getitem cl cb;
    let s := connect_s (so_s A) ia (so_s B) ib in
    h ← store_del h (so_nets A) ia;
    h ← store_del h (so_nets B) ib;
    let '(h, r) := alloc h (deref h (so_nets A) ++ deref h (so_nets B)) in
    let combination := {| so_nets := r; so_f := so_f first; so_s := s |} in
    cl ← del_pair ca cb cl;
    Ok (h, cl ++ [combination]).

Fixpoint store_cascade (ids : list Z) (st : store Z * list SimulationObject)
  : result (store Z * list SimulationObject) :=
  match ids with
  | [] => Ok st
  | n :: ids' => st' ← store_step n st; store_cascade ids' st'
  end.

(** [connect_circuit] on the store: the final store comes with the
    result. [netlist_count] is [netlist.net_count], [components] is
    [netlist.component_list]. *)
Definition store_connect_circuit (h : store Z)
    (components : list ComponentObject) (netlist_count : Z)
  : result (store Z * option (SimulationObject * list ComponentObject)) :=
  if decide (netlist_count = 0%Z) then Ok (h, None)
  else
    '(h', cl) ← store_cascade (seqZ 0 (netlist_count + 1))
                  (make_entries h components);
    first ← getitem cl 0;
    Ok (h', Some (first,
                  filter (λ c, is_external (component_value h' c)) components)).

(** [h] extends [h0]: every list object of [h0] is in [h], unchanged, and
    the working entries [cl] refer to objects allocated since. *)
Definition extends (h0 h : store Z) (cl : list SimulationObject) : Prop :=
  length h0 ≤ length h
  ∧ (∀ r, r < length h0 → h !! r = h0 !! r)
  ∧ (∀ e, e ∈ cl → length h0 ≤ so_nets e < length h).

(** No two working entries share a net list object, and every reference
    is to an object of the store. *)
Definition separate (h : store Z) (cl : list SimulationObject) : Prop :=
  NoDup (so_nets <$> cl) ∧ ∀ e, e ∈ cl → so_nets e < length h.

End StoreCascade.

Arguments ComponentObject : clear implicits.
Arguments SimulationObject : clear implicits.

(** The netlist [Sym.nl_pair] with its net lists in a store. *)
Module SymStore.

Definition store0 : store Z := [[0; 1; -1]%Z; [0; 1; -2]%Z].

Definition objects : list (ComponentObject Sym.model_t) :=
  [{| nets_ref := 0; model_of := ([193]%Z, Sym.Leaf 1) |};
   {| nets_ref := 1; model_of := ([194]%Z, Sym.Leaf 2) |}].

Definition connect_circuit :=
  store_connect_circuit (Model := Sym.model_t)
    Sym.get_s_parameters Sym.Inner Sym.Conn.

End SymStore.

(** * The dynamic list of the SPICE plugin

    [_dlist_insert] works on a list object and returns a list object:
    the same one, written in place, or a new one. A list element is
    [None] (Python's [None]) or [Some v]. *)

(** [l[i] = x] for a Python integer [i]: a negative index counts from the
    end of the list. *)
Definition py_setitem {A} (l : list A) (i : Z) (x : A) : result (list A) :=
  let len := Z.of_nat (length l) in
  if decide (0 ≤ i < len)%Z then Ok (<[Z.to_nat i := x]> l)
  else if decide (- len ≤ i < 0)%Z then Ok (<[Z.to_nat (len + i) := x]> l)
  else Raise IndexError.

(** [for i, v in enumerate(dlist): new[i] = v] *)
Definition copy_into {A} (new dlist : list A) : result (list A) :=
  foldl (λ acc p, new ← acc; py_setitem new (Z.of_nat p.1) p.2)
        (Ok new) (enumerate dlist).

Definition _dlist_insert {V} (h : store (option V)) (dlist : nat)
    (index : Z) (element : option V) : result (store (option V) * nat) :=
  match py_setitem (deref h dlist) index element with
  | Ok l => Ok (<[dlist := l]> h, dlist)
  | Raise IndexError =>
      let new := replicate (Z.to_nat (index + 1)) None in
      new ← copy_into new (deref h dlist);
      new ← py_setitem new index element;
      Ok (alloc h new)
  | Raise e => Raise e
  end.

(** * Numeric literals

    [str2float] of [simphony.tools] is not among the sources: only its
    tests in [tests/test_tools.py] and its caller [visit_number] are. The
    literal syntax is the one of the [number] rule of the SPICE grammar: a
    sign, digits, a point and more digits, then an exponent or one
    letter. A float is modelled by the exact rational it denotes, so the
    SI multiplier is a power of ten and no rounding takes place. *)

Definition is_digit (c : ascii) : bool :=
  (48 <=? nat_of_ascii c) && (nat_of_ascii c <=? 57).

Definition is_letter (c : ascii) : bool :=
  ((65 <=? nat_of_ascii c) && (nat_of_ascii c <=? 90))
  || ((97 <=? nat_of_ascii c) && (nat_of_ascii c <=? 122)).

Definition digit_value (c : ascii) : Z := Z.of_nat (nat_of_ascii c - 48).

Definition digits_value (ds : list ascii) : Z :=
  foldl (λ acc c, 10 * acc + digit_value c)%Z 0%Z ds.

Inductive sign : Type := NoSign | Plus | Minus.

Definition signed (s : sign) (z : Z) : Z :=
  match s with
  | Minus => (- z)%Z
  | _ => z
  end.

(** A decimal number: sign, integer digits, and the digits after the
    point when there is a point. *)
Record decimal : Type := {
  dsign : sign;
  dint : list ascii;
  dfrac : option (list ascii)
}.

Definition well_formed (d : decimal) : Prop :=
  dint d ≠ []
  ∧ Forall (λ c, is_digit c = true) (dint d)
  ∧ ∀ fs, dfrac d = Some fs → Forall (λ c, is_digit c = true) fs.

(** The rational a decimal number denotes. *)
Definition decimal_value (d : decimal) : Q :=
  let frac := match dfrac d with Some fs => fs | None => [] end in
  let magnitude :=
    Qplus (inject_Z (digits_value (dint d)))
          (Qmake (digits_value frac)
                 (Z.to_pos (10 ^ Z.of_nat (length frac)))) in
  match dsign d with
  | Minus => Qopp magnitude
  | _ => magnitude
  end.

Definition print_sign (s : sign) : list ascii :=
  match s with
  | NoSign => []
  | Plus => ["+"%char]
  | Minus => ["-"%char]
  end.

Definition print_decimal (d : decimal) : list ascii :=
  print_sign (dsign d) ++ dint d
  ++ match dfrac d with
     | Some fs => "."%char :: fs
     | None => []
     end.

(** Modelled from the spec: the SI suffix table of [simphony.tools], as
    the exponent of ten of each multiplier. *)
Definition SI_table (c : ascii) : option Z :=
  if decide (c = "f"%char) then Some (-15)%Z
  else if decide (c = "p"%char) then Some (-12)%Z
  else if decide (c = "n"%char) then Some (-9)%Z
  else if decide (c = "u"%char) then Some (-6)%Z
  else if decide (c = "m"%char) then Some (-3)%Z
  else if decide (c = "c"%char) then Some (-2)%Z
  else if decide (c = "k"%char) then Some 3%Z
  else if decide (c = "M"%char) then Some 6%Z
  else if decide (c = "G"%char) then Some 9%Z
  else if decide (c = "T"%char) then Some 12%Z
  else None.

Definition pow10 (k : Z) : Q := Qpower (inject_Z 10) k.

Fixpoint take_digits (s : list ascii) : list ascii * list ascii :=
  match s with
  | c :: s' =>
      if is_digit c then
        let '(ds, rest) := take_digits s' in (c :: ds, rest)
      else ([], s)
  | [] => ([], [])
  end.

Definition parse_sign (s : list ascii) : sign * list ascii :=
  match s with
  | c :: s' =>
      if decide (c = "-"%char) then (Minus, s')
      else if decide (c = "+"%char) then (Plus, s')
      else (NoSign, s)
  | [] => (NoSign, [])
  end.

Definition parse_decimal (s : list ascii) : option (decimal * list ascii) :=
  let '(sg, s1) := parse_sign s in
  let '(ds, s2) := take_digits s1 in
  match ds with
  | [] => None
  | _ :: _ =>
      match s2 with
      | c :: s3 =>
          if decide (c = "."%char) then
            let '(fs, s4) := take_digits s3 in
            Some ({| dsign := sg; dint := ds; dfrac := Some fs |}, s4)
          else Some ({| dsign := sg; dint := ds; dfrac := None |}, s2)
      | [] => Some ({| dsign := sg; dint := ds; dfrac := None |}, [])
      end
  end.

(** An exponent: [e] or [E], a sign, digits, and nothing after them. *)
Definition parse_exponent (s : list ascii) : option Z :=
  match s with
  | c :: s1 =>
      if decide (c = "e"%char ∨ c = "E"%char) then
        let '(sg, s2) := parse_sign s1 in
        let '(ds, s3) := take_digits s2 in
        match ds, s3 with
        | _ :: _, [] => Some (signed sg (digits_value ds))
        | _, _ => None
        end
      else None
  | [] => None
  end.

(** Modelled from the spec: [str2float] of [simphony.tools], whose source
    is missing. A decimal number alone, with an exponent, or with one
    letter of the SI table is accepted; anything else is rejected with
    [ValueError], the exception the tests expect. *)
Definition str2float (num : string) : result Q :=
  match parse_decimal (list_ascii_of_string num) with
  | None => Raise ValueError
  | Some (d, rest) =>
      match rest with
      | [] => Ok (decimal_value d)
      | [c] =>
          match SI_table c with
          | Some k => Ok (Qmult (decimal_value d) (pow10 k))
          | None => Raise ValueError
          end
      | _ =>
          match parse_exponent rest with
          | Some x => Ok (Qmult (decimal_value d) (pow10 x))
          | None => Raise ValueError
          end
      end
  end.

(** [strToSci], the prototype that [netlist.py] keeps in comments for the
    same job. Floats stay abstract here: [py_float] stands for Python's
    [float], [float_mul] for the product of two floats, which rounds, and
    [float_exp10 k] for the float the literal [1e<k>] denotes. The last
    branch calls the string [number] as a function, which raises
    [TypeError] before anything else in it is evaluated. *)
Definition strToSci {Float : Type} (py_float : list ascii → result Float)
    (float_mul : Float → Float → Float) (float_exp10 : Z → Float)
    (number : string) : result Float :=
  match reverse (list_ascii_of_string number) with
  | [] => Raise IndexError
  | ex :: rest =>
      base ← py_float (reverse rest);
      if decide (ex = "m"%char) then Ok (float_mul base (float_exp10 (-3)%Z))
      else if decide (ex = "u"%char)
      then Ok (float_mul base (float_exp10 (-6)%Z))
      else if decide (ex = "n"%char)
      then Ok (float_mul base (float_exp10 (-9)%Z))
      else Raise TypeError
  end.

(** The number of decimal points of a literal. *)
Definition count_points (s : list ascii) : nat :=
  length (filter (λ c, c = "."%char) s).

(** * The rest of the netlist module *)

Section NetlistModule.

Context {Freq SMat Model : Type}.
Variable get_s_parameters : ComponentInstance Model → Freq * SMat.
Variable innerconnect_s : SMat → nat → nat → SMat.
Variable connect_s : SMat → nat → SMat → nat → SMat.

(** [Netlist.__init__]: the list given, or a new empty list for [None]. *)
Definition Netlist_init (given : option (list (ComponentInstance Model)))
  : Netlist Model :=
  {| components := default [] given |}.

(** [Netlist.add_component]: [self.components.append(component)]. *)
Definition Netlist_add_component (self : Netlist Model)
    (component : ComponentInstance Model) : Netlist Model :=
  {| components := components self ++ [component] |}.

(** [Netlist.get_external_components] *)
Definition Netlist_get_external_components (self : Netlist Model)
  : list (ComponentInstance Model) :=
  filter is_external (components self).

(** [ObjectModelNetlist.add_component]: the component is appended and the
    counter [net_count] is left as it is. *)
Definition ObjectModelNetlist_add_component (self : ObjectModelNetlist Model)
    (component : ComponentInstance Model) : ObjectModelNetlist Model :=
  {| component_list := component_list self ++ [component];
     net_count := net_count self |}.

(** [get_sparameters], kept in comments next to [connect_circuit]: the
    unpacking [combined, edge_components = connect_circuit(netlist)]
    raises [TypeError] on the [None] of the bare [return]. *)
Definition get_sparameters (netlist : ObjectModelNetlist Model)
  : result (SMat * Freq * list Z * list (ComponentInstance Model)) :=
  out ← connect_circuit get_s_parameters innerconnect_s connect_s netlist;
  match out with
  | None => Raise TypeError
  | Some (combined, edge_components) =>
      let f := cs_f combined in
      let s := cs_s combined in
      let externals := cs_nets combined in
      Ok (s, f, externals, edge_components)
  end.

End NetlistModule.

(** ** [parse_text] *)

(** [sub in s] on strings. *)
Fixpoint contains (sub s : string) : bool :=
  String.prefix sub s
  || match s with
     | EmptyString => false
     | String _ s' => contains sub s'
     end.

(** A line of the text after [line.split()]: no element at all, or a
    first element, read as text, and the elements after it as
    [_parse_line] tells them apart. *)
Inductive text_line : Type :=
  | NoElements
  | Elements (first : string) (rest : list line_item).

(** [parse_text] over the lines of [text.splitlines()]. [_parse_line]
    skips element 0 of the line it is given, so any item stands for it. *)
Fixpoint parse_text {Model : Type} (self : ObjectModelNetlist Model)
    (lines : list text_line)
  : ObjectModelNetlist Model * result (list (ComponentInstance Model)) :=
  match lines with
  | [] => (self, Ok (component_list self))
  | NoElements :: lines' => parse_text self lines'
  | Elements first rest :: lines' =>
      if contains ".ends" first then (self, Ok (component_list self))
      else if contains "." first || contains "*" first
      then parse_text self lines'
      else
        let '(self', r) := _parse_line self (OtherItem :: rest) in
        match r with
        | Ok _ => parse_text self' lines'
        | Raise e => (self', Raise e)
        end
  end.

(** What [parse_text] does with a line: skip it, stop at it, or hand
    its elements to [_parse_line]. *)
Inductive line_kind : Type :=
  | Skipped
  | Ends
  | ComponentLine (rest : list line_item).

Definition kind_of (line : text_line) : line_kind :=
  match line with
  | NoElements => Skipped
  | Elements first rest =>
      if contains ".ends" first then Ends
      else if contains "." first || contains "*" first then Skipped
      else ComponentLine rest
  end.

(** * The SPICE visitor of the plugin *)

Inductive SpiceObjects : Type := DIRECTIVE | CIRCUIT.

Inductive Directives : Type := ONA | INCLUDE | SUBCKT.

Section SpiceVisitor.

(** The values of the pairs: text or numbers. *)
Context {V : Type}.

(** The dictionary [visit_pair] builds from a key and a value: ["name"],
    ["value"], and ["order"] when the key is a [list]. *)
Record Pair : Type := {
  pair_name : string;
  pair_order : option Z;
  pair_value : V
}.

(** [{p["name"]: p["value"] for p in params}] *)
Definition params_dict (params : list Pair) : gmap string V :=
  foldl (λ d p, <[pair_name p := pair_value p]> d) ∅ params.

(** ** [visit_ona] *)

(** A value of [ona["params"]]: the value of an option without order, or
    the dynamic list of the options with one. *)
Inductive ona_param : Type :=
  | OnaScalar (v : V)
  | OnaList (l : list (option V)).

Record Ona : Type := {
  ona_definition : gmap string V;
  ona_params : gmap string ona_param
}.

(** [_dlist_insert] on a list that nothing else refers to, as the lists
    of [ona["params"]] are: the list it returns. *)
Definition dlist_insert_value (dlist : list (option V)) (index : Z)
    (element : option V) : result (list (option V)) :=
  '(h, r) ← _dlist_insert [dlist] 0 index element; Ok (deref h r).

(** The body of the loop over the options. The look-up of the name
    raises [KeyError] on a new name, which the handler turns into an
    insertion into [[]]; on a value that is no list the item assignment
    of [_dlist_insert] raises [TypeError]. *)
Definition ona_option (params : gmap string ona_param) (option : Pair)
  : result (gmap string ona_param) :=
  match pair_order option with
  | Some order =>
      match params !! pair_name option with
      | Some (OnaList l) =>
          l ← dlist_insert_value l (order - 1) (Some (pair_value option));
          Ok (<[pair_name option := OnaList l]> params)
      | Some (OnaScalar _) => Raise TypeError
      | None =>
          l ← dlist_insert_value [] (order - 1) (Some (pair_value option));
          Ok (<[pair_name option := OnaList l]> params)
      end
  | None => Ok (<[pair_name option := OnaScalar (pair_value option)]> params)
  end.

(** The loop over the options of one option set, and over the option
    sets. *)
Definition ona_optionset (acc : result (gmap string ona_param))
    (optionset : list Pair) : result (gmap string ona_param) :=
  foldl (λ acc option, params ← acc; ona_option params option) acc optionset.

Definition visit_ona (parameters : list Pair) (options : list (list Pair))
  : result (Directives * Ona) :=
  let definition := params_dict parameters in
  params ← foldl ona_optionset (Ok ∅) options;
  Ok (ONA, {| ona_definition := definition; ona_params := params |}).

(** The option of [opts] that wrote slot [k] of the list of [name] last. *)
Definition slot_writer (name : string) (k : nat) (opts : list Pair)
  : option Pair :=
  last (filter (λ o, pair_name o = name
                     ∧ pair_order o = Some (Z.of_nat k + 1)%Z) opts).

(** What the options [opts] leave under [name] in [ona["params"]]:
    nothing when no option has the name; the value of the last option
    of the name when that one has no order; a list otherwise, as long
    as the largest order written, with each slot holding the value of
    its last writer, or [None] when it has none. *)
Definition assembled (opts : list Pair) (name : string)
    (p : option ona_param) : Prop :=
  match p with
  | None => ∀ o, o ∈ opts → pair_name o ≠ name
  | Some (OnaScalar v) =>
      ∃ o, last (filter (λ o, pair_name o = name) opts) = Some o
           ∧ pair_order o = None ∧ pair_value o = v
  | Some (OnaList l) =>
      (∀ o order, o ∈ opts → pair_name o = name →
         pair_order o = Some order → (order ≤ Z.of_nat (length l))%Z)
      ∧ (∃ o, o ∈ opts ∧ pair_name o = name
              ∧ pair_order o = Some (Z.of_nat (length l)))
      ∧ ∀ k, k < length l →
          l !! k = Some (pair_value <$> slot_writer name k opts)
  end.

(** ** [visit_subckt] and [visit_component] *)

Record Header : Type := {
  header_name : string;
  header_externals : list string
}.

Record Footer : Type := {
  footer_name : string
}.

Record Component : Type := {
  comp_name : string;
  comp_model : string;
  comp_ports : list string;
  comp_params : gmap string V
}.

Record Subckt : Type := {
  subckt_name : string;
  subckt_ports : list string;
  subckt_components : list Component;
  subckt_params : gmap string V
}.

Record Circuit : Type := {
  circuit_name : string;
  circuit_ports : list string;
  circuit_subcircuits : string;
  circuit_params : list Pair
}.

Definition visit_component (name : string) (ports : list string)
    (model : string) (params : list Pair) : Component :=
  {| comp_name := name; comp_model := model; comp_ports := ports;
     comp_params := params_dict params |}.

Definition visit_subckt (header : Header) (params : list Pair)
    (components : list Component) (footer : Footer)
  : result (Directives * Subckt) :=
  if decide (header_name header ≠ footer_name footer) then Raise ValueError
  else
    Ok (SUBCKT,
        {| subckt_name := header_name header;
           subckt_ports := header_externals header;
           subckt_components := components;
           subckt_params := params_dict params |}).

(** ** [visit_file] *)

Record Contents : Type := {
  circuits : list Circuit;
  subcircuits : list Subckt;
  analyses : list Ona
}.

(** An item [(typ, payload)] of a file. The payload of an [INCLUDE] is
    the contents of the file it names. [SpiceObjects.DIRECTIVE] has no
    branch in [sort_items]. *)
Inductive file_item : Type :=
  | SubcktItem (payload : Subckt)
  | OnaItem (payload : Ona)
  | IncludeItem (payload : Contents)
  | CircuitItem (payload : Circuit)
  | DirectiveItem.

Definition sort_items (container : Contents) (item : file_item) : Contents :=
  match item with
  | SubcktItem payload =>
      {| circuits := circuits container;
         subcircuits := subcircuits container ++ [payload];
         analyses := analyses container |}
  | OnaItem payload =>
      {| circuits := circuits container;
         subcircuits := subcircuits container;
         analyses := analyses container ++ [payload] |}
  | IncludeItem payload =>
      {| circuits := circuits container ++ circuits payload;
         subcircuits := subcircuits container ++ subcircuits payload;
         analyses := analyses container ++ analyses payload |}
  | CircuitItem payload =>
      {| circuits := circuits container ++ [payload];
         subcircuits := subcircuits container;
         analyses := analyses container |}
  | DirectiveItem => container
  end.

(** [visit_file] on the children that are not [None]. *)
Definition visit_file (items : list file_item) : Contents :=
  foldl sort_items
        {| circuits := []; subcircuits := []; analyses := [] |} items.

End SpiceVisitor.

Arguments Pair : clear implicits.
Arguments ona_param : clear implicits.
Arguments Ona : clear implicits.
Arguments Component : clear implicits.
Arguments Subckt : clear implicits.
Arguments Circuit : clear implicits.
Arguments Contents : clear implicits.
Arguments file_item : clear implicits.

(** An analysis block for running the definitions: a start value, and
    an input list given out of order over two option sets. *)
Module SymOna.

Definition start : Pair Z :=
  {| pair_name := "start"; pair_order := None; pair_value := 1500%Z |}.

Definition input1 : Pair Z :=
  {| pair_name := "input"; pair_order := Some 1%Z; pair_value := 10%Z |}.

Definition input3 : Pair Z :=
  {| pair_name := "input"; pair_order := Some 3%Z; pair_value := 30%Z |}.

Definition input0 : Pair Z :=
  {| pair_name := "input"; pair_order := Some 0%Z; pair_value := 99%Z |}.

Definition options : list (list (Pair Z)) := [[start; input3]; [input1]].

Definition options' : list (list (Pair Z)) := [[input1]; [input3; start]].

End SymOna.

(** Two components joined by net 0 alone: the largest net id is 0, and
    so is the counter that [_parse_line] keeps for these ids. *)
Definition nl_net_zero : ObjectModelNetlist Sym.model_t :=
  {| component_list :=
       [Sym.mk [0; -1]%Z [193]%Z 1; Sym.mk [0; -2]%Z [193]%Z 2];
     net_count := 0 |}.

(** * Properties *)

(** ** List primitives *)

Lemma getitem_Ok {A} (l : list A) i x : getitem l i = Ok x ↔ l !! i = Some x.
Proof. unfold getitem. destruct (l !! i); split; congruence. Qed.

Lemma getitem_Raise {A} (l : list A) i e :
  getitem l i = Raise e ↔ (length l ≤ i) ∧ e = IndexError.
Proof.
  unfold getitem. destruct (l !! i) eqn:E.
  - apply lookup_lt_Some in E. split; [congruence | lia].
  - apply lookup_ge_None in E. split; [intros [= <-]; done | intros [_ ->]; done].
Qed.

Lemma getitem_lt {A} (l : list A) i :
  (i < length l) → ∃ x, getitem l i = Ok x ∧ l !! i = Some x.
Proof.
  intros H. destruct (lookup_lt_is_Some_2 l i H) as [x Hx].
  exists x. split; [by apply getitem_Ok | done].
Qed.

Lemma bind_Ok {A B} (m : result A) (k : A → result B) r :
  m ≫= k = Ok r → ∃ x, m = Ok x ∧ k x = Ok r.
Proof. destruct m as [x|ex]; simpl; [eauto | done]. Qed.

Lemma bind_getitem_Raise {A B} (l : list A) i (k : A → result B) ex :
  getitem l i ≫= k = Raise ex → ex = IndexError ∨ ∃ x, k x = Raise ex.
Proof.
  destruct (getitem l i) as [x|ex'] eqn:E; simpl.
  - eauto.
  - apply getitem_Raise in E as [_ ->]. intros [= <-]. by left.
Qed.

Lemma elem_of_insert_inv {A} (l : list A) i x y :
  y ∈ <[i:=x]> l → y = x ∨ y ∈ l.
Proof.
  intros [j Hj]%list_elem_of_lookup. destruct (decide (i = j)) as [->|Hne].
  - destruct (decide (j < length l)) as [Hlt|Hge].
    + rewrite list_lookup_insert_eq in Hj by done. left. congruence.
    + rewrite list_insert_ge in Hj by lia. right.
      by eapply list_elem_of_lookup_2.
  - rewrite list_lookup_insert_ne in Hj by done. right.
    by eapply list_elem_of_lookup_2.
Qed.

Lemma delitem_Ok {A} (l l' : list A) i :
  delitem l i = Ok l' ↔ (i < length l) ∧ l' = delete i l.
Proof.
  unfold delitem. case_decide as Hlt; split.
  - intros [= <-]. by split.
  - intros [_ ->]. done.
  - done.
  - intros [Hi _]. by destruct Hlt.
Qed.

Lemma delitem_lt {A} (l : list A) i :
  (i < length l) → delitem l i = Ok (delete i l).
Proof. intros. by apply delitem_Ok. Qed.

Lemma delitem_ge {A} (l : list A) i :
  (length l ≤ i) → delitem l i = Raise IndexError.
Proof. intros. unfold delitem. case_decide; [lia | done]. Qed.

Lemma enumerate_from_app {A} k (l1 l2 : list A) :
  enumerate_from k (l1 ++ l2)
  = enumerate_from k l1 ++ enumerate_from (k + length l1) l2.
Proof.
  revert k. induction l1 as [|x l1 IH]; intros k; simpl.
  - by rewrite Nat.add_0_r.
  - rewrite IH. do 3 f_equal. lia.
Qed.

Lemma elem_of_enumerate_from {A} k (l : list A) i x :
  (i, x) ∈ enumerate_from k l ↔ (k ≤ i) ∧ l !! (i - k) = Some x.
Proof.
  revert k. induction l as [|y l IH]; intros k; simpl.
  - rewrite elem_of_nil. split; [done | by intros [_ ?]].
  - rewrite elem_of_cons, IH. split.
    + intros [[= -> ->] | [Hk Hl]].
      * rewrite Nat.sub_diag. done.
      * split; [lia|]. replace (i - k) with (S (i - S k)) by lia. done.
    + intros [Hk Hl]. destruct (decide (i = k)) as [->|Hne].
      * rewrite Nat.sub_diag in Hl. left. injection Hl as ->. done.
      * right. split; [lia|].
        replace (i - k) with (S (i - S k)) in Hl by lia. done.
Qed.

(** ** Removing two positions *)

Lemma remove_positions_from_cons {A} k ps (x : A) l :
  remove_positions_from k ps (x :: l)
  = if decide (k ∈ ps) then remove_positions_from (S k) ps l
    else x :: remove_positions_from (S k) ps l.
Proof.
  unfold remove_positions_from. simpl. rewrite filter_cons. simpl.
  destruct (decide (k ∈ ps)); [by rewrite decide_False by tauto|].
  by rewrite decide_True by done.
Qed.

Lemma remove_positions_from_ext {A} k ps ps' (l : list A) :
  (∀ p, (k ≤ p) → p ∈ ps ↔ p ∈ ps') →
  remove_positions_from k ps l = remove_positions_from k ps' l.
Proof.
  revert k. induction l as [|x l IH]; intros k Hext; [done|].
  rewrite !remove_positions_from_cons.
  rewrite (IH (S k)) by (intros p Hp; apply Hext; lia).
  destruct (decide (k ∈ ps)) as [Hk|Hk], (decide (k ∈ ps')) as [Hk'|Hk'];
    try done; exfalso; apply (Hext k) in Hk || apply (Hext k) in Hk'; done.
Qed.

Lemma remove_positions_from_below {A} k ps (l : list A) :
  (∀ p, p ∈ ps → (p < k)) → remove_positions_from k ps l = l.
Proof.
  revert k. induction l as [|x l IH]; intros k Hlt; [done|].
  rewrite remove_positions_from_cons.
  destruct (decide (k ∈ ps)) as [Hk|Hk]; [apply Hlt in Hk; lia|].
  f_equal. apply IH. intros p Hp. apply Hlt in Hp. lia.
Qed.

Lemma remove_positions_from_one {A} k i (l : list A) :
  remove_positions_from k [(k + i)] l = delete i l.
Proof.
  revert k i. induction l as [|x l IH]; intros k i; [done|].
  rewrite remove_positions_from_cons. destruct i as [|i].
  - rewrite Nat.add_0_r, decide_True by (by left).
    apply remove_positions_from_below.
    intros p ->%list_elem_of_singleton. lia.
  - rewrite decide_False by (rewrite list_elem_of_singleton; lia).
    simpl. f_equal. rewrite <- (IH (S k) i). do 2 f_equal. lia.
Qed.

Lemma remove_positions_from_lt {A} k i j (l : list A) :
  (i < j) →
  remove_positions_from k [(k + i); (k + j)] l
  = delete (j - 1) (delete i l).
Proof.
  revert k i j. induction l as [|x l IH]; intros k i j Hij; [done|].
  rewrite remove_positions_from_cons. destruct i as [|i].
  - rewrite Nat.add_0_r, decide_True by (by left + (right; by left)). simpl.
    rewrite <- (remove_positions_from_one (S k)).
    apply remove_positions_from_ext. intros p Hp.
    rewrite !elem_of_cons, !elem_of_nil.
    split; [intros [->|[->|[]]]; [lia|left; lia] | intros [->|[]]; right; left; lia].
  - rewrite decide_False
      by (rewrite !elem_of_cons, elem_of_nil; lia).
    simpl. destruct j as [|[|j]]; [lia..|]. simpl. f_equal.
    replace j with (S j - 1) at 2 by lia.
    rewrite <- (IH (S k) i (S j)) by lia.
    do 2 f_equal; [lia | f_equal; lia].
Qed.

Lemma remove_positions_from_gt {A} k i j (l : list A) :
  (j < i) →
  remove_positions_from k [(k + i); (k + j)] l
  = delete j (delete i l).
Proof.
  revert k i j. induction l as [|x l IH]; intros k i j Hij; [done|].
  rewrite remove_positions_from_cons. destruct j as [|j].
  - rewrite Nat.add_0_r, decide_True by (by left + (right; by left)).
    destruct i as [|i]; [lia|]. simpl.
    rewrite <- (remove_positions_from_one (S k)).
    apply remove_positions_from_ext. intros p Hp.
    rewrite !elem_of_cons, !elem_of_nil.
    split; [intros [->|[->|[]]]; [left; lia|lia] | intros [->|[]]; left; lia].
  - rewrite decide_False
      by (rewrite !elem_of_cons, elem_of_nil; lia).
    destruct i as [|i]; [lia|]. simpl. f_equal.
    rewrite <- (IH (S k) i j) by lia.
    do 2 f_equal; [lia | f_equal; lia].
Qed.

Lemma remove_positions_lt {A} i j (l : list A) :
  i < j → remove_positions [i; j] l = delete (j - 1) (delete i l).
Proof. exact (remove_positions_from_lt 0 i j l). Qed.

Lemma remove_positions_gt {A} i j (l : list A) :
  j < i → remove_positions [i; j] l = delete j (delete i l).
Proof. exact (remove_positions_from_gt 0 i j l). Qed.

(** The two deletions remove exactly the two intended positions, in
    either order of the indices. *)
Lemma del_pair_spec {A} i j (l : list A) :
  i ≠ j → (i < length l) → (j < length l) →
  del_pair i j l = Ok (remove_positions [i; j] l).
Proof.
  intros Hne Hi Hj. unfold del_pair.
  rewrite delitem_lt by done. simpl.
  assert (length (delete i l) = (length l - 1)) as Hlen.
  { rewrite length_delete; [done|]. by apply lookup_lt_is_Some_2. }
  case_decide.
  - rewrite delitem_lt by lia. f_equal.
    symmetry. by apply remove_positions_lt.
  - rewrite delitem_lt by lia. f_equal.
    symmetry. apply remove_positions_gt. lia.
Qed.

Ltac delete_in_range :=
  apply lookup_lt_is_Some_2;
  repeat (rewrite length_delete by delete_in_range); lia.

Lemma length_remove_positions_two {A} i j (l : list A) :
  i ≠ j → i < length l → j < length l →
  length (remove_positions [i; j] l) + 2 = length l.
Proof.
  intros Hne Hi Hj.
  destruct (decide (i < j)).
  - rewrite remove_positions_lt by done.
    repeat (rewrite length_delete by delete_in_range). lia.
  - rewrite remove_positions_gt by lia.
    repeat (rewrite length_delete by delete_in_range). lia.
Qed.

(** ** Sums over a list under deletion and update *)

Lemma sum_list_delete {A} (f : A → nat) (l : list A) i x :
  l !! i = Some x →
  sum_list (f <$> l) = f x + sum_list (f <$> delete i l).
Proof.
  revert i. induction l as [|y l IH]; intros [|i] Hi; simplify_eq/=; [done|].
  rewrite (IH i) by done. lia.
Qed.

Lemma sum_list_insert {A} (f : A → nat) (l : list A) i x y :
  l !! i = Some x →
  sum_list (f <$> <[i:=y]> l) + f x = sum_list (f <$> l) + f y.
Proof.
  revert i. induction l as [|z l IH]; intros [|i] Hi; simplify_eq/=; [lia|].
  specialize (IH i Hi). lia.
Qed.

Lemma lookup_remove_second {A} (l : list A) a b :
  a ≠ b →
  delete a l !! (if decide (a < b) then b - 1 else b) = l !! b.
Proof.
  intros Hne. case_decide.
  - rewrite list_lookup_delete_ge by lia. f_equal. lia.
  - rewrite list_lookup_delete_lt by lia. done.
Qed.

Lemma remove_positions_two {A} (l : list A) a b :
  a ≠ b →
  remove_positions [a; b] l
  = delete (if decide (a < b) then b - 1 else b) (delete a l).
Proof.
  intros Hne. case_decide.
  - by apply remove_positions_lt.
  - apply remove_positions_gt. lia.
Qed.

Lemma sum_list_remove_two {A} (f : A → nat) (l : list A) a b x y :
  a ≠ b → l !! a = Some x → l !! b = Some y →
  sum_list (f <$> l) = f x + f y + sum_list (f <$> remove_positions [a; b] l).
Proof.
  intros Hne Ha Hb. rewrite remove_positions_two by done.
  rewrite (sum_list_delete f l a x) by done.
  rewrite (sum_list_delete f (delete a l) _ y)
    by (by rewrite lookup_remove_second).
  lia.
Qed.

Lemma elem_of_remove_positions_two {A} (l : list A) a b x :
  a ≠ b → x ∈ remove_positions [a; b] l → x ∈ l.
Proof.
  intros Hne. rewrite remove_positions_two by done.
  intros H. do 2 apply list_elem_of_delete_inv in H. done.
Qed.

Lemma length_filter_delete (P : Z → Prop) `{!∀ x, Decision (P x)}
    (l : list Z) i x :
  l !! i = Some x →
  length (filter P l)
  = (if decide (P x) then 1 else 0) + length (filter P (delete i l)).
Proof.
  revert i. induction l as [|y l IH]; intros [|i] Hi; try done.
  - injection Hi as ->. change (delete 0 (x :: l)) with l.
    rewrite filter_cons. by case_decide.
  - change (delete (S i) (y :: l)) with (y :: delete i l).
    rewrite !filter_cons. specialize (IH i Hi).
    destruct (decide (P y)), (decide (P x)); simpl; lia.
Qed.

(** ** Positions of a net id in a net list *)

Lemma positions_from_nil k n : positions_from k n [] = [].
Proof. done. Qed.

Lemma positions_from_cons k n x l :
  positions_from k n (x :: l)
  = if decide (x = n) then k :: positions_from (S k) n l
    else positions_from (S k) n l.
Proof.
  unfold positions_from. simpl. rewrite filter_cons. simpl.
  by case_decide.
Qed.

Lemma elem_of_positions_from k n l i :
  i ∈ positions_from k n l ↔ (k ≤ i) ∧ l !! (i - k) = Some n.
Proof.
  unfold positions_from. rewrite list_elem_of_fmap. split.
  - intros [[j x] [-> [Hx Hin]%list_elem_of_filter]]. simpl in *. subst.
    by apply elem_of_enumerate_from.
  - intros H. exists (i, n). split; [done|].
    apply list_elem_of_filter. split; [done|]. by apply elem_of_enumerate_from.
Qed.

Lemma elem_of_positions n l i : i ∈ positions n l ↔ l !! i = Some n.
Proof.
  unfold positions. rewrite elem_of_positions_from, Nat.sub_0_r.
  split; [tauto | split; [lia | done]].
Qed.

Lemma positions_nil_iff n l : positions n l = [] ↔ n ∉ l.
Proof.
  split.
  - intros H [i Hi]%list_elem_of_lookup. apply elem_of_positions in Hi.
    rewrite H in Hi. by apply elem_of_nil in Hi.
  - intros H. destruct (positions n l) as [|i ps] eqn:E; [done|].
    exfalso. apply H. assert (i ∈ positions n l) as Hi by (rewrite E; left).
    apply elem_of_positions in Hi. by eapply list_elem_of_lookup_2.
Qed.

Lemma length_positions_from k n l :
  length (positions_from k n l) = length (filter (λ x, x = n) l).
Proof.
  revert k. induction l as [|x l IH]; intros k; [done|].
  rewrite positions_from_cons, filter_cons.
  case_decide; simpl; by rewrite IH.
Qed.

(** ** The scan and [_match_ports] *)

Section MatchPorts.

Context {Freq SMat : Type}.
Abbreviation entry := (ComponentSimulation Freq SMat).
Implicit Types (cl : list entry) (e : entry) (n : Z).

Lemma scan_from_cons k n e cl :
  scan_from k n (e :: cl)
  = ((λ i, (k, i)) <$> positions n (cs_nets e)) ++ scan_from (S k) n cl.
Proof. done. Qed.

Lemma filtered_comps_from_cons k n e cl :
  filtered_comps_from k n (e :: cl)
  = if decide (n ∈ cs_nets e) then (k, e) :: filtered_comps_from (S k) n cl
    else filtered_comps_from (S k) n cl.
Proof.
  unfold filtered_comps_from. simpl. rewrite filter_cons. simpl.
  by case_decide.
Qed.

Lemma elem_of_scan_from k n cl a i :
  (a, i) ∈ scan_from k n cl
  ↔ (k ≤ a) ∧ ∃ e, cl !! (a - k) = Some e ∧ cs_nets e !! i = Some n.
Proof.
  unfold scan_from. rewrite list_elem_of_bind. split.
  - intros [[b e] [Hin Hb]]. simpl in *.
    apply list_elem_of_fmap in Hin as [j [[= -> ->] Hj]].
    apply elem_of_positions in Hj.
    apply elem_of_enumerate_from in Hb as [Hk Hb]. eauto.
  - intros [Hk [e [Hb Hi]]]. exists (a, e). split.
    + simpl. apply list_elem_of_fmap. exists i. split; [done|].
      by apply elem_of_positions.
    + by apply elem_of_enumerate_from.
Qed.

Lemma elem_of_scan n cl a i :
  (a, i) ∈ scan n cl ↔ ∃ e, cl !! a = Some e ∧ cs_nets e !! i = Some n.
Proof.
  unfold scan. rewrite elem_of_scan_from, Nat.sub_0_r.
  split; [tauto | split; [lia | done]].
Qed.

(** [net_idx] lists the port indices of the scan. *)
Lemma net_idx_scan k n cl :
  filtered_comps_from k n cl ≫= (λ p, positions n (cs_nets p.2))
  = (scan_from k n cl).*2.
Proof.
  revert k. induction cl as [|e cl IH]; intros k; [done|].
  rewrite filtered_comps_from_cons, scan_from_cons, fmap_app, <- IH.
  rewrite <- list_fmap_compose.
  case_decide as Hin.
  - rewrite bind_cons. simpl. f_equal.
    unfold compose. simpl. by rewrite list_fmap_id.
  - apply positions_nil_iff in Hin. by rewrite Hin.
Qed.

Lemma filtered_comps_nil k n cl :
  scan_from k n cl = [] → filtered_comps_from k n cl = [].
Proof.
  revert k. induction cl as [|e cl IH]; intros k; [done|].
  rewrite filtered_comps_from_cons, scan_from_cons.
  intros [Hp Hs]%app_eq_nil. apply fmap_nil_inv in Hp.
  apply positions_nil_iff in Hp. case_decide; [done|]. by apply IH.
Qed.

Lemma filtered_comps_nonempty k n cl :
  scan_from k n cl ≠ [] → filtered_comps_from k n cl ≠ [].
Proof.
  revert k. induction cl as [|e cl IH]; intros k; [done|].
  rewrite filtered_comps_from_cons, scan_from_cons.
  case_decide as Hin; [done|].
  apply positions_nil_iff in Hin. rewrite Hin. simpl. apply IH.
Qed.

Lemma comp_idx_single k n cl b j :
  scan_from k n cl = [(b, j)] → (filtered_comps_from k n cl).*1 = [b].
Proof.
  revert k. induction cl as [|e cl IH]; intros k; [done|].
  rewrite filtered_comps_from_cons, scan_from_cons.
  destruct (positions n (cs_nets e)) as [|p [|q ps]] eqn:Ep; simpl.
  - apply positions_nil_iff in Ep. case_decide; [done|]. apply IH.
  - intros [= <- <- Hs]. apply filtered_comps_nil in Hs.
    case_decide as Hin; [by rewrite Hs|].
    apply positions_nil_iff in Hin. congruence.
  - intros [= _ _ ?].
Qed.

Lemma comp_idx_pair k n cl a i b j :
  scan_from k n cl = [(a, i); (b, j)] →
  (filtered_comps_from k n cl).*1 = if decide (a = b) then [a] else [a; b].
Proof.
  revert k. induction cl as [|e cl IH]; intros k; [done|].
  rewrite filtered_comps_from_cons, scan_from_cons.
  destruct (decide (n ∈ cs_nets e)) as [Hin|Hin].
  - destruct (positions n (cs_nets e)) as [|p [|q [|r ps]]] eqn:Ep; simpl.
    + apply positions_nil_iff in Ep. done.
    + intros [= <- <- Hs].
      assert ((b, j) ∈ scan_from (S k) n cl) as Hb by (rewrite Hs; left).
      apply elem_of_scan_from in Hb as [Hb _].
      apply comp_idx_single in Hs.
      rewrite decide_False by lia. f_equal. exact Hs.
    + intros [= <- <- <- <- Hs]. apply filtered_comps_nil in Hs.
      rewrite decide_True by done. by rewrite Hs.
    + intros [= _ _ _ _ ?].
  - apply positions_nil_iff in Hin. rewrite Hin. apply IH.
Qed.

(** [_match_ports] succeeds exactly when the scan finds two pairs or
    more. *)
Lemma match_ports_Ok_iff n cl :
  (∃ r, _match_ports n cl = Ok r) ↔ (2 ≤ length (scan n cl)).
Proof.
  unfold _match_ports, scan. rewrite net_idx_scan.
  pose proof (filtered_comps_nil 0 n cl) as Hnil.
  pose proof (filtered_comps_nonempty 0 n cl) as Hne.
  destruct (scan_from 0 n cl) as [|[a i] [|[b j] sc]] eqn:Es; simpl.
  - rewrite Hnil by done. simpl. split; [intros [r [=]] | lia].
  - destruct (filtered_comps_from 0 n cl) as [|[c e] [|[c' e'] fs]];
      simpl; (split; [intros [r [=]] | lia]).
  - destruct (filtered_comps_from 0 n cl) as [|[c e] [|[c' e'] fs]];
      simpl; [by destruct Hne | |]; (split; [lia | eauto]).
Qed.

Lemma match_ports_Raise n cl :
  (length (scan n cl) < 2) → _match_ports n cl = Raise IndexError.
Proof.
  intros Hlt. destruct (_match_ports n cl) as [r|ex] eqn:E.
  - assert (2 ≤ length (scan n cl)) by (apply match_ports_Ok_iff; eauto).
    lia.
  - unfold _match_ports in E.
    repeat (apply bind_getitem_Raise in E as [->|[? E]]; [done|]).
    done.
Qed.

(** With exactly two pairs, [_match_ports] returns them. *)
Lemma match_ports_two n cl a i b j :
  scan n cl = [(a, i); (b, j)] → _match_ports n cl = Ok (a, i, b, j).
Proof.
  intros Hs. unfold _match_ports. rewrite net_idx_scan.
  unfold scan in Hs. rewrite (comp_idx_pair _ _ _ _ _ _ _ Hs), Hs.
  destruct (decide (a = b)) as [->|Hne]; by simpl.
Qed.

(** Whatever [_match_ports] returns, its port indices are the first two
    port indices of the scan. *)
Lemma match_ports_net_idx n cl c0 i0 c1 i1 :
  _match_ports n cl = Ok (c0, i0, c1, i1) →
  (scan n cl).*2 !! 0 = Some i0 ∧ (scan n cl).*2 !! 1 = Some i1.
Proof.
  unfold _match_ports. rewrite net_idx_scan. fold (scan n cl).
  intros H.
  apply bind_Ok in H as (x0 & _ & H). apply bind_Ok in H as (y0 & H0 & H).
  apply bind_Ok in H as (x1 & _ & H). apply bind_Ok in H as (y1 & H1 & H).
  simplify_eq. split; by apply getitem_Ok.
Qed.

End MatchPorts.

(** ** One fold *)

Section Fold.

Context {Freq SMat : Type}.
Variable innerconnect_s : SMat → nat → nat → SMat.
Variable connect_s : SMat → nat → SMat → nat → SMat.
Abbreviation entry := (ComponentSimulation Freq SMat).
Abbreviation step := (connect_step innerconnect_s connect_s).
Implicit Types (cl : list entry) (e : entry) (n m : Z).

Lemma length_scan_from k m cl :
  length (scan_from k m cl) = sum_list (net_occ m <$> cl).
Proof.
  revert k. induction cl as [|e cl IH]; intros k; [done|].
  rewrite scan_from_cons, length_app, length_fmap, IH.
  unfold positions. by rewrite length_positions_from.
Qed.

Lemma length_scan m cl : length (scan m cl) = sum_list (net_occ m <$> cl).
Proof. apply length_scan_from. Qed.

Lemma NoDup_positions_from k n l : NoDup (positions_from k n l).
Proof.
  revert k. induction l as [|x l IH]; intros k.
  - apply NoDup_nil_2.
  - rewrite positions_from_cons. case_decide; [|done].
    apply NoDup_cons_2; [|done].
    intros [Hk _]%elem_of_positions_from. lia.
Qed.

Lemma NoDup_scan_from k n cl : NoDup (scan_from k n cl).
Proof.
  revert k. induction cl as [|e cl IH]; intros k.
  - apply NoDup_nil_2.
  - rewrite scan_from_cons. apply NoDup_app. split; [|split; [|done]].
    + apply NoDup_fmap_2; [intros i j [=]; done|]. apply NoDup_positions_from.
    + intros [a i] [j [[= -> ->] _]]%list_elem_of_fmap.
      intros [Hk _]%elem_of_scan_from. lia.
Qed.

(** What a scan of exactly two pairs says about the working list. *)
Lemma scan_two_inv n cl a i b j :
  scan n cl = [(a, i); (b, j)] →
  ∃ A B, cl !! a = Some A ∧ cl !! b = Some B
    ∧ cs_nets A !! i = Some n ∧ cs_nets B !! j = Some n
    ∧ (a = b → i ≠ j).
Proof.
  intros Hs.
  assert ((a, i) ∈ scan n cl) as Ha by (rewrite Hs; left).
  assert ((b, j) ∈ scan n cl) as Hb by (rewrite Hs; right; left).
  apply elem_of_scan in Ha as [A [HA Hi]].
  apply elem_of_scan in Hb as [B [HB Hj]].
  exists A, B. repeat split; try done.
  intros -> ->. pose proof (NoDup_scan_from 0 n cl) as Hnd.
  fold (scan n cl) in Hnd. rewrite Hs in Hnd.
  apply NoDup_cons_1_1 in Hnd. apply Hnd. left.
Qed.

(** Self-loop fold: both pairs of the scan lie in entry [a]. *)
Lemma connect_step_self n cl a i j A :
  scan n cl = [(a, i); (a, j)] → cl !! a = Some A →
  step n cl = Ok (<[a := self_loop_entry innerconnect_s A i j]> cl).
Proof.
  intros Hs HA. unfold connect_step.
  rewrite (match_ports_two _ _ _ _ _ _ Hs). simpl.
  rewrite decide_True by done.
  destruct (scan_two_inv _ _ _ _ _ _ Hs) as (A' & B & HA' & HB & Hi & Hj & Hne).
  simplify_eq. rewrite (proj2 (getitem_Ok _ _ _) HA). simpl.
  unfold self_loop_nets. rewrite del_pair_spec; [done|auto|..];
    by eapply lookup_lt_Some.
Qed.

(** Cross-merge fold: the pairs of the scan lie in two entries. *)
Lemma connect_step_cross n cl a i b j A B first :
  scan n cl = [(a, i); (b, j)] → a ≠ b →
  cl !! a = Some A → cl !! b = Some B → cl !! 0 = Some first →
  step n cl
  = Ok (remove_positions [a; b] cl ++ [merged_entry connect_s first A i B j]).
Proof.
  intros Hs Hne HA HB H0. unfold connect_step.
  rewrite (match_ports_two _ _ _ _ _ _ Hs). simpl.
  rewrite decide_False by done.
  destruct (scan_two_inv _ _ _ _ _ _ Hs)
    as (A' & B' & HA' & HB' & Hi & Hj & _).
  simplify_eq.
  rewrite (proj2 (getitem_Ok _ _ _) H0). simpl.
  rewrite (proj2 (getitem_Ok _ _ _) HA). simpl.
  rewrite (proj2 (getitem_Ok _ _ _) HB). simpl.
  rewrite !delitem_lt by (by eapply lookup_lt_Some). simpl.
  unfold retire_pair. rewrite del_pair_spec; [done|done|..];
    by eapply lookup_lt_Some.
Qed.

(** A fold removes the two matched ports and nothing else: for every
    property [P] of net ids, the number of ports satisfying [P] drops by
    two if the folded id satisfies it, and stays otherwise. *)
Lemma filter_remove_two (P : Z → Prop) `{!∀ x, Decision (P x)}
    (l : list Z) i j n :
  i ≠ j → l !! i = Some n → l !! j = Some n →
  length (filter P l)
  = (if decide (P n) then 2 else 0)
    + length (filter P (remove_positions [i; j] l)).
Proof.
  intros Hne Hi Hj. rewrite remove_positions_two by done.
  rewrite (length_filter_delete P l i n) by done.
  rewrite (length_filter_delete P (delete i l) _ n)
    by (by rewrite lookup_remove_second).
  case_decide; lia.
Qed.

Lemma connect_step_measure (P : Z → Prop) `{!∀ x, Decision (P x)}
    n cl cl' a i b j :
  scan n cl = [(a, i); (b, j)] → step n cl = Ok cl' →
  sum_list ((λ e, length (filter P (cs_nets e))) <$> cl)
  = (if decide (P n) then 2 else 0)
    + sum_list ((λ e, length (filter P (cs_nets e))) <$> cl').
Proof.
  intros Hs Hstep.
  destruct (scan_two_inv _ _ _ _ _ _ Hs) as (A & B & HA & HB & Hi & Hj & Hij).
  destruct (decide (a = b)) as [<-|Hne].
  - simplify_eq. rewrite (connect_step_self _ _ _ _ _ _ Hs HA) in Hstep.
    injection Hstep as <-.
    pose proof (sum_list_insert (λ e, length (filter P (cs_nets e))) cl a A
      (self_loop_entry innerconnect_s A i j) HA) as Hsum.
    simpl in Hsum.
    rewrite (filter_remove_two P (cs_nets A) i j n) in Hsum by auto. lia.
  - assert (∃ first, cl !! 0 = Some first) as [first H0].
    { apply lookup_lt_is_Some_2. apply lookup_lt_Some in HA. lia. }
    rewrite (connect_step_cross _ _ _ _ _ _ _ _ _ Hs Hne HA HB H0) in Hstep.
    injection Hstep as <-.
    rewrite fmap_app, sum_list_with_app. simpl.
    rewrite (sum_list_remove_two _ cl a b A B) by done.
    rewrite filter_app, length_app.
    rewrite (length_filter_delete P (cs_nets A) i n) by done.
    rewrite (length_filter_delete P (cs_nets B) j n) by done.
    case_decide; lia.
Qed.

Lemma connect_step_two n cl :
  length (scan n cl) = 2 → ∃ cl', step n cl = Ok cl'.
Proof.
  intros Hlen.
  destruct (scan n cl) as [|[a i] [|[b j] [|? ?]]] eqn:Hs; try done.
  destruct (scan_two_inv _ _ _ _ _ _ Hs) as (A & B & HA & HB & Hi & Hj & Hij).
  destruct (decide (a = b)) as [<-|Hne].
  - rewrite (connect_step_self _ _ _ _ _ _ Hs HA). eauto.
  - assert (∃ first, cl !! 0 = Some first) as [first H0].
    { apply lookup_lt_is_Some_2. apply lookup_lt_Some in HA. lia. }
    rewrite (connect_step_cross _ _ _ _ _ _ _ _ _ Hs Hne HA HB H0). eauto.
Qed.

Lemma filter_all (l : list Z) : filter (λ _, True) l = l.
Proof.
  induction l as [|x l IH]; [done|]. rewrite filter_cons. simpl. by f_equal.
Qed.

Lemma port_count_filter cl :
  port_count cl
  = sum_list ((λ e, length (filter (λ _, True) (cs_nets e))) <$> cl).
Proof.
  unfold port_count. f_equal. apply list_fmap_ext. intros _ e _.
  by rewrite filter_all.
Qed.

(** A fold on an id that occurs exactly twice: the id disappears, every
    other id keeps its occurrences, two ports go, and the working list
    does not become empty. *)
Lemma connect_step_counts n cl cl' :
  length (scan n cl) = 2 → step n cl = Ok cl' →
  (∀ m, length (scan m cl)
        = (if decide (m = n) then 2 else 0) + length (scan m cl'))
  ∧ port_count cl = 2 + port_count cl'
  ∧ cl' ≠ [].
Proof.
  intros Hlen Hstep.
  destruct (scan n cl) as [|[a i] [|[b j] [|? ?]]] eqn:Hs; try done.
  split; [|split].
  - intros m. rewrite !length_scan. unfold net_occ.
    rewrite (connect_step_measure (λ x, x = m) _ _ _ _ _ _ _ Hs Hstep).
    destruct (decide (n = m)), (decide (m = n)); congruence.
  - rewrite !port_count_filter.
    rewrite (connect_step_measure (λ _, True) _ _ _ _ _ _ _ Hs Hstep).
    by rewrite decide_True.
  - destruct (scan_two_inv _ _ _ _ _ _ Hs) as (A & B & HA & HB & _).
    destruct (decide (a = b)) as [<-|Hne].
    + rewrite (connect_step_self _ _ _ _ _ _ Hs HA) in Hstep.
      injection Hstep as <-. intros Hnil.
      apply (f_equal length) in Hnil. rewrite length_insert in Hnil.
      apply lookup_lt_Some in HA. simpl in Hnil. lia.
    + assert (∃ first, cl !! 0 = Some first) as [first H0].
      { apply lookup_lt_is_Some_2. apply lookup_lt_Some in HA. lia. }
      rewrite (connect_step_cross _ _ _ _ _ _ _ _ _ Hs Hne HA HB H0)
        in Hstep.
      injection Hstep as <-. intros [_ [=]]%app_eq_nil.
Qed.

End Fold.

(** ** The loop *)

Section Loop.

Context {Freq SMat : Type}.
Variable innerconnect_s : SMat → nat → nat → SMat.
Variable connect_s : SMat → nat → SMat → nat → SMat.
Abbreviation entry := (ComponentSimulation Freq SMat).
Abbreviation step := (connect_step innerconnect_s connect_s).
Abbreviation loop := (cascade innerconnect_s connect_s).
Implicit Types (cl : list entry) (e : entry) (n m : Z) (ids : list Z).

Lemma cascade_cons_Ok n ids cl cl' :
  step n cl = Ok cl' →
  loop (n :: ids) cl = (n :: (loop ids cl').1, (loop ids cl').2).
Proof. intros H. simpl. rewrite H. by destruct (loop ids cl'). Qed.

Lemma cascade_cons_Raise n ids cl ex :
  step n cl = Raise ex → loop (n :: ids) cl = ([n], Raise ex).
Proof. intros H. simpl. by rewrite H. Qed.

Lemma cascade_app ids1 ids2 cl cl1 :
  (loop ids1 cl).2 = Ok cl1 →
  loop (ids1 ++ ids2) cl = (ids1 ++ (loop ids2 cl1).1, (loop ids2 cl1).2).
Proof.
  revert cl. induction ids1 as [|n ids1 IH]; intros cl H.
  - simpl in *. simplify_eq. by destruct (loop ids2 cl1).
  - destruct (step n cl) as [cl'|ex] eqn:E.
    + rewrite (cascade_cons_Ok _ _ _ _ E) in H. simpl in H.
      rewrite <- app_comm_cons, (cascade_cons_Ok _ _ _ _ E), (IH _ H). done.
    + rewrite (cascade_cons_Raise _ _ _ _ E) in H. done.
Qed.

(** The log is a prefix of the id list, and the whole list when the loop
    completes. *)
Lemma cascade_log_prefix ids cl : (loop ids cl).1 `prefix_of` ids.
Proof.
  revert cl. induction ids as [|n ids IH]; intros cl; [done|].
  destruct (step n cl) as [cl'|ex] eqn:E.
  - rewrite (cascade_cons_Ok _ _ _ _ E). simpl. by apply prefix_cons.
  - rewrite (cascade_cons_Raise _ _ _ _ E). simpl.
    apply prefix_cons, prefix_nil.
Qed.

Lemma cascade_log_complete ids cl cl' :
  (loop ids cl).2 = Ok cl' → (loop ids cl).1 = ids.
Proof.
  revert cl. induction ids as [|n ids IH]; intros cl H; [done|].
  destruct (step n cl) as [cl1|ex] eqn:E.
  - rewrite (cascade_cons_Ok _ _ _ _ E) in *. simpl in *. f_equal. eauto.
  - rewrite (cascade_cons_Raise _ _ _ _ E) in H. done.
Qed.

(** An aborting step aborts the whole loop, whatever ids follow. *)
Lemma cascade_abort ids1 n ids2 cl cl1 ex :
  (loop ids1 cl).2 = Ok cl1 → step n cl1 = Raise ex →
  (loop (ids1 ++ n :: ids2) cl).2 = Raise ex.
Proof.
  intros H1 Hn. rewrite (cascade_app _ _ _ _ H1). simpl. by rewrite Hn.
Qed.

Lemma connect_step_Raise_lt n cl :
  length (scan n cl) < 2 → step n cl = Raise IndexError.
Proof.
  intros H. unfold connect_step. by rewrite match_ports_Raise.
Qed.

(** When every id of the list occurs exactly twice, the loop completes:
    it consumes exactly those ids, two ports each. *)
Lemma cascade_completes ids cl :
  NoDup ids → (∀ n, n ∈ ids → length (scan n cl) = 2) →
  ∃ cl', (loop ids cl).2 = Ok cl'
    ∧ (∀ m, length (scan m cl')
            = if decide (m ∈ ids) then 0 else length (scan m cl))
    ∧ port_count cl = 2 * length ids + port_count cl'
    ∧ (cl ≠ [] → cl' ≠ []).
Proof.
  revert cl. induction ids as [|n ids IH]; intros cl Hnd Hocc.
  - exists cl. repeat split; try done; intros m;
      by rewrite decide_False by apply not_elem_of_nil.
  - apply NoDup_cons in Hnd as [Hn Hnd].
    destruct (connect_step_two innerconnect_s connect_s n cl) as [cl1 Hstep];
      [apply Hocc; left|].
    destruct (connect_step_counts innerconnect_s connect_s n cl cl1) as (Hcnt & Hport & Hne);
      [apply Hocc; left|done|].
    destruct (IH cl1 Hnd) as (cl' & Hloop & Hcnt' & Hport' & Hne').
    { intros m Hm. specialize (Hcnt m). rewrite decide_False in Hcnt by
        (intros ->; done). simpl in Hcnt. rewrite <- Hcnt. apply Hocc.
      by right. }
    exists cl'. rewrite (cascade_cons_Ok _ _ _ _ Hstep). simpl.
    repeat split; [done| |lia|auto].
    intros m. specialize (Hcnt m). specialize (Hcnt' m).
    destruct (decide (m = n)) as [->|Hmn].
    + rewrite decide_True by left. rewrite decide_False in Hcnt' by done.
      rewrite Hocc in Hcnt by left. lia.
    + destruct (decide (m ∈ ids)) as [Hin|Hin].
      * by rewrite decide_True by (by right).
      * rewrite decide_False by (intros [->|?]%elem_of_cons; done). lia.
Qed.

End Loop.

(** ** Frequency vectors are carried, never compared *)

Section Frequencies.

Context {Freq Freq' SMat : Type}.
Variable innerconnect_s : SMat → nat → nat → SMat.
Variable connect_s : SMat → nat → SMat → nat → SMat.
Variable g : Freq → Freq'.
Implicit Types (cl : list (ComponentSimulation Freq SMat)) (n : Z).

Lemma filtered_comps_refreq k n cl :
  filtered_comps_from k n (refreq g <$> cl)
  = (λ p, (p.1, refreq g p.2)) <$> filtered_comps_from k n cl.
Proof.
  revert k. induction cl as [|e cl IH]; intros k; [done|].
  rewrite fmap_cons, !filtered_comps_from_cons. simpl.
  case_decide; [rewrite fmap_cons; f_equal|]; apply IH.
Qed.

Lemma net_idx_refreq n (l : list (nat * ComponentSimulation Freq SMat)) :
  ((λ p, (p.1, refreq g p.2)) <$> l) ≫= (λ p, positions n (cs_nets p.2))
  = l ≫= (λ p, positions n (cs_nets p.2)).
Proof.
  induction l as [|p l IH]; [done|].
  rewrite fmap_cons, !bind_cons. by f_equal.
Qed.

Lemma match_ports_refreq n cl :
  _match_ports n (refreq g <$> cl) = _match_ports n cl.
Proof.
  unfold _match_ports. rewrite filtered_comps_refreq, net_idx_refreq.
  by rewrite <- !list_fmap_compose.
Qed.

Lemma getitem_fmap {A B} (h : A → B) (l : list A) i :
  getitem (h <$> l) i = result_map h (getitem l i).
Proof. unfold getitem. rewrite list_lookup_fmap. by destruct (l !! i). Qed.

Lemma delete_fmap {A B} (h : A → B) (l : list A) i :
  delete i (h <$> l) = h <$> delete i l.
Proof.
  revert i. induction l as [|x l IH]; intros [|i]; try done.
  simpl. f_equal. apply IH.
Qed.

Lemma delitem_fmap {A B} (h : A → B) (l : list A) i :
  delitem (h <$> l) i = result_map (fmap h) (delitem l i).
Proof.
  unfold delitem. rewrite length_fmap.
  case_decide; [|done]. simpl. by rewrite delete_fmap.
Qed.

Lemma del_pair_fmap {A B} (h : A → B) (l : list A) i j :
  del_pair i j (h <$> l) = result_map (fmap h) (del_pair i j l).
Proof.
  unfold del_pair. rewrite delitem_fmap.
  destruct (delitem l i) as [l'|ex]; [|done]. simpl.
  case_decide; apply delitem_fmap.
Qed.

Lemma connect_step_refreq n cl :
  connect_step innerconnect_s connect_s n (refreq g <$> cl)
  = result_map (fmap (refreq g)) (connect_step innerconnect_s connect_s n cl).
Proof.
  unfold connect_step. rewrite match_ports_refreq.
  destruct (_match_ports n cl) as [[[[ca ia] cb] ib]|ex]; [|done]. simpl.
  case_decide.
  - rewrite getitem_fmap. destruct (getitem cl ca) as [A|ex]; [|done]. simpl.
    destruct (self_loop_nets ia ib (cs_nets A)) as [nets'|ex]; [|done]. simpl.
    by rewrite list_fmap_insert.
  - rewrite !getitem_fmap.
    destruct (getitem cl 0) as [first|ex]; [|done]. simpl.
    destruct (getitem cl ca) as [A|ex]; [|done]. simpl.
    destruct (getitem cl cb) as [B|ex]; [|done]. simpl.
    destruct (delitem (cs_nets A) ia) as [netsA|ex]; [|done]. simpl.
    destruct (delitem (cs_nets B) ib) as [netsB|ex]; [|done]. simpl.
    unfold retire_pair. rewrite del_pair_fmap.
    destruct (del_pair ca cb cl) as [cl'|ex]; [|done]. simpl.
    by rewrite fmap_app.
Qed.

Lemma cascade_refreq ids cl :
  cascade innerconnect_s connect_s ids (refreq g <$> cl)
  = ((cascade innerconnect_s connect_s ids cl).1,
     result_map (fmap (refreq g))
       (cascade innerconnect_s connect_s ids cl).2).
Proof.
  revert cl. induction ids as [|n ids IH]; intros cl; [done|].
  simpl. rewrite connect_step_refreq.
  destruct (connect_step innerconnect_s connect_s n cl) as [cl'|ex];
    [|done]. simpl.
  rewrite IH. by destruct (cascade innerconnect_s connect_s ids cl').
Qed.

End Frequencies.

(** ** Net counts *)

Lemma foldl_max_spec (l : list Z) (x : Z) :
  let m := foldl Z.max x l in
  (x ≤ m)%Z ∧ (∀ y, y ∈ l → (y ≤ m)%Z) ∧ (m = x ∨ m ∈ l).
Proof.
  revert x. induction l as [|z l IH]; intros x; simpl.
  - split; [lia|]. split; [|by left]. intros y Hy. by apply elem_of_nil in Hy.
  - destruct (IH (Z.max x z)) as (H1 & H2 & H3).
    split; [lia|]. split.
    + intros y [->|Hy]%elem_of_cons; [lia | by apply H2].
    + destruct H3 as [H3|H3]; [|right; by right].
      destruct (Z.max_spec x z) as [[_ Hm]|[_ Hm]].
      * right. apply elem_of_cons. left. congruence.
      * left. congruence.
Qed.

Lemma parse_count_spec (items : list line_item) (c : Z) :
  let c' := foldl (λ c item,
                     match item with
                     | NetItem net => if decide (net > c)%Z then net else c
                     | OtherItem => c
                     end) c items in
  (c ≤ c')%Z ∧ (∀ x, NetItem x ∈ items → (x ≤ c')%Z)
  ∧ (c' = c ∨ NetItem c' ∈ items).
Proof.
  revert c. induction items as [|it items IH]; intros c; simpl.
  - split; [lia|]. split; [|by left]. intros y Hy. by apply elem_of_nil in Hy.
  - set (c1 := match it with
               | NetItem net => if decide (net > c)%Z then net else c
               | OtherItem => c
               end).
    destruct (IH c1) as (H1 & H2 & H3).
    assert ((c ≤ c1)%Z ∧ (∀ x, it = NetItem x → (x ≤ c1)%Z)
            ∧ (c1 = c ∨ it = NetItem c1)) as (Hc1 & Hc2 & Hc3).
    { subst c1. destruct it as [net|]; [case_decide|];
        (split; [lia|]; split; [intros x [= ->]; lia|]; auto). }
    split; [lia|]. split.
    + intros x [Hx|Hx]%elem_of_cons;
        [symmetry in Hx; apply Hc2 in Hx; lia | by apply H2].
    + destruct H3 as [H3|H3]; [|right; by right].
      destruct Hc3 as [Hc3|Hc3]; [left; congruence|].
      right. apply elem_of_cons. left. congruence.
Qed.

(** * The cascade: claims *)

Section CascadeClaims.

Context {Freq SMat Model : Type}.
Variable get_s_parameters : ComponentInstance Model → Freq * SMat.
Variable innerconnect_s : SMat → nat → nat → SMat.
Variable connect_s : SMat → nat → SMat → nat → SMat.
Abbreviation entry := (ComponentSimulation Freq SMat).
Abbreviation step := (connect_step innerconnect_s connect_s).
Abbreviation loop := (cascade innerconnect_s connect_s).
Abbreviation run := (connect_circuit get_s_parameters innerconnect_s connect_s).
Abbreviation log := (looked_up get_s_parameters innerconnect_s connect_s).
Implicit Types (cl : list entry) (e : entry) (n m : Z) (ids : list Z).

(** C2 (as the code has it): the scan of a net id decides the step by its
    number of pairs. With fewer than two pairs (none, or one)
    [_match_ports] raises [IndexError] and the whole loop aborts with it,
    whatever ids were processed before and remain after: no result is
    returned. With exactly two pairs [_match_ports] returns them and the
    step folds. With more than two pairs nothing is rejected:
    [_match_ports] returns the first two port indices of the scan. *)
Theorem scan_count_decides_step n cl :
  (length (scan n cl) < 2 →
     _match_ports n cl = Raise IndexError
     ∧ ∀ ids1 ids2 cl0, (loop ids1 cl0).2 = Ok cl →
         (loop (ids1 ++ n :: ids2) cl0).2 = Raise IndexError)
  ∧ (length (scan n cl) = 2 →
     ∃ a i b j cl', scan n cl = [(a, i); (b, j)]
       ∧ _match_ports n cl = Ok (a, i, b, j) ∧ step n cl = Ok cl')
  ∧ (2 < length (scan n cl) →
     ∃ c0 i0 c1 i1, _match_ports n cl = Ok (c0, i0, c1, i1)
       ∧ (scan n cl).*2 !! 0 = Some i0 ∧ (scan n cl).*2 !! 1 = Some i1).
Proof.
  split; [|split].
  - intros Hlt. split; [by apply match_ports_Raise|].
    intros ids1 ids2 cl0 H0. eapply cascade_abort; [done|].
    by apply connect_step_Raise_lt.
  - intros Hlen.
    destruct (connect_step_two innerconnect_s connect_s n cl Hlen)
      as [cl' Hstep].
    destruct (scan n cl) as [|[a i] [|[b j] [|? ?]]] eqn:Hs; try done.
    exists a, i, b, j, cl'. split; [done|]. split; [|done].
    by apply match_ports_two.
  - intros Hgt.
    destruct (proj2 (match_ports_Ok_iff n cl)) as [[[[c0 i0] c1] i1] Hm];
      [lia|].
    exists c0, i0, c1, i1. split; [done|]. by eapply match_ports_net_idx.
Qed.

(** The ids handed to [_match_ports] are an
    initial stretch of 0, 1, ..., [net_count] (each at most once, in
    increasing order, [net_count] included), the whole of it when the run
    returns a result, and none at all when [net_count] is 0. *)
Theorem looked_up_ids (nl : ObjectModelNetlist Model) :
  log nl `prefix_of` seqZ 0 (net_count nl + 1)
  ∧ (∀ n, n ∈ log nl → (0 ≤ n ≤ net_count nl)%Z)
  ∧ (∀ r, run nl = Ok (Some r) → log nl = seqZ 0 (net_count nl + 1))
  ∧ (net_count nl = 0%Z → log nl = []).
Proof.
  assert (log nl `prefix_of` seqZ 0 (net_count nl + 1)) as Hpre.
  { unfold looked_up. case_decide; [apply prefix_nil|].
    apply cascade_log_prefix. }
  split; [done|]. split; [|split].
  - intros n Hn. destruct Hpre as [k Hk].
    assert (n ∈ seqZ 0 (net_count nl + 1)) as Hin
      by (rewrite Hk; apply elem_of_app; by left).
    apply elem_of_seqZ in Hin. lia.
  - intros r. unfold connect_circuit, looked_up. case_decide as Hz; [done|].
    intros H. apply bind_Ok in H as (cl' & Hloop & _).
    by eapply cascade_log_complete.
  - intros H0. unfold looked_up. by rewrite decide_True.
Qed.

(** C4 (as the code has it): a cross-merge fold on a net id that occurs
    exactly twice, in two distinct entries [A] and [B]. The new entry's
    net list is [A]'s without the matched port followed by [B]'s without
    the matched port; both entries leave the working list and the new one
    is appended; the port count drops by 2. The new entry's frequency
    vector is the one of the first working entry, which is the folded
    entries' vector when the working entries all share one. *)
Theorem cross_merge_fold n cl a i b j A B first :
  scan n cl = [(a, i); (b, j)] → a ≠ b →
  cl !! a = Some A → cl !! b = Some B → cl !! 0 = Some first →
  ∃ new,
    step n cl = Ok (remove_positions [a; b] cl ++ [new])
    ∧ cs_nets new = delete i (cs_nets A) ++ delete j (cs_nets B)
    ∧ port_count (remove_positions [a; b] cl ++ [new]) + 2 = port_count cl
    ∧ cs_f new = cs_f first
    ∧ ((∀ e, e ∈ cl → cs_f e = cs_f first) →
       cs_f new = cs_f A ∧ cs_f new = cs_f B).
Proof.
  intros Hs Hne HA HB H0.
  pose proof (connect_step_cross innerconnect_s connect_s _ _ _ _ _ _ _ _ _
    Hs Hne HA HB H0) as Hstep.
  exists (merged_entry connect_s first A i B j).
  split; [done|]. split; [done|]. split; [|split; [done|]].
  - destruct (connect_step_counts innerconnect_s connect_s n cl _
      (f_equal length Hs) Hstep) as (_ & Hport & _). lia.
  - intros Hall. simpl. split; symmetry; apply Hall;
      by eapply list_elem_of_lookup_2.
Qed.

(** C5: the two deletions of a self-loop fold leave the net list with
    exactly the elements at positions [ia] and [ib] removed and the others
    in order, whether [ia < ib] or [ib < ia]; two ports go. *)
Theorem self_loop_removes_both_ports (ia ib : nat) (nets : list Z) :
  ia ≠ ib → ia < length nets → ib < length nets →
  self_loop_nets ia ib nets = Ok (remove_positions [ia; ib] nets)
  ∧ length (remove_positions [ia; ib] nets) + 2 = length nets.
Proof.
  intros Hne Hia Hib. split.
  - by apply del_pair_spec.
  - by apply length_remove_positions_two.
Qed.

(** C6 (as the code has it): [Netlist.net_count] raises [ValueError]
    exactly when no component has any net (so for an empty netlist), and
    otherwise is the largest net id of the netlist plus 1, which is the
    largest internal id plus 1 as soon as one is present. The counter of
    [ObjectModelNetlist] is different: after a line it is the larger of
    its former value and the largest id read on the line, without the
    plus 1; from a fresh object it is 0 or the largest id read. *)
Theorem net_count_values :
  (∀ nl : Netlist Model,
     (components nl = [] → Netlist_net_count nl = Raise ValueError)
     ∧ (Netlist_net_count nl = Raise ValueError ↔ components nl ≫= nets = [])
     ∧ (∀ x, x ∈ components nl ≫= nets →
        ∃ m, Netlist_net_count nl = Ok (m + 1)%Z
          ∧ m ∈ components nl ≫= nets
          ∧ ∀ y, y ∈ components nl ≫= nets → (y ≤ m)%Z))
  ∧ (∀ (self : ObjectModelNetlist Model) line,
       let c' := net_count (_parse_line self line).1 in
       (net_count self ≤ c')%Z
       ∧ (∀ x, NetItem x ∈ drop 1 line → (x ≤ c')%Z)
       ∧ (c' = net_count self ∨ NetItem c' ∈ drop 1 line)).
Proof.
  split.
  - intros nl. unfold Netlist_net_count.
    split; [intros ->; done|]. split.
    + destruct (components nl ≫= nets) as [|x l]; simpl; split; done.
    + intros x Hx. destruct (components nl ≫= nets) as [|x0 l] eqn:E;
        [by apply elem_of_nil in Hx|]. simpl.
      destruct (foldl_max_spec l x0) as (H1 & H2 & H3).
      exists (foldl Z.max x0 l). split; [done|]. split.
      * destruct H3 as [->|H3]; [left | by right].
      * intros y [->|Hy]%elem_of_cons; [done | by apply H2].
  - intros self line. apply parse_count_spec.
Qed.

(** C7 (as the code has it): the cascade carries frequency vectors and
    never compares them. Replacing the vector every model returns by any
    function [g] of it (a constant [g] makes them all identical) gives the
    same outcome: the same exception, or the same result with [g] applied
    to its frequency vector. A mismatch therefore never makes a run
    fail. *)
Theorem frequencies_never_compared {Freq' : Type} (g : Freq → Freq')
    (nl : ObjectModelNetlist Model) :
  connect_circuit (λ c, (g (get_s_parameters c).1, (get_s_parameters c).2))
    innerconnect_s connect_s nl
  = result_map (option_map (λ r, (refreq g r.1, r.2))) (run nl).
Proof.
  unfold connect_circuit. case_decide; [done|].
  assert (working_entries
            (λ c, (g (get_s_parameters c).1, (get_s_parameters c).2)) nl
          = refreq g <$> working_entries get_s_parameters nl) as ->.
  { unfold working_entries. rewrite <- list_fmap_compose.
    apply list_fmap_ext. intros _ c _. unfold ComponentSimulation_init.
    simpl. by destruct (get_s_parameters c). }
  rewrite cascade_refreq. simpl.
  destruct (cascade innerconnect_s connect_s _ _).2 as [cl'|ex]; [|done].
  simpl. rewrite getitem_fmap. by destruct (getitem cl' 0).
Qed.

End CascadeClaims.

(** ** Concrete runs *)

(** C2, as stated, fails: a net id without any occurrence is not skipped.
    On [cl_absent] the step for id 0 raises, and so does the whole run on
    [nl_gap], whose only net is 1. A net id on three ports is not
    rejected either: on [cl_fanout] the step folds the first two. *)
Lemma absent_id_aborts_fanout_folds :
  scan 0 Sym.cl_absent = []
  ∧ Sym.connect_step 0 Sym.cl_absent = Raise IndexError
  ∧ Sym.connect_circuit Sym.nl_gap = Raise IndexError
  ∧ length (scan 0 Sym.cl_fanout) = 3
  ∧ Sym.connect_step 0 Sym.cl_fanout
    = Ok [Sym.sim [0; -3]%Z [193]%Z 3;
          {| cs_nets := [-1; -2]%Z; cs_f := [193]%Z;
             cs_s := Sym.Conn (Sym.Leaf 1) 0 (Sym.Leaf 2) 0 |}].
Proof. repeat split; reflexivity. Qed.

(** C4, as stated, fails on the frequency vector: on [cl_freq] the folded
    entries both carry [[200]], the new entry carries [[100]], the vector
    of the first working entry. *)
Lemma merged_frequency_from_first_entry :
  ∃ A B new,
    Sym.cl_freq !! 1 = Some A ∧ Sym.cl_freq !! 2 = Some B
    ∧ scan 0 Sym.cl_freq = [(1, 0); (2, 1)]
    ∧ Sym.connect_step 0 Sym.cl_freq = Ok [Sym.sim [-1]%Z [100]%Z 1; new]
    ∧ cs_f A = [200]%Z ∧ cs_f B = [200]%Z ∧ cs_f new = [100]%Z.
Proof. do 3 eexists. repeat split; reflexivity. Qed.

Lemma cross_merge_fold_witness :
  ∃ new,
    Sym.connect_step 0 Sym.cl_freq
    = Ok (remove_positions [1; 2] Sym.cl_freq ++ [new])
    ∧ cs_nets new = [-2; -3]%Z
    ∧ port_count (remove_positions [1; 2] Sym.cl_freq ++ [new]) + 2
      = port_count Sym.cl_freq
    ∧ cs_f new = [100]%Z.
Proof.
  destruct (cross_merge_fold Sym.Inner Sym.Conn 0 Sym.cl_freq 1 0 2 1
    (Sym.sim [0; -2]%Z [200]%Z 2) (Sym.sim [-3; 0]%Z [200]%Z 3)
    (Sym.sim [-1]%Z [100]%Z 1))
    as (new & H1 & H2 & H3 & H4 & _);
    [reflexivity | lia | reflexivity | reflexivity | reflexivity |].
  exists new. repeat split; assumption.
Defined.

Lemma self_loop_removes_both_ports_witness :
  self_loop_nets 2 0 [5; -1; 5; 7]%Z = Ok [-1; 7]%Z
  ∧ self_loop_nets 0 2 [5; -1; 5; 7]%Z = Ok [-1; 7]%Z.
Proof.
  split.
  - apply (self_loop_removes_both_ports 2 0 [5; -1; 5; 7]%Z);
      [lia | simpl; lia | simpl; lia].
  - apply (self_loop_removes_both_ports 0 2 [5; -1; 5; 7]%Z);
      [lia | simpl; lia | simpl; lia].
Defined.

(** C6, as stated, fails for the parser's counter: after a line with the
    nets 0 and 1, read by a fresh [ObjectModelNetlist], the counter is 1,
    the largest internal id itself and not that plus 1. *)
Lemma parser_counter_is_largest_id :
  let line := [OtherItem; NetItem 0; NetItem 1; OtherItem] in
  let count :=
    net_count
      (_parse_line (ObjectModelNetlist_init (Model := Sym.model_t)) line).1 in
  count = 1%Z
  ∧ NetItem 1 ∈ line
  ∧ (∀ x, NetItem x ∈ line → (x ≤ 1)%Z)
  ∧ count ≠ (1 + 1)%Z
  ∧ Netlist_net_count
      {| components := [Sym.mk [0; 1]%Z [193]%Z 1] |} = Ok 2%Z.
Proof.
  simpl. split; [done|]. split; [do 2 right; left|].
  split; [|split; done].
  intros x Hx. repeat (apply elem_of_cons in Hx as [Hx|Hx]);
    try discriminate Hx; try (injection Hx as ->; lia).
  by apply elem_of_nil in Hx.
Qed.

(** C7, as stated, fails: the two models of [nl_pair] return the
    frequency vectors [[193]] and [[194]], and the run returns a composite
    entry all the same, carrying [[193]]. *)
Lemma mismatched_grids_still_cascade :
  cs_f <$> working_entries Sym.get_s_parameters Sym.nl_pair
    = [[193]%Z; [194]%Z]
  ∧ Sym.connect_circuit Sym.nl_pair
    = Ok (Some ({| cs_nets := [-1; -2]%Z; cs_f := [193]%Z;
                   cs_s := Sym.Inner
                             (Sym.Conn (Sym.Leaf 1) 0 (Sym.Leaf 2) 0) 0 2 |},
                component_list Sym.nl_pair)).
Proof. split; reflexivity. Qed.

(** * The cascade over a store: what a run leaves untouched *)

Section StoreFrame.

Context {Freq SMat Model : Type}.
Variable get_s_parameters : ComponentInstance Model → Freq * SMat.
Variable innerconnect_s : SMat → nat → nat → SMat.
Variable connect_s : SMat → nat → SMat → nat → SMat.
Abbreviation sobj := (SimulationObject Freq SMat).
Abbreviation sstep := (store_step innerconnect_s connect_s).
Implicit Types (h : store Z) (cl : list sobj) (n : Z).

Lemma store_del_Ok h r i h' :
  store_del h r i = Ok h' →
  length h' = length h ∧ ∀ r', r' ≠ r → h' !! r' = h !! r'.
Proof.
  unfold store_del. intros H. apply bind_Ok in H as (l & _ & [= <-]).
  split; [apply length_insert|]. intros r' Hr.
  by apply list_lookup_insert_ne.
Qed.

Lemma extends_store_del h0 h cl e i h' :
  extends h0 h cl → e ∈ cl → store_del h (so_nets e) i = Ok h' →
  extends h0 h' cl.
Proof.
  intros (Hlen & Hold & Hnew) He Hdel.
  apply store_del_Ok in Hdel as [Hl Hother].
  split; [lia|]. split.
  - intros r Hr. rewrite Hother; [by apply Hold|].
    apply Hnew in He. lia.
  - intros e' He'. apply Hnew in He'. lia.
Qed.

Lemma extends_alloc h0 h cl l :
  extends h0 h cl →
  extends h0 (alloc h l).1 cl
  ∧ length h0 ≤ (alloc h l).2 < length (alloc h l).1.
Proof.
  intros (Hlen & Hold & Hnew). unfold alloc, extends. simpl.
  rewrite !length_app. simpl. split; [|lia].
  split; [lia|]. split.
  - intros r Hr. rewrite lookup_app_l by lia. by apply Hold.
  - intros e He. apply Hnew in He. lia.
Qed.

Lemma extends_make_entries h0 h components h' es acc :
  extends h0 h acc →
  make_entries get_s_parameters h components = (h', es) →
  extends h0 h' (acc ++ es).
Proof.
  revert h h' es acc. induction components as [|c cs IH];
    intros h h' es acc Hext Hmk; simpl in Hmk.
  - injection Hmk as <- <-. by rewrite app_nil_r.
  - unfold SimulationObject_init in Hmk.
    destruct (extends_alloc h0 h acc (deref h (nets_ref c)) Hext)
      as [Hext1 Hr].
    destruct (alloc h (deref h (nets_ref c))) as [h1 r] eqn:Ea.
    destruct (get_s_parameters _) as [f s].
    destruct (make_entries get_s_parameters h1 cs) as [h2 es'] eqn:Emk.
    injection Hmk as <- <-. simpl in *.
    replace (acc ++ {| so_nets := r; so_f := f; so_s := s |} :: es')
      with ((acc ++ [{| so_nets := r; so_f := f; so_s := s |}]) ++ es')
      by (by rewrite <- app_assoc).
    eapply IH; [|done].
    destruct Hext1 as (H1 & H2 & H3). split; [done|]. split; [done|].
    intros e [He|He]%elem_of_app; [by apply H3|].
    apply list_elem_of_singleton in He as ->. done.
Qed.

Lemma extends_store_step h0 n h cl h' cl' :
  extends h0 h cl → sstep n (h, cl) = Ok (h', cl') → extends h0 h' cl'.
Proof.
  intros Hext Hstep. unfold store_step in Hstep.
  apply bind_Ok in Hstep as ([[[ca ia] cb] ib] & _ & Hstep).
  case_decide.
  - apply bind_Ok in Hstep as (A & HA & Hstep).
    apply bind_Ok in Hstep as (h1 & Hd1 & Hstep).
    apply bind_Ok in Hstep as (h2 & Hd2 & [= <- <-]).
    apply getitem_Ok in HA.
    assert (A ∈ cl) as HAin by (by eapply list_elem_of_lookup_2).
    pose proof (extends_store_del _ _ _ _ _ _ Hext HAin Hd1) as Hext1.
    assert (extends h0 h2 cl) as (H1 & H2 & H3).
    { case_decide; by eapply extends_store_del. }
    split; [done|]. split; [done|].
    intros e He. apply elem_of_insert_inv in He as [->|He]; [|by apply H3].
    simpl. by apply H3.
  - apply bind_Ok in Hstep as (first & _ & Hstep).
    apply bind_Ok in Hstep as (A & HA & Hstep).
    apply bind_Ok in Hstep as (B & HB & Hstep).
    apply bind_Ok in Hstep as (h1 & Hd1 & Hstep).
    apply bind_Ok in Hstep as (h2 & Hd2 & Hstep).
    apply getitem_Ok in HA, HB.
    assert (A ∈ cl) as HAin by (by eapply list_elem_of_lookup_2).
    assert (B ∈ cl) as HBin by (by eapply list_elem_of_lookup_2).
    pose proof (extends_store_del _ _ _ _ _ _ Hext HAin Hd1) as Hext1.
    pose proof (extends_store_del _ _ _ _ _ _ Hext1 HBin Hd2) as Hext2.
    destruct (extends_alloc h0 h2 cl
      (deref h2 (so_nets A) ++ deref h2 (so_nets B)) Hext2)
      as [(H1 & H2 & H3) Hr].
    destruct (alloc h2 _) as [h3 r] eqn:Ea.
    apply bind_Ok in Hstep as (cl1 & Hcl1 & [= <- <-]). simpl in *.
    split; [done|]. split; [done|].
    intros e [He|He]%elem_of_app.
    + apply H3. unfold del_pair in Hcl1.
      apply bind_Ok in Hcl1 as (cl0 & Hcl0 & Hcl1).
      apply delitem_Ok in Hcl0 as [_ ->].
      assert (cl1 = delete (if decide (ca < cb) then cb - 1 else cb)
                      (delete ca cl)) as ->.
      { case_decide; by apply delitem_Ok in Hcl1 as [_ ->]. }
      by do 2 apply list_elem_of_delete_inv in He.
    + apply list_elem_of_singleton in He as ->. done.
Qed.

Lemma extends_store_cascade h0 ids h cl h' cl' :
  extends h0 h cl →
  store_cascade innerconnect_s connect_s ids (h, cl) = Ok (h', cl') →
  extends h0 h' cl'.
Proof.
  revert h cl. induction ids as [|n ids IH]; intros h cl Hext Hrun.
  - by injection Hrun as <- <-.
  - simpl in Hrun. apply bind_Ok in Hrun as ([h1 cl1] & Hstep & Hrun).
    eapply IH; [|done]. by eapply extends_store_step.
Qed.

(** The working entries start as copies: same net ids as the component,
    in a list object of their own. *)
Lemma make_entries_copies h components h' es :
  (∀ c, c ∈ components → nets_ref c < length h) →
  make_entries get_s_parameters h components = (h', es) →
  length es = length components
  ∧ ∀ k c e, components !! k = Some c → es !! k = Some e →
      deref h' (so_nets e) = deref h (nets_ref c) ∧ length h ≤ so_nets e.
Proof.
  revert h h' es. induction components as [|c cs IH]; intros h h' es Hv Hmk;
    simpl in Hmk.
  - injection Hmk as <- <-. split; [done|]. intros k c e Hc. done.
  - unfold SimulationObject_init, alloc in Hmk.
    destruct (get_s_parameters _) as [f s].
    destruct (make_entries get_s_parameters (h ++ [deref h (nets_ref c)]) cs)
      as [h2 es'] eqn:Emk.
    injection Hmk as <- <-.
    assert (∀ c', c' ∈ cs →
              nets_ref c' < length (h ++ [deref h (nets_ref c)])) as Hv'.
    { intros c' Hc'. rewrite length_app. simpl.
      assert (nets_ref c' < length h) by (apply Hv; by right). lia. }
    destruct (IH _ _ _ Hv' Emk) as [Hlen Hcopies].
    split; [simpl; by f_equal|].
    intros [|k] c0 e Hc He; simpl in *.
    + injection Hc as <-. injection He as <-. simpl. split; [|done].
      assert (extends (h ++ [deref h (nets_ref c)])
                (h ++ [deref h (nets_ref c)]) (@nil sobj)) as Hext1.
      { split; [done|]. split; [done|].
        intros e He. by apply elem_of_nil in He. }
      pose proof (extends_make_entries _ _ _ _ _ _ Hext1 Emk)
        as (_ & Hold & _).
      unfold deref at 1. rewrite Hold by (rewrite length_app; simpl; lia).
      by rewrite list_lookup_middle.
    + destruct (Hcopies k c0 e Hc He) as [Hval Hr].
      rewrite length_app in Hr. simpl in Hr. split; [|lia].
      rewrite Hval. unfold deref. rewrite lookup_app_l; [done|].
      apply Hv. right. by eapply list_elem_of_lookup_2.
Qed.

(** C9: a run that returns leaves every list object that existed before
    it exactly as it was, in particular the net list of every component
    instance, so each component stands for the same value afterwards; the
    working entries started as copies of those net lists in list objects
    of their own. *)
Theorem run_leaves_components_untouched h components count h' res :
  (∀ c, c ∈ components → nets_ref c < length h) →
  store_connect_circuit get_s_parameters innerconnect_s connect_s
    h components count = Ok (h', res) →
  (∀ r, r < length h → h' !! r = h !! r)
  ∧ (∀ c, c ∈ components → component_value h' c = component_value h c)
  ∧ (∀ k c e, components !! k = Some c →
       (make_entries get_s_parameters h components).2 !! k = Some e →
       deref (make_entries get_s_parameters h components).1 (so_nets e)
       = deref h (nets_ref c)
       ∧ length h ≤ so_nets e).
Proof.
  intros Hv Hrun.
  assert (∀ r, r < length h → h' !! r = h !! r) as Hframe.
  { unfold store_connect_circuit in Hrun.
    case_decide; [by injection Hrun as <- _|].
    apply bind_Ok in Hrun as ([h1 cl1] & Hloop & Hrun).
    apply bind_Ok in Hrun as (first & _ & [= <- _]).
    destruct (make_entries get_s_parameters h components) as [h0 es] eqn:Emk.
    assert (extends h h0 ([] ++ es)) as Hext0.
    { eapply extends_make_entries; [|done]. split; [done|]. split; [done|].
      intros e He. by apply elem_of_nil in He. }
    by destruct (extends_store_cascade _ _ _ _ _ _ Hext0 Hloop)
      as (_ & Hold & _). }
  split; [done|]. split.
  - intros c Hc. unfold component_value, deref. f_equal.
    by rewrite Hframe by (by apply Hv).
  - destruct (make_entries get_s_parameters h components) as [h0 es] eqn:Emk.
    by apply make_entries_copies.
Qed.

End StoreFrame.

(** * The cascade over a store computes what the cascade over values
      computes *)

Lemma deref_insert_eq {A} (h : store A) r l :
  r < length h → deref (<[r := l]> h) r = l.
Proof. intros H. unfold deref. by rewrite list_lookup_insert_eq. Qed.

Lemma deref_insert_ne {A} (h : store A) r r' l :
  r ≠ r' → deref (<[r := l]> h) r' = deref h r'.
Proof. intros H. unfold deref. by rewrite list_lookup_insert_ne. Qed.

Lemma deref_app_l {A} (h h2 : store A) r :
  r < length h → deref (h ++ h2) r = deref h r.
Proof. intros H. unfold deref. by rewrite lookup_app_l. Qed.

Lemma store_del_eq {A} (h : store A) r i :
  store_del h r i = result_map (λ l, <[r := l]> h) (delitem (deref h r) i).
Proof. unfold store_del. by destruct (delitem (deref h r) i). Qed.

Lemma insert_fmap_agree {A B} (f g : A → B) (l : list A) i x :
  (∀ j y, j ≠ i → l !! j = Some y → f y = g y) →
  <[i := x]> (f <$> l) = <[i := x]> (g <$> l).
Proof.
  intros H. apply list_eq. intros j.
  destruct (decide (i = j)) as [->|Hne].
  - destruct (decide (j < length l)) as [Hlt|Hge].
    + by rewrite !list_lookup_insert_eq by (by rewrite length_fmap).
    + rewrite !list_insert_ge by (rewrite length_fmap; lia).
      rewrite !list_lookup_fmap.
      by rewrite (lookup_ge_None_2 l j) by lia.
  - rewrite !list_lookup_insert_ne by done. rewrite !list_lookup_fmap.
    destruct (l !! j) as [y|] eqn:E; [|done]. simpl. f_equal.
    apply (H j); [congruence | done].
Qed.

Lemma NoDup_not_elem_of_delete {A} (l : list A) i x :
  NoDup l → l !! i = Some x → x ∉ delete i l.
Proof.
  intros Hnd Hi [j Hj]%list_elem_of_lookup.
  destruct (decide (j < i)) as [Hlt|Hge].
  - rewrite list_lookup_delete_lt in Hj by done.
    assert (j = i) by (by eapply NoDup_lookup). lia.
  - rewrite list_lookup_delete_ge in Hj by lia.
    assert (S j = i) by (by eapply NoDup_lookup). lia.
Qed.

Lemma NoDup_delete {A} (l : list A) i : NoDup l → NoDup (delete i l).
Proof.
  intros H. exact (sublist_NoDup _ l H (sublist_delete l i)).
Qed.

Section StoreRefines.

Context {Freq SMat Model : Type}.
Variable get_s_parameters : ComponentInstance Model → Freq * SMat.
Variable innerconnect_s : SMat → nat → nat → SMat.
Variable connect_s : SMat → nat → SMat → nat → SMat.
Abbreviation sobj := (SimulationObject Freq SMat).
Abbreviation sstep := (store_step innerconnect_s connect_s).
Abbreviation step := (connect_step innerconnect_s connect_s).
Abbreviation values := (working_values (Freq := Freq) (SMat := SMat)).
Implicit Types (h : store Z) (cl : list sobj) (n : Z).

Lemma separate_lookup_ne h cl i j A e :
  separate h cl → cl !! i = Some A → cl !! j = Some e → j ≠ i →
  so_nets e ≠ so_nets A.
Proof.
  intros [Hnd _] HA He Hne Heq. apply Hne.
  eapply (NoDup_lookup (so_nets <$> cl)); [done| |].
  - rewrite list_lookup_fmap, He. simpl. by rewrite Heq.
  - by rewrite list_lookup_fmap, HA.
Qed.

Lemma store_step_self_refines n h cl ca ia ib :
  separate h cl →
  result_map values
    (A ← getitem cl ca;
     h1 ← store_del h (so_nets A) ia;
     h2 ← (if decide (ia < ib) then store_del h1 (so_nets A) (ib - 1)
           else store_del h1 (so_nets A) ib);
     Ok (h2, <[ca := {| so_nets := so_nets A; so_f := so_f A;
                        so_s := innerconnect_s (so_s A) ia ib |}]> cl))
  = (A ← getitem (entry_value h <$> cl) ca;
     nets ← self_loop_nets ia ib (cs_nets A);
     Ok (<[ca := {| cs_nets := nets; cs_f := cs_f A;
                    cs_s := innerconnect_s (cs_s A) ia ib |}]>
           (entry_value h <$> cl))).
Proof.
  intros Hsep. rewrite getitem_fmap.
  destruct (getitem cl ca) as [A|ex] eqn:HA; [|done]. simpl.
  apply getitem_Ok in HA.
  assert (so_nets A < length h) as Hr
    by (apply Hsep; by eapply list_elem_of_lookup_2).
  unfold self_loop_nets, del_pair. rewrite store_del_eq.
  destruct (delitem (deref h (so_nets A)) ia) as [l1|ex]; [|done]. simpl.
  assert (∀ k,
    result_map values
      (h2 ← store_del (<[so_nets A := l1]> h) (so_nets A) k;
       Ok (h2, <[ca := {| so_nets := so_nets A; so_f := so_f A;
                          so_s := innerconnect_s (so_s A) ia ib |}]> cl))
    = (nets ← delitem l1 k;
       Ok (<[ca := {| cs_nets := nets; cs_f := so_f A;
                      cs_s := innerconnect_s (so_s A) ia ib |}]>
             (entry_value h <$> cl)))) as Hsecond.
  { intros k. rewrite store_del_eq, deref_insert_eq by done.
    destruct (delitem l1 k) as [l2|ex]; [|done]. simpl. f_equal.
    unfold working_values. simpl. rewrite list_fmap_insert.
    unfold entry_value at 1.
    simpl. rewrite deref_insert_eq by (by rewrite length_insert).
    apply insert_fmap_agree. intros j e Hj He. unfold entry_value. f_equal.
    rewrite !deref_insert_ne; [done|..];
      apply not_eq_sym; by eapply separate_lookup_ne. }
  case_decide; apply Hsecond.
Qed.

Lemma del_pair_Ok {A} i j (l l' : list A) :
  del_pair i j l = Ok l' →
  l' = delete (if decide (i < j) then j - 1 else j) (delete i l).
Proof.
  unfold del_pair. intros H. apply bind_Ok in H as (l1 & H1 & H2).
  apply delitem_Ok in H1 as [_ ->].
  case_decide; by apply delitem_Ok in H2 as [_ ->].
Qed.

(** After the pair [ca], [cb] is retired, no remaining entry refers to the
    net list of one of the two. *)
Lemma retired_refs h cl ca cb A B cl1 e :
  separate h cl → ca ≠ cb → cl !! ca = Some A → cl !! cb = Some B →
  del_pair ca cb cl = Ok cl1 → e ∈ cl1 →
  e ∈ cl ∧ so_nets e ≠ so_nets A ∧ so_nets e ≠ so_nets B.
Proof.
  intros [Hnd Hval] Hne HA HB Hdel He.
  apply del_pair_Ok in Hdel as ->.
  split; [by do 2 apply list_elem_of_delete_inv in He|].
  assert (so_nets e ∈ so_nets <$>
            delete (if decide (ca < cb) then cb - 1 else cb) (delete ca cl))
    as Hin by (by apply list_elem_of_fmap_2).
  rewrite <- !delete_fmap in Hin.
  split; intros Heq; rewrite Heq in Hin.
  - apply list_elem_of_delete_inv in Hin. revert Hin.
    apply NoDup_not_elem_of_delete; [done|]. by rewrite list_lookup_fmap, HA.
  - revert Hin. apply NoDup_not_elem_of_delete; [by apply NoDup_delete|].
    rewrite lookup_remove_second by done. by rewrite list_lookup_fmap, HB.
Qed.

Lemma store_step_cross_refines n h cl ca ia cb ib :
  separate h cl → ca ≠ cb →
  result_map values
    (first ← getitem cl 0;
     A ← getitem cl ca;
     B ← getitem cl cb;
     h1 ← store_del h (so_nets A) ia;
     h2 ← store_del h1 (so_nets B) ib;
     let '(h3, r) :=
       alloc h2 (deref h2 (so_nets A) ++ deref h2 (so_nets B)) in
     cl1 ← del_pair ca cb cl;
     Ok (h3, cl1 ++ [{| so_nets := r; so_f := so_f first;
                        so_s := connect_s (so_s A) ia (so_s B) ib |}]))
  = (first ← getitem (entry_value h <$> cl) 0;
     A ← getitem (entry_value h <$> cl) ca;
     B ← getitem (entry_value h <$> cl) cb;
     netsA ← delitem (cs_nets A) ia;
     netsB ← delitem (cs_nets B) ib;
     cl1 ← retire_pair ca cb (entry_value h <$> cl);
     Ok (cl1 ++ [{| cs_nets := netsA ++ netsB; cs_f := cs_f first;
                    cs_s := connect_s (cs_s A) ia (cs_s B) ib |}])).
Proof.
  intros Hsep Hne. rewrite !getitem_fmap.
  destruct (getitem cl 0) as [first|ex] eqn:H0; [|done]. simpl.
  destruct (getitem cl ca) as [A|ex] eqn:HA; [|done]. simpl.
  destruct (getitem cl cb) as [B|ex] eqn:HB; [|done]. simpl.
  apply getitem_Ok in HA, HB.
  assert (so_nets A < length h) as HrA
    by (apply Hsep; by eapply list_elem_of_lookup_2).
  assert (so_nets B < length h) as HrB
    by (apply Hsep; by eapply list_elem_of_lookup_2).
  assert (so_nets B ≠ so_nets A) as HAB
    by (by eapply separate_lookup_ne).
  rewrite store_del_eq.
  destruct (delitem (deref h (so_nets A)) ia) as [lA|ex]; [|done]. simpl.
  rewrite store_del_eq, deref_insert_ne by done.
  destruct (delitem (deref h (so_nets B)) ib) as [lB|ex]; [|done]. simpl.
  rewrite deref_insert_eq by (by rewrite length_insert).
  rewrite deref_insert_ne, deref_insert_eq by done.
  unfold retire_pair. rewrite del_pair_fmap.
  destruct (del_pair ca cb cl) as [cl1|ex] eqn:Hdel; [|done]. simpl.
  f_equal. unfold working_values. simpl. rewrite fmap_app. simpl.
  f_equal.
  - apply list_fmap_ext. intros k e He.
    apply list_elem_of_lookup_2 in He.
    destruct (retired_refs _ _ _ _ _ _ _ _ Hsep Hne HA HB Hdel He)
      as (Hin & HeA & HeB).
    unfold entry_value. f_equal.
    rewrite deref_app_l
      by (rewrite !length_insert; apply Hsep; done).
    by rewrite !deref_insert_ne by done.
  - unfold entry_value. simpl. do 2 f_equal.
    unfold deref. by rewrite list_lookup_middle by done.
Qed.

(** One iteration on the store computes the iteration on the values. *)
Lemma store_step_refines n h cl :
  separate h cl →
  result_map values (sstep n (h, cl)) = step n (entry_value h <$> cl).
Proof.
  intros Hsep. unfold store_step, connect_step.
  destruct (_match_ports n (entry_value h <$> cl))
    as [[[[ca ia] cb] ib]|ex]; [|done]. simpl.
  case_decide.
  - by apply store_step_self_refines.
  - by apply store_step_cross_refines.
Qed.

Lemma separate_store_step n h cl h' cl' :
  separate h cl → sstep n (h, cl) = Ok (h', cl') → separate h' cl'.
Proof.
  intros Hsep Hstep. pose proof Hsep as [Hnd Hval].
  unfold store_step in Hstep.
  apply bind_Ok in Hstep as ([[[ca ia] cb] ib] & _ & Hstep).
  case_decide as Hc.
  - apply bind_Ok in Hstep as (A & HA & Hstep).
    apply bind_Ok in Hstep as (h1 & Hd1 & Hstep).
    apply bind_Ok in Hstep as (h2 & Hd2 & [= <- <-]).
    apply getitem_Ok in HA.
    apply store_del_Ok in Hd1 as [Hl1 _].
    assert (length h2 = length h1) as Hl2.
    { case_decide; by apply store_del_Ok in Hd2 as [? _]. }
    split.
    + rewrite list_fmap_insert. simpl. rewrite list_insert_id; [done|].
      by rewrite list_lookup_fmap, HA.
    + intros e [->|He]%elem_of_insert_inv; simpl.
      * rewrite Hl2, Hl1. apply Hval. by eapply list_elem_of_lookup_2.
      * rewrite Hl2, Hl1. by apply Hval.
  - apply bind_Ok in Hstep as (first & _ & Hstep).
    apply bind_Ok in Hstep as (A & HA & Hstep).
    apply bind_Ok in Hstep as (B & HB & Hstep).
    apply bind_Ok in Hstep as (h1 & Hd1 & Hstep).
    apply bind_Ok in Hstep as (h2 & Hd2 & Hstep).
    apply getitem_Ok in HA, HB.
    apply store_del_Ok in Hd1 as [Hl1 _].
    apply store_del_Ok in Hd2 as [Hl2 _].
    unfold alloc in Hstep.
    apply bind_Ok in Hstep as (cl1 & Hdel & [= <- <-]).
    assert (∀ e, e ∈ cl1 → so_nets e < length h2) as Hval1.
    { intros e He. rewrite Hl2, Hl1. apply Hval.
      by destruct (retired_refs _ _ _ _ _ _ _ _ Hsep Hc HA HB Hdel He). }
    split.
    + rewrite fmap_app. simpl. apply NoDup_app. split; [|split].
      * apply del_pair_Ok in Hdel as ->. rewrite <- !delete_fmap.
        by do 2 apply NoDup_delete.
      * intros r [e [-> He]]%list_elem_of_fmap Hr.
        apply list_elem_of_singleton in Hr. apply Hval1 in He. lia.
      * apply NoDup_singleton.
    + intros e [He|He]%elem_of_app; rewrite length_app; simpl.
      * apply Hval1 in He. lia.
      * apply list_elem_of_singleton in He as ->. simpl. lia.
Qed.

Lemma store_cascade_refines ids h cl :
  separate h cl →
  result_map values (store_cascade innerconnect_s connect_s ids (h, cl))
  = (cascade innerconnect_s connect_s ids (entry_value h <$> cl)).2.
Proof.
  revert h cl. induction ids as [|n ids IH]; intros h cl Hsep; [done|].
  pose proof (store_step_refines n h cl Hsep) as Hstep.
  change (store_cascade innerconnect_s connect_s (n :: ids) (h, cl))
    with (sstep n (h, cl) ≫= store_cascade innerconnect_s connect_s ids).
  destruct (sstep n (h, cl)) as [[h1 cl1]|ex] eqn:E.
  - change (Ok (h1, cl1) ≫= store_cascade innerconnect_s connect_s ids)
      with (store_cascade innerconnect_s connect_s ids (h1, cl1)).
    rewrite IH by (by eapply separate_store_step).
    symmetry in Hstep. rewrite (cascade_cons_Ok _ _ _ _ _ _ Hstep). done.
  - symmetry in Hstep. by rewrite (cascade_cons_Raise _ _ _ _ _ _ Hstep).
Qed.

(** The copies are allocated one after the other at the end of the
    store. *)
Lemma make_entries_refs h components :
  so_nets <$> ((make_entries get_s_parameters h components).2)
    = seq (length h) (length components)
  ∧ length (make_entries get_s_parameters h components).1
    = length h + length components.
Proof.
  revert h. induction components as [|c cs IH]; intros h; simpl.
  - split; [done|lia].
  - unfold SimulationObject_init, alloc.
    destruct (get_s_parameters _) as [f s].
    destruct (IH (h ++ [deref h (nets_ref c)])) as [Hrefs Hlen].
    destruct (make_entries get_s_parameters _ cs) as [h2 es].
    cbn [fst snd] in *. rewrite length_app in Hrefs, Hlen.
    cbn [length] in Hrefs, Hlen. rewrite fmap_cons, Hrefs.
    cbn [so_nets length seq]. split; [do 2 f_equal; lia | lia].
Qed.

Lemma make_entries_separate h components :
  separate (make_entries get_s_parameters h components).1
           (make_entries get_s_parameters h components).2.
Proof.
  destruct (make_entries_refs h components) as [Hrefs Hlen].
  split.
  - rewrite Hrefs. apply NoDup_seq.
  - intros e He.
    assert (so_nets e ∈ seq (length h) (length components)) as Hin
      by (rewrite <- Hrefs; by apply list_elem_of_fmap_2).
    apply elem_of_seq in Hin. lia.
Qed.

Lemma make_entries_values h components :
  (∀ c, c ∈ components → nets_ref c < length h) →
  working_values (make_entries get_s_parameters h components)
  = ComponentSimulation_init get_s_parameters
      <$> (component_value h <$> components).
Proof.
  revert h. induction components as [|c cs IH]; intros h Hv; [done|].
  cbn [make_entries]. unfold SimulationObject_init, alloc.
  set (h1 := h ++ [deref h (nets_ref c)]).
  assert (∀ c', c' ∈ c :: cs → component_value h1 c' = component_value h c')
    as Hsame.
  { intros c' Hc'. unfold component_value. f_equal.
    apply deref_app_l. by apply Hv. }
  assert (∀ c', c' ∈ cs → nets_ref c' < length h1) as Hv'.
  { intros c' Hc'. unfold h1. rewrite length_app. simpl.
    assert (nets_ref c' < length h) by (apply Hv; by right). lia. }
  destruct (get_s_parameters (component_value h1 c)) as [f s] eqn:Eg.
  specialize (IH h1 Hv').
  destruct (make_entries get_s_parameters h1 cs) as [h2 es] eqn:Emk.
  assert (extends h1 h2 ([] ++ es)) as (_ & Hold & _).
  { eapply extends_make_entries; [|done]. split; [done|]. split; [done|].
    intros e He. by apply elem_of_nil in He. }
  unfold working_values in *. cbn [fst snd] in *.
  rewrite !fmap_cons. f_equal.
  - unfold entry_value, ComponentSimulation_init. cbn [so_nets so_f so_s].
    rewrite <- (Hsame c) by left. rewrite Eg. f_equal.
    unfold deref at 1. rewrite Hold by (unfold h1; rewrite length_app; simpl; lia).
    unfold h1. rewrite list_lookup_middle by done. simpl.
    symmetry. apply deref_app_l. apply Hv. left.
  - rewrite IH. rewrite <- !list_fmap_compose. apply list_fmap_ext.
    intros k c' Hc'. simpl. f_equal. apply Hsame. right.
    by eapply list_elem_of_lookup_2.
Qed.

Lemma filter_agree {A} (P Q : A → Prop)
    `{!∀ x, Decision (P x), !∀ x, Decision (Q x)} (l : list A) :
  (∀ x, x ∈ l → P x ↔ Q x) → filter P l = filter Q l.
Proof.
  induction l as [|x l IH]; intros Hl; [done|].
  rewrite !filter_cons. rewrite IH by (intros y Hy; apply Hl; by right).
  assert (P x ↔ Q x) as Hx by (apply Hl; left).
  destruct (decide (P x)) as [HP|HP], (decide (Q x)) as [HQ|HQ];
    try done; tauto.
Qed.

Lemma filter_fmap_commute {A B} (f : A → B) (P : B → Prop)
    `{!∀ x, Decision (P x)} (l : list A) :
  filter P (f <$> l) = f <$> filter (λ x, P (f x)) l.
Proof.
  induction l as [|x l IH]; [done|].
  rewrite fmap_cons, !filter_cons.
  case_decide; [rewrite fmap_cons|]; by rewrite IH.
Qed.

(** X8: the deletions of a run act on lists that no other entry and no
    component refers to, so sharing plays no part in the result: the run
    on list objects returns, read through the final store, exactly the
    entry and the edge components that the run on plain values returns,
    and raises when and what that run raises. *)
Lemma store_connect_circuit_refines h components count :
  (∀ c, c ∈ components → nets_ref c < length h) →
  result_map
    (λ out, option_map
              (λ r, (entry_value out.1 r.1, component_value out.1 <$> r.2))
              out.2)
    (store_connect_circuit get_s_parameters innerconnect_s connect_s
       h components count)
  = connect_circuit get_s_parameters innerconnect_s connect_s
      {| component_list := component_value h <$> components;
         net_count := count |}.
Proof.
  intros Hv. unfold store_connect_circuit, connect_circuit. simpl.
  case_decide; [done|].
  unfold working_entries, get_external_components. simpl.
  rewrite <- (make_entries_values h components Hv).
  pose proof (make_entries_separate h components) as Hsep.
  destruct (make_entries get_s_parameters h components) as [h0 es] eqn:Emk.
  assert (extends h h0 ([] ++ es)) as Hext0.
  { eapply extends_make_entries; [|done]. split; [done|]. split; [done|].
    intros e He. by apply elem_of_nil in He. }
  pose proof (store_cascade_refines (seqZ 0 (count + 1)) h0 es Hsep)
    as Hloop. unfold working_values, cascade_ids.
  cbn [fst snd net_count]. rewrite <- Hloop.
  destruct (store_cascade innerconnect_s connect_s _ (h0, es))
    as [[h1 cl1]|ex] eqn:Ec; [|done].
  destruct (extends_store_cascade _ _ _ _ _ _ _ _ Hext0 Ec)
    as (_ & Hold & _).
  simpl. unfold working_values. simpl. rewrite getitem_fmap.
  destruct (getitem cl1 0) as [first|ex]; [|done]. simpl. do 3 f_equal.
  rewrite filter_fmap_commute.
  assert (∀ c, c ∈ components → component_value h1 c = component_value h c)
    as Hsame.
  { intros c Hc. unfold component_value, deref. f_equal.
    by rewrite Hold by (by apply Hv). }
  rewrite (list_fmap_ext (component_value h1) (component_value h)
             (filter (λ c, is_external (component_value h1 c)) components)).
  - f_equal. apply filter_agree. intros c Hc. by rewrite Hsame.
  - intros k c Hc. apply Hsame.
    apply list_elem_of_lookup_2 in Hc.
    by apply list_elem_of_filter in Hc as [_ ?].
Qed.

End StoreRefines.

(** The run of [Sym.nl_pair] on a store: the two copies (objects 2 and 3)
    and the merged list (object 4) were written to, the components' own
    lists (objects 0 and 1) were not. *)
Lemma run_leaves_components_untouched_witness :
  ∃ res,
    SymStore.connect_circuit SymStore.store0 SymStore.objects 1
    = Ok ([[0; 1; -1]; [0; 1; -2]; [1; -1]; [1; -2]; [-1; -2]]%Z, res)
    ∧ ∀ c, c ∈ SymStore.objects →
        component_value
          [[0; 1; -1]; [0; 1; -2]; [1; -1]; [1; -2]; [-1; -2]]%Z c
        = component_value SymStore.store0 c.
Proof.
  eexists. split; [reflexivity|].
  eapply (run_leaves_components_untouched Sym.get_s_parameters
            Sym.Inner Sym.Conn SymStore.store0 SymStore.objects 1).
  - intros c Hc. unfold SymStore.objects in Hc.
    apply elem_of_cons in Hc as [->|Hc]; [simpl; lia|].
    apply list_elem_of_singleton in Hc as ->. simpl. lia.
  - reflexivity.
Defined.

(** * The dynamic list *)

Lemma py_setitem_nonneg {A} (l : list A) (k : nat) x :
  k < length l → py_setitem l (Z.of_nat k) x = Ok (<[k := x]> l).
Proof.
  intros H. unfold py_setitem. rewrite decide_True by lia.
  by rewrite Nat2Z.id.
Qed.

Lemma py_setitem_beyond {A} (l : list A) (i : Z) x :
  (Z.of_nat (length l) ≤ i)%Z → py_setitem l i x = Raise IndexError.
Proof.
  intros H. unfold py_setitem. by rewrite !decide_False by lia.
Qed.

Lemma copy_into_from {A} (src done : list A) (pad : A) (m : nat) :
  length src ≤ m →
  foldl (λ acc p, new ← acc; py_setitem new (Z.of_nat p.1) p.2)
        (Ok (done ++ replicate m pad)) (enumerate_from (length done) src)
  = Ok (done ++ src ++ replicate (m - length src) pad).
Proof.
  revert done m. induction src as [|v src IH]; intros done m Hm.
  - simpl. by rewrite Nat.sub_0_r.
  - destruct m as [|m]; [simpl in Hm; lia|].
    cbn [enumerate_from foldl fst snd]. cbn [mbind result_bind].
    rewrite py_setitem_nonneg
      by (rewrite length_app, length_replicate; lia).
    replace (<[length done := v]> (done ++ replicate (S m) pad))
      with ((done ++ [v]) ++ replicate m pad).
    + replace (S (length done)) with (length (done ++ [v]))
        by (rewrite length_app; simpl; lia).
      rewrite IH by (simpl in Hm; lia).
      by rewrite <- app_assoc.
    + rewrite <- app_assoc. simpl.
      rewrite insert_app_r_alt by lia. by rewrite Nat.sub_diag.
Qed.

Lemma copy_into_replicate {A} (src : list A) (pad : A) (m : nat) :
  length src ≤ m →
  copy_into (replicate m pad) src
  = Ok (src ++ replicate (m - length src) pad).
Proof. intros H. exact (copy_into_from src [] pad m H). Qed.

Lemma copy_into_short {A} (src : list A) x :
  copy_into [] (x :: src) = Raise IndexError.
Proof.
  unfold copy_into, enumerate. cbn [enumerate_from foldl fst snd].
  cbn [mbind result_bind]. unfold py_setitem at 1. simpl.
  induction (enumerate_from 1 src) as [|p ps IH]; [done|]. apply IH.
Qed.

Lemma insert_replicate_last {A} (k : nat) (x y : A) :
  <[k := y]> (replicate (S k) x) = replicate k x ++ [y].
Proof. induction k as [|k IH]; [done|]. simpl in *. by rewrite IH. Qed.

Lemma dlist_insert_in_place {V} (h : store (option V)) d l i e :
  h !! d = Some l → (0 ≤ i < Z.of_nat (length l))%Z →
  _dlist_insert h d i e = Ok (<[d := <[Z.to_nat i := e]> l]> h, d).
Proof.
  intros Hd Hi. unfold _dlist_insert, deref. rewrite Hd.
  unfold py_setitem. by rewrite decide_True by done.
Qed.

Lemma dlist_insert_from_end {V} (h : store (option V)) d l i e :
  h !! d = Some l → (- Z.of_nat (length l) ≤ i < 0)%Z →
  _dlist_insert h d i e
  = Ok (<[d := <[Z.to_nat (Z.of_nat (length l) + i) := e]> l]> h, d).
Proof.
  intros Hd Hi. unfold _dlist_insert, deref. rewrite Hd.
  unfold py_setitem. rewrite decide_False by lia.
  by rewrite decide_True by done.
Qed.

Lemma dlist_insert_grow {V} (h : store (option V)) d l i e :
  h !! d = Some l → (Z.of_nat (length l) ≤ i)%Z →
  _dlist_insert h d i e
  = Ok (h ++ [l ++ replicate (Z.to_nat i - length l) None ++ [e]], length h).
Proof.
  intros Hd Hi. unfold _dlist_insert, deref. rewrite Hd.
  rewrite py_setitem_beyond by done.
  rewrite copy_into_replicate by lia. cbn [mbind result_bind].
  replace (Z.to_nat (i + 1) - length l) with (S (Z.to_nat i - length l))
    by lia.
  unfold py_setitem.
  rewrite decide_True
    by (rewrite length_app, length_replicate; lia).
  rewrite insert_app_r_alt by lia. rewrite insert_replicate_last. done.
Qed.

Lemma dlist_insert_below {V} (h : store (option V)) d l i e :
  h !! d = Some l → (i < - Z.of_nat (length l))%Z →
  _dlist_insert h d i e = Raise IndexError.
Proof.
  intros Hd Hi. unfold _dlist_insert, deref. rewrite Hd.
  unfold py_setitem at 1. rewrite !decide_False by lia.
  replace (Z.to_nat (i + 1)) with 0 by lia. simpl.
  destruct l as [|x l].
  - unfold copy_into. simpl. unfold py_setitem. simpl.
    by rewrite !decide_False by lia.
  - by rewrite copy_into_short.
Qed.

(** C10 (as the code has it): [_dlist_insert] on the list object [d]
    holding [l]. An index within [0, len) is written in place and the same
    object is returned. An index at or beyond [len] leaves the object
    alone and returns a new one of length [i + 1]: the old elements at
    their positions, [None] up to position [i], the element at [i]. A
    negative index down to [-len] is written in place, counted from the
    end. A negative index below [-len] raises [IndexError]. For every
    non-negative index the returned list has the element at position [i]
    and length [max len (i + 1)]. *)
Theorem dlist_insert_cases {V} (h : store (option V)) (d : nat)
    (l : list (option V)) (i : Z) (e : option V) :
  h !! d = Some l →
  ((0 ≤ i < Z.of_nat (length l))%Z →
     _dlist_insert h d i e = Ok (<[d := <[Z.to_nat i := e]> l]> h, d))
  ∧ ((Z.of_nat (length l) ≤ i)%Z →
     _dlist_insert h d i e
     = Ok (h ++ [l ++ replicate (Z.to_nat i - length l) None ++ [e]],
           length h)
     ∧ (h ++ [l ++ replicate (Z.to_nat i - length l) None ++ [e]]) !! d
       = Some l)
  ∧ ((- Z.of_nat (length l) ≤ i < 0)%Z →
     _dlist_insert h d i e
     = Ok (<[d := <[Z.to_nat (Z.of_nat (length l) + i) := e]> l]> h, d))
  ∧ ((i < - Z.of_nat (length l))%Z →
     _dlist_insert h d i e = Raise IndexError)
  ∧ ((0 ≤ i)%Z →
     ∃ h' r, _dlist_insert h d i e = Ok (h', r)
       ∧ deref h' r !! Z.to_nat i = Some e
       ∧ length (deref h' r) = max (length l) (Z.to_nat i + 1)
       ∧ (∀ k x, l !! k = Some x → k ≠ Z.to_nat i →
            deref h' r !! k = Some x)
       ∧ (∀ k, length l ≤ k < Z.to_nat i → deref h' r !! k = Some None)).
Proof.
  intros Hd. assert (d < length h) as Hlt by (by eapply lookup_lt_Some).
  split; [by apply dlist_insert_in_place|].
  split; [intros Hi; split; [by apply dlist_insert_grow|
                             by rewrite lookup_app_l]|].
  split; [by apply dlist_insert_from_end|].
  split; [by apply dlist_insert_below|].
  intros Hi. destruct (decide (i < Z.of_nat (length l))%Z) as [Hin|Hout].
  - eexists _, _. split; [apply dlist_insert_in_place; [done|lia]|].
    rewrite deref_insert_eq by done.
    split; [apply list_lookup_insert_eq; lia|].
    split; [rewrite length_insert; lia|].
    split.
    + intros k x Hk Hne. by rewrite list_lookup_insert_ne.
    + intros k Hk. lia.
  - eexists _, _. split; [apply dlist_insert_grow; [done|lia]|].
    unfold deref. rewrite list_lookup_middle by done.
    set (pad := Z.to_nat i - length l).
    assert (Z.to_nat i = length l + pad) as -> by (unfold pad; lia).
    split; [|split; [|split]].
    + rewrite lookup_app_r by lia.
      replace (length l + pad - length l) with pad by lia.
      rewrite lookup_app_r by (rewrite length_replicate; lia).
      by rewrite length_replicate, Nat.sub_diag.
    + rewrite !length_app, length_replicate. simpl. lia.
    + intros k x Hk _. by apply lookup_app_l_Some.
    + intros k Hk. rewrite lookup_app_r by lia.
      rewrite lookup_app_l by (rewrite length_replicate; lia).
      apply lookup_replicate_2. lia.
Qed.

(** C10, as stated, fails for a negative index: on an empty list, index
    [-1] is smaller than the length and still nothing is written in
    place; the call raises [IndexError]. *)
Lemma dlist_insert_negative_index_raises :
  (-1 < Z.of_nat (length (@nil (option nat))))%Z
  ∧ _dlist_insert [[]] 0 (-1) (Some 7) = Raise IndexError.
Proof. split; [simpl; lia | reflexivity]. Qed.

Lemma dlist_insert_cases_witness :
  _dlist_insert [[Some 1; Some 2]] 0 1 (Some 9)
    = Ok ([[Some 1; Some 9]], 0)
  ∧ _dlist_insert [[Some 1; Some 2]] 0 4 (Some 9)
    = Ok ([[Some 1; Some 2]; [Some 1; Some 2; None; None; Some 9]], 1).
Proof.
  split.
  - apply (dlist_insert_cases [[Some 1; Some 2]] 0 [Some 1; Some 2] 1
             (Some 9) eq_refl). simpl. lia.
  - apply (dlist_insert_cases [[Some 1; Some 2]] 0 [Some 1; Some 2] 4
             (Some 9) eq_refl). simpl. lia.
Defined.

(** ** Membership after a deletion or an update *)

Lemma elem_of_remove_positions {A} ps (l : list A) y :
  y ∈ remove_positions ps l ↔ ∃ p, (p ∉ ps) ∧ l !! p = Some y.
Proof.
  unfold remove_positions, remove_positions_from.
  rewrite list_elem_of_fmap. split.
  - intros [[p y'] [-> [Hp Hin]%list_elem_of_filter]]. simpl in *.
    apply elem_of_enumerate_from in Hin as [_ Hin].
    rewrite Nat.sub_0_r in Hin. eauto.
  - intros [p [Hp Hl]]. exists (p, y). split; [done|].
    apply list_elem_of_filter. split; [done|].
    apply elem_of_enumerate_from. rewrite Nat.sub_0_r. split; [lia|done].
Qed.

Lemma elem_of_insert_iff {A} (l : list A) i x y :
  i < length l →
  y ∈ <[i := x]> l ↔ y = x ∨ ∃ p, p ≠ i ∧ l !! p = Some y.
Proof.
  intros Hi. rewrite list_elem_of_lookup. split.
  - intros [p Hp]. destruct (decide (p = i)) as [->|Hne].
    + rewrite list_lookup_insert_eq in Hp by done. left. congruence.
    + rewrite list_lookup_insert_ne in Hp by done. right. eauto.
  - intros [->|[p [Hne Hp]]].
    + exists i. by apply list_lookup_insert_eq.
    + exists p. by rewrite list_lookup_insert_ne.
Qed.

Lemma elem_of_delete_other {A} (l : list A) i x y :
  x ∈ l → l !! i = Some y → x ≠ y → x ∈ delete i l.
Proof.
  intros [p Hp]%list_elem_of_lookup Hi Hne.
  assert (p ≠ i) by (intros ->; congruence).
  apply list_elem_of_lookup. destruct (decide (p < i)).
  - exists p. by rewrite list_lookup_delete_lt.
  - exists (p - 1). rewrite list_lookup_delete_ge by lia.
    by replace (S (p - 1)) with p by lia.
Qed.

(** * Connected groups survive the cascade *)

Section Groups.

Context {Freq SMat : Type}.
Variable innerconnect_s : SMat → nat → nat → SMat.
Variable connect_s : SMat → nat → SMat → nat → SMat.
Abbreviation entry := (ComponentSimulation Freq SMat).
Abbreviation step := (connect_step innerconnect_s connect_s).
Abbreviation loop := (cascade innerconnect_s connect_s).
Implicit Types (tl : list (nat * entry)) (e : entry) (n x : Z)
  (group : nat → nat).

Lemma tagged_functional tl t e1 e2 :
  NoDup tl.*1 → (t, e1) ∈ tl → (t, e2) ∈ tl → e1 = e2.
Proof.
  intros Hnd [i Hi]%list_elem_of_lookup [j Hj]%list_elem_of_lookup.
  assert (i = j) as ->.
  { eapply (NoDup_lookup tl.*1); [done|..];
      rewrite list_lookup_fmap; [by rewrite Hi | by rewrite Hj]. }
  congruence.
Qed.

Lemma elem_of_tags tl t : t ∈ tl.*1 ↔ ∃ e, (t, e) ∈ tl.
Proof.
  rewrite list_elem_of_fmap. split.
  - intros [[t' e] [-> H]]. eauto.
  - intros [e H]. by exists (t, e).
Qed.

(** Replacing the entries tagged [ta] and [tb], which share [n] and are
    the only ones to carry it, by one entry [N] tagged [ta] that carries
    their other net ids keeps the grouping and the labels in use. *)
Lemma grouped_replace group tl tl' ta tb A B N n :
  grouped group tl → (ta, A) ∈ tl → (tb, B) ∈ tl →
  (0 ≤ n)%Z → n ∈ cs_nets A → n ∈ cs_nets B →
  (∀ t e, (t, e) ∈ tl → n ∈ cs_nets e → t = ta ∨ t = tb) →
  (∀ x, x ∈ cs_nets N → x ∈ cs_nets A ∨ x ∈ cs_nets B) →
  (∀ x, x ≠ n → x ∈ cs_nets A ∨ x ∈ cs_nets B → x ∈ cs_nets N) →
  NoDup tl'.*1 →
  (∀ t e, (t, e) ∈ tl' ↔ (t = ta ∧ e = N) ∨ ((t, e) ∈ tl ∧ t ≠ ta ∧ t ≠ tb)) →
  grouped group tl'
  ∧ (∀ g, g ∈ group <$> (tl'.*1) ↔ g ∈ group <$> (tl.*1)).
Proof.
  intros (Hnd & Hsep & Hconn) HA HB Hn HnA HnB Honly Hsub Hsup Hnd' Hmem.
  assert (group ta = group tb) as Hab.
  { apply Hsep. by exists A, B, n. }
  assert (∀ t, t ∈ tl'.*1 → t ∈ tl.*1 ∧ (t = ta ∨ (t ≠ ta ∧ t ≠ tb))) as Htags.
  { intros t [e He]%elem_of_tags. apply Hmem in He as [[-> ->]|(He & ? & ?)].
    - split; [apply elem_of_tags; eauto | by left].
    - split; [apply elem_of_tags; eauto | by right]. }
  assert (∀ t e x, (t, e) ∈ tl' → x ∈ cs_nets e →
            ∃ t0 e0, (t0, e0) ∈ tl ∧ x ∈ cs_nets e0 ∧ group t0 = group t)
    as Horigin.
  { intros t e x He Hx. apply Hmem in He as [[-> ->]|(He & _ & _)].
    - destruct (Hsub x Hx) as [HxA|HxB].
      + by exists ta, A.
      + by exists tb, B.
    - by exists t, e. }
  set (φ := λ v, if decide (v = tb) then ta else v).
  assert (∀ v e x, (v, e) ∈ tl → x ∈ cs_nets e → x ≠ n →
            ∃ e', (φ v, e') ∈ tl' ∧ x ∈ cs_nets e') as Himage.
  { intros v e x He Hx Hxn. unfold φ.
    destruct (decide (v = tb)) as [->|Hvb].
    - exists N. split; [apply Hmem; by left|].
      apply Hsup; [done|]. right.
      by rewrite (tagged_functional tl tb B e Hnd HB He).
    - destruct (decide (v = ta)) as [->|Hva].
      + exists N. split; [apply Hmem; by left|].
        apply Hsup; [done|]. left.
        by rewrite (tagged_functional tl ta A e Hnd HA He).
      + exists e. split; [apply Hmem; by right|done]. }
  assert (∀ v w, shares tl v w → rtc (shares tl') (φ v) (φ w)) as Hedge.
  { intros v w (e1 & e2 & x & H1 & H2 & Hx & Hx1 & Hx2).
    destruct (decide (φ v = φ w)) as [->|Hne]; [done|].
    assert (x ≠ n) as Hxn.
    { intros ->. apply Hne. unfold φ.
      destruct (Honly _ _ H1 Hx1) as [->| ->],
        (Honly _ _ H2 Hx2) as [->| ->];
        repeat case_decide; congruence. }
    destruct (Himage v e1 x H1 Hx1 Hxn) as (e1' & H1' & Hx1').
    destruct (Himage w e2 x H2 Hx2 Hxn) as (e2' & H2' & Hx2').
    apply rtc_once. by exists e1', e2', x. }
  assert (∀ t, t ∈ tl'.*1 → φ t = t) as Hfix.
  { intros t Ht. destruct (Htags t Ht) as [_ [->|[? ?]]]; unfold φ;
      case_decide; congruence. }
  split; [split; [done|split]|].
  - intros t u (e1 & e2 & x & H1 & H2 & Hx & Hx1 & Hx2).
    destruct (Horigin _ _ _ H1 Hx1) as (t0 & e0 & H0 & Hx0 & <-).
    destruct (Horigin _ _ _ H2 Hx2) as (u0 & f0 & G0 & Gx0 & <-).
    apply Hsep. by exists e0, f0, x.
  - intros t u Ht Hu Hg.
    rewrite <- (Hfix t Ht), <- (Hfix u Hu).
    assert (rtc (shares tl) t u) as Hrtc.
    { apply Hconn; [by apply Htags | by apply Htags | done]. }
    clear Ht Hu Hg. induction Hrtc as [|v w u Hvw _ IH]; [done|].
    etrans; [by apply Hedge | done].
  - intros g. rewrite !list_elem_of_fmap. split.
    + intros [t [-> Ht]]. exists t. split; [done|]. by apply Htags.
    + intros [t [-> [e He]%elem_of_tags]].
      destruct (decide (t = tb)) as [->|Htb].
      * exists ta. split; [done|]. apply elem_of_tags. exists N.
        apply Hmem. by left.
      * destruct (decide (t = ta)) as [->|Hta].
        -- exists ta. split; [done|]. apply elem_of_tags. exists N.
           apply Hmem. by left.
        -- exists t. split; [done|]. apply elem_of_tags. exists e.
           apply Hmem. by right.
Qed.

Lemma tagged_lookup_ne tl p a t e ta A :
  NoDup tl.*1 → tl !! a = Some (ta, A) → tl !! p = Some (t, e) →
  p ≠ a ↔ t ≠ ta.
Proof.
  intros Hnd Ha Hp. split.
  - intros Hne ->. apply Hne.
    eapply (NoDup_lookup tl.*1); [done|..];
      rewrite list_lookup_fmap; [by rewrite Hp | by rewrite Ha].
  - intros Hne ->. congruence.
Qed.

(** One fold on a tagged working list. *)
Lemma tagged_step group n tl cl' :
  grouped group tl → (0 ≤ n)%Z → length (scan n tl.*2) = 2 →
  step n tl.*2 = Ok cl' →
  ∃ tl', tl'.*2 = cl' ∧ grouped group tl'
    ∧ (∀ g, g ∈ group <$> (tl'.*1) ↔ g ∈ group <$> (tl.*1)).
Proof.
  intros Hgr Hn Hlen Hstep. pose proof Hgr as (Hnd & _ & _).
  destruct (scan n tl.*2) as [|[a i] [|[b j] [|? ?]]] eqn:Hs; try done.
  destruct (scan_two_inv _ _ _ _ _ _ Hs) as (A & B & HA & HB & Hi & Hj & Hij).
  rewrite list_lookup_fmap in HA, HB.
  destruct (tl !! a) as [[ta A']|] eqn:Hta; [|done].
  destruct (tl !! b) as [[tb B']|] eqn:Htb; [|done].
  simpl in HA, HB. simplify_eq.
  assert ((ta, A) ∈ tl) as HAin by (by eapply list_elem_of_lookup_2).
  assert ((tb, B) ∈ tl) as HBin by (by eapply list_elem_of_lookup_2).
  assert (n ∈ cs_nets A) as HnA by (by eapply list_elem_of_lookup_2).
  assert (n ∈ cs_nets B) as HnB by (by eapply list_elem_of_lookup_2).
  assert (∀ t e, (t, e) ∈ tl → n ∈ cs_nets e → t = ta ∨ t = tb) as Honly.
  { intros t e [p Hp]%list_elem_of_lookup [k Hk]%list_elem_of_lookup.
    assert ((p, k) ∈ scan n tl.*2) as Hin.
    { apply elem_of_scan. exists e. split; [|done].
      by rewrite list_lookup_fmap, Hp. }
    rewrite Hs in Hin.
    apply elem_of_cons in Hin as [[= -> ->]|Hin]; [left; congruence|].
    apply list_elem_of_singleton in Hin as [= -> ->]. right. congruence. }
  destruct (decide (a = b)) as [<-|Hne].
  - simplify_eq.
    assert (tl.*2 !! a = Some A) as HA by (by rewrite list_lookup_fmap, Hta).
    rewrite (connect_step_self _ _ _ _ _ _ _ _ Hs HA) in Hstep.
    injection Hstep as <-.
    set (N := self_loop_entry innerconnect_s A i j).
    exists (<[a := (ta, N)]> tl). split; [by rewrite list_fmap_insert|].
    apply (grouped_replace group tl _ ta ta A A N n); try done.
    + intros x Hx. left. by eapply elem_of_remove_positions_two; [auto|].
    + intros x Hxn [Hx|Hx]; simpl;
        (rewrite remove_positions_two by auto;
         apply elem_of_delete_other with n;
           [by apply elem_of_delete_other with n
           |by rewrite lookup_remove_second by auto
           |done]).
    + rewrite list_fmap_insert. simpl. rewrite list_insert_id; [done|].
      by rewrite list_lookup_fmap, Hta.
    + intros t e. rewrite elem_of_insert_iff by (by eapply lookup_lt_Some).
      split.
      * intros [[= -> ->]|[p [Hp Hl]]]; [by left|]. right.
        assert (t ≠ ta) by (by eapply (tagged_lookup_ne tl p a)).
        split; [by eapply list_elem_of_lookup_2 | done].
      * intros [[-> ->]|([p Hp]%list_elem_of_lookup & Ht & _)]; [by left|].
        right. exists p. split; [|done].
        by eapply (tagged_lookup_ne tl p a).
  - assert (ta ≠ tb) as Htab.
    { apply not_eq_sym. by eapply (tagged_lookup_ne tl b a). }
    assert (tl.*2 !! a = Some A) as HA by (by rewrite list_lookup_fmap, Hta).
    assert (tl.*2 !! b = Some B) as HB by (by rewrite list_lookup_fmap, Htb).
    assert (∃ first, tl.*2 !! 0 = Some first) as [first H0].
    { apply lookup_lt_is_Some_2. apply lookup_lt_Some in HA. lia. }
    rewrite (connect_step_cross _ _ _ _ _ _ _ _ _ _ _ Hs Hne HA HB H0)
      in Hstep.
    injection Hstep as <-.
    set (N := merged_entry connect_s first A i B j).
    exists (remove_positions [a; b] tl ++ [(ta, N)]). split.
    { rewrite fmap_app. f_equal.
      rewrite !remove_positions_two by done. by rewrite !delete_fmap. }
    assert (∀ t e, (t, e) ∈ remove_positions [a; b] tl
                   ↔ (t, e) ∈ tl ∧ t ≠ ta ∧ t ≠ tb) as Hrest.
    { intros t e. rewrite elem_of_remove_positions. split.
      - intros [p [Hp Hl]]. split; [by eapply list_elem_of_lookup_2|].
        rewrite !elem_of_cons, elem_of_nil in Hp. split.
        + eapply (tagged_lookup_ne tl p a); [done..|tauto].
        + eapply (tagged_lookup_ne tl p b); [done..|tauto].
      - intros ([p Hp]%list_elem_of_lookup & Hta' & Htb').
        exists p. split; [|done].
        rewrite !elem_of_cons, elem_of_nil.
        intros [->|[->|[]]]; congruence. }
    apply (grouped_replace group tl _ ta tb A B N n); try done.
    + intros x [Hx|Hx]%elem_of_app;
        [left | right]; by eapply list_elem_of_delete_inv.
    + intros x Hxn [Hx|Hx]; simpl; apply elem_of_app;
        [left | right]; by apply elem_of_delete_other with n.
    + rewrite fmap_app. simpl. apply NoDup_app. split; [|split].
      * rewrite remove_positions_two by done. rewrite <- !delete_fmap.
        by do 2 apply NoDup_delete.
      * intros t [e He]%elem_of_tags Ht.
        apply list_elem_of_singleton in Ht as ->.
        apply Hrest in He. tauto.
      * apply NoDup_singleton.
    + intros t e. rewrite elem_of_app, Hrest, list_elem_of_singleton.
      split; [intros [?|[= -> ->]]; auto | intros [[-> ->]|?]; auto].
Qed.

(** The whole loop on a tagged working list. *)
Lemma tagged_cascade group ids tl :
  grouped group tl → NoDup ids →
  (∀ n, n ∈ ids → (0 ≤ n)%Z ∧ length (scan n tl.*2) = 2) →
  ∃ tl', (loop ids tl.*2).2 = Ok tl'.*2 ∧ grouped group tl'
    ∧ (∀ g, g ∈ group <$> (tl'.*1) ↔ g ∈ group <$> (tl.*1)).
Proof.
  revert tl. induction ids as [|n ids IH]; intros tl Hgr Hnd Hocc.
  - exists tl. split; [done|]. by split.
  - apply NoDup_cons in Hnd as [Hn Hnd].
    destruct (Hocc n) as [Hn0 Hn2]; [left|].
    destruct (connect_step_two innerconnect_s connect_s n tl.*2 Hn2)
      as [cl1 Hstep].
    destruct (tagged_step group n tl cl1 Hgr Hn0 Hn2 Hstep)
      as (tl1 & <- & Hgr1 & Hlab1).
    destruct (connect_step_counts innerconnect_s connect_s n _ _ Hn2 Hstep)
      as (Hcnt & _ & _).
    destruct (IH tl1 Hgr1 Hnd) as (tl' & Hloop & Hgr' & Hlab').
    { intros m Hm. destruct (Hocc m) as [Hm0 Hm2]; [by right|].
      split; [done|]. specialize (Hcnt m).
      rewrite decide_False in Hcnt by (intros ->; done).
      simpl in Hcnt. by rewrite <- Hcnt. }
    exists tl'. rewrite (cascade_cons_Ok _ _ _ _ _ _ Hstep). simpl.
    split; [done|]. split; [done|].
    intros g. by rewrite Hlab', Hlab1.
Qed.

(** Once no internal net id is left, entries with one label are one
    entry. *)
Lemma grouped_terminal group tl :
  grouped group tl →
  (∀ t e x, (t, e) ∈ tl → x ∈ cs_nets e → (x < 0)%Z) →
  NoDup (group <$> (tl.*1)).
Proof.
  intros (Hnd & _ & Hconn) Hneg.
  apply NoDup_fmap_2_strong; [|done].
  intros t u Ht Hu Hg.
  destruct (rtc_inv _ _ (Hconn t u Ht Hu Hg)) as [->|(v & Hsh & _)]; [done|].
  destruct Hsh as (e1 & e2 & x & H1 & _ & Hx & Hx1 & _).
  apply (Hneg _ _ _ H1) in Hx1. lia.
Qed.

End Groups.

Lemma enumerate_from_fst {A} k (l : list A) :
  (enumerate_from k l).*1 = seq k (length l).
Proof.
  revert k. induction l as [|x l IH]; intros k; [done|].
  simpl. f_equal. apply IH.
Qed.

Lemma enumerate_from_snd {A} k (l : list A) : (enumerate_from k l).*2 = l.
Proof.
  revert k. induction l as [|x l IH]; intros k; [done|].
  simpl. f_equal. apply IH.
Qed.

Lemma elem_of_enumerate {A} (l : list A) i x :
  (i, x) ∈ enumerate l ↔ l !! i = Some x.
Proof.
  unfold enumerate. rewrite elem_of_enumerate_from, Nat.sub_0_r.
  split; [tauto | split; [lia | done]].
Qed.

(** * What the cascade returns *)

Section CascadeResult.

Context {Freq SMat Model : Type}.
Variable get_s_parameters : ComponentInstance Model → Freq * SMat.
Variable innerconnect_s : SMat → nat → nat → SMat.
Variable connect_s : SMat → nat → SMat → nat → SMat.
Abbreviation entry := (ComponentSimulation Freq SMat).
Abbreviation loop := (cascade innerconnect_s connect_s).
Abbreviation run := (connect_circuit get_s_parameters innerconnect_s connect_s).
Abbreviation entries := (working_entries get_s_parameters).
Implicit Types (nl : ObjectModelNetlist Model) (group : nat → nat).

Lemma working_entries_lookup nl p e :
  entries nl !! p = Some e →
  ∃ c, component_list nl !! p = Some c ∧ cs_nets e = nets c.
Proof.
  unfold working_entries. rewrite list_lookup_fmap.
  destruct (component_list nl !! p) as [c|]; [|done].
  intros [= <-]. exists c. split; [done|].
  unfold ComponentSimulation_init. by destruct (get_s_parameters c).
Qed.

Lemma working_entries_lookup_2 nl p c :
  component_list nl !! p = Some c →
  ∃ e, entries nl !! p = Some e ∧ cs_nets e = nets c.
Proof.
  intros Hc. unfold working_entries. rewrite list_lookup_fmap, Hc. simpl.
  eexists. split; [done|].
  unfold ComponentSimulation_init. by destruct (get_s_parameters c).
Qed.

(** A grouping of the components is a grouping of the working entries
    they start as, tagged by position. *)
Lemma grouped_working_entries group nl :
  grouping group (component_list nl) →
  grouped group (enumerate (entries nl)).
Proof.
  intros [Hsep Hconn].
  assert (∀ t u, shares (enumerate (entries nl)) t u
                 ↔ linked (component_list nl) t u) as Hiff.
  { intros t u. split.
    - intros (e1 & e2 & x & H1 & H2 & Hx & Hx1 & Hx2).
      apply elem_of_enumerate in H1, H2.
      apply working_entries_lookup in H1 as (A & HA & E1).
      apply working_entries_lookup in H2 as (B & HB & E2).
      exists A, B, x. by rewrite <- E1, <- E2.
    - intros (A & B & x & HA & HB & Hx & Hx1 & Hx2).
      apply working_entries_lookup_2 in HA as (e1 & H1 & E1).
      apply working_entries_lookup_2 in HB as (e2 & H2 & E2).
      exists e1, e2, x. rewrite E1, E2.
      by rewrite !elem_of_enumerate. }
  split; [|split].
  - unfold enumerate. rewrite enumerate_from_fst. apply NoDup_seq.
  - intros t u Hsh. apply Hsep. by apply Hiff.
  - unfold enumerate at 1 2. rewrite enumerate_from_fst.
    intros t u Ht%elem_of_seq Hu%elem_of_seq Hg.
    unfold working_entries in Ht, Hu. rewrite length_fmap in Ht, Hu.
    eapply rtc_subrel; [|apply Hconn; [lia|lia|done]].
    intros v w. apply Hiff.
Qed.

(** The loop on a well-formed netlist: every id from 0 to [net_count]
    occurs on exactly two ports and no larger id occurs. The loop
    completes, the terminal entries carry negative ids only, and there is
    one terminal entry per group. *)
Lemma cascade_terminal group nl :
  (∀ n, (0 ≤ n ≤ net_count nl)%Z → length (scan n (entries nl)) = 2) →
  (∀ c x, c ∈ component_list nl → x ∈ nets c → (x ≤ net_count nl)%Z) →
  grouping group (component_list nl) →
  ∃ cl, (loop (cascade_ids nl) (entries nl)).2 = Ok cl
    ∧ Forall (λ e, Forall (λ x, (x < 0)%Z) (cs_nets e)) cl
    ∧ length cl = group_count group (component_list nl).
Proof.
  intros Htwice Hmax Hgr.
  pose proof (grouped_working_entries group nl Hgr) as Hgr0.
  assert ((enumerate (entries nl)).*2 = entries nl) as E2
    by apply enumerate_from_snd.
  destruct (tagged_cascade innerconnect_s connect_s group (cascade_ids nl)
              (enumerate (entries nl)) Hgr0)
    as (tl & Hloop & Hgr' & Hlab).
  { apply NoDup_seqZ. }
  { intros n Hn%elem_of_seqZ. rewrite E2. split; [lia|].
    apply Htwice. lia. }
  rewrite E2 in Hloop.
  destruct (cascade_completes innerconnect_s connect_s (cascade_ids nl)
              (entries nl)) as (cl' & Hloop' & Hcnt & _ & _).
  { apply NoDup_seqZ. }
  { intros n Hn%elem_of_seqZ. apply Htwice. lia. }
  rewrite Hloop in Hloop'. injection Hloop' as <-.
  assert (∀ e x, e ∈ tl.*2 → x ∈ cs_nets e → (x < 0)%Z) as Hneg.
  { intros e x [p Hp]%list_elem_of_lookup [k Hk]%list_elem_of_lookup.
    destruct (decide (x < 0)%Z) as [|Hx]; [done|]. exfalso.
    assert ((p, k) ∈ scan x tl.*2) as Hin
      by (apply elem_of_scan; eauto).
    assert (length (scan x tl.*2) = 0) as Hzero; [|
      destruct (scan x tl.*2); [by apply elem_of_nil in Hin | done]].
    rewrite Hcnt. case_decide as Hids; [done|].
    assert (scan x (entries nl) = []) as ->; [|done].
    destruct (scan x (entries nl)) as [|[q m] sc] eqn:Es; [done|]. exfalso.
    assert ((q, m) ∈ scan x (entries nl)) as Hq by (rewrite Es; left).
    apply elem_of_scan in Hq as (e0 & He0 & Hm).
    apply working_entries_lookup in He0 as (c & Hc & Ec).
    apply Hids, elem_of_seqZ. split; [lia|].
    assert (x ≤ net_count nl)%Z; [|lia].
    apply (Hmax c); [by eapply list_elem_of_lookup_2|].
    rewrite <- Ec. by eapply list_elem_of_lookup_2. }
  exists tl.*2. split; [done|]. split.
  - apply Forall_forall. intros e He. apply Forall_forall. intros x Hx.
    by apply (Hneg e).
  - assert (NoDup (group <$> (tl.*1))) as Hnd.
    { apply grouped_terminal; [done|]. intros t e x Hte Hx.
      apply (Hneg e); [|done]. apply list_elem_of_fmap. by exists (t, e). }
    unfold group_count.
    rewrite length_fmap, <- (length_fmap fst), <- (length_fmap group).
    apply Permutation_length, NoDup_Permutation;
      [done | apply NoDup_remove_dups|].
    intros g. rewrite Hlab, elem_of_remove_dups.
    unfold enumerate. rewrite enumerate_from_fst.
    unfold working_entries. by rewrite length_fmap.
Qed.

(** C1 (as the code has it): on a netlist with a positive [net_count] in
    which every id from 0 to [net_count] occurs on exactly two ports and
    no larger id occurs, the cascade runs to completion; it leaves one
    terminal working entry per connected group of components, each
    carrying negative net ids only; and [connect_circuit] returns the
    first of these entries alone, together with the netlist's
    external-component list. *)
Theorem connect_circuit_returns_first_terminal group nl :
  (0 < net_count nl)%Z →
  (∀ n, (0 ≤ n ≤ net_count nl)%Z → length (scan n (entries nl)) = 2) →
  (∀ c x, c ∈ component_list nl → x ∈ nets c → (x ≤ net_count nl)%Z) →
  grouping group (component_list nl) →
  ∃ first rest,
    (loop (cascade_ids nl) (entries nl)).2 = Ok (first :: rest)
    ∧ Forall (λ e, Forall (λ x, (x < 0)%Z) (cs_nets e)) (first :: rest)
    ∧ length (first :: rest) = group_count group (component_list nl)
    ∧ run nl = Ok (Some (first, get_external_components nl)).
Proof.
  intros Hpos Htwice Hmax Hgr.
  destruct (cascade_terminal group nl Htwice Hmax Hgr)
    as (cl & Hloop & Hneg & Hlen).
  destruct (cascade_completes innerconnect_s connect_s (cascade_ids nl)
              (entries nl)) as (cl' & Hloop' & _ & _ & Hne).
  { apply NoDup_seqZ. }
  { intros n Hn%elem_of_seqZ. apply Htwice. lia. }
  rewrite Hloop in Hloop'. injection Hloop' as <-.
  destruct cl as [|first rest].
  - exfalso. apply Hne; [|done]. intros Hnil.
    specialize (Htwice 0%Z). rewrite Hnil in Htwice.
    discriminate Htwice. lia.
  - exists first, rest. repeat split; try done.
    unfold connect_circuit. rewrite decide_False by lia.
    by rewrite Hloop.
Qed.

End CascadeResult.

(** C1, as stated, fails: on [nl_apart] (two components sharing no net id)
    the loop ends with two terminal entries and [connect_circuit] returns
    the first one only; on [nl_bare] (two components without internal
    nets, counter at 0) it returns nothing at all. *)
Lemma second_terminal_entry_not_returned :
  ∃ e1 e2,
    (Sym.cascade [0; 1]%Z
       (working_entries Sym.get_s_parameters Sym.nl_apart)).2 = Ok [e1; e2]
    ∧ cs_nets e1 = [-1]%Z ∧ cs_nets e2 = [-2]%Z
    ∧ Sym.connect_circuit Sym.nl_apart
      = Ok (Some (e1, component_list Sym.nl_apart))
    ∧ Sym.connect_circuit Sym.nl_bare = Ok None.
Proof. do 2 eexists. repeat split; reflexivity. Qed.

Lemma nl_apart_twice n :
  (0 ≤ n ≤ net_count Sym.nl_apart)%Z →
  length (scan n (working_entries Sym.get_s_parameters Sym.nl_apart)) = 2.
Proof.
  simpl. intros Hn. assert (n = 0 ∨ n = 1)%Z as [-> | ->] by lia; reflexivity.
Qed.

Lemma nl_apart_bound c x :
  c ∈ component_list Sym.nl_apart → x ∈ nets c →
  (x ≤ net_count Sym.nl_apart)%Z.
Proof.
  simpl. intros Hc Hx.
  repeat (apply elem_of_cons in Hc as [->|Hc]); simpl in Hx;
    [| |by apply elem_of_nil in Hc];
    repeat (apply elem_of_cons in Hx as [->|Hx]);
    try lia; by apply elem_of_nil in Hx.
Qed.

Lemma nl_apart_grouping :
  grouping (λ p, p) (component_list Sym.nl_apart).
Proof.
  split.
  - intros p q (A & B & x & HA & HB & Hx & HxA & HxB). simpl in HA, HB.
    destruct p as [|[|p]], q as [|[|q]]; simplify_eq/=; try done;
      repeat (apply elem_of_cons in HxA as [->|HxA]);
      try (by apply elem_of_nil in HxA); try lia;
      repeat (apply elem_of_cons in HxB as [HxB|HxB]);
      try (by apply elem_of_nil in HxB); lia.
  - intros p q _ _ ->. done.
Qed.

Lemma connect_circuit_returns_first_terminal_witness :
  ∃ first rest,
    (Sym.cascade (cascade_ids Sym.nl_apart)
       (working_entries Sym.get_s_parameters Sym.nl_apart)).2
    = Ok (first :: rest)
    ∧ Forall (λ e, Forall (λ x, (x < 0)%Z) (cs_nets e)) (first :: rest)
    ∧ length (first :: rest) = 2
    ∧ Sym.connect_circuit Sym.nl_apart
      = Ok (Some (first, get_external_components Sym.nl_apart)).
Proof.
  apply (connect_circuit_returns_first_terminal Sym.get_s_parameters
           Sym.Inner Sym.Conn (λ p, p) Sym.nl_apart).
  - simpl. lia.
  - apply nl_apart_twice.
  - apply nl_apart_bound.
  - apply nl_apart_grouping.
Defined.

(** * Numeric literals *)

Lemma take_digits_app ds rest :
  Forall (λ c, is_digit c = true) ds →
  match rest with c :: _ => is_digit c = false | [] => True end →
  take_digits (ds ++ rest) = (ds, rest).
Proof.
  intros Hds Hrest. induction Hds as [|c ds Hc _ IH]; simpl.
  - destruct rest as [|c rest]; [done|]. simpl. by rewrite Hrest.
  - by rewrite Hc, IH.
Qed.

Lemma take_digits_sound s ds rest :
  take_digits s = (ds, rest) →
  s = ds ++ rest ∧ Forall (λ c, is_digit c = true) ds.
Proof.
  revert ds rest. induction s as [|c s IH]; intros ds rest; simpl.
  - intros [= <- <-]. by split.
  - destruct (is_digit c) eqn:Hc.
    + destruct (take_digits s) as [ds' rest'].
      intros [= <- <-]. destruct (IH ds' rest' eq_refl) as [-> Hds].
      split; [done|]. by constructor.
    + intros [= <- <-]. by split.
Qed.

Lemma parse_sign_print sg s c :
  is_digit c = true → parse_sign (print_sign sg ++ c :: s) = (sg, c :: s).
Proof.
  intros Hc. destruct sg; simpl; [|done..].
  rewrite !decide_False; [done|..]; intros ->; discriminate Hc.
Qed.

Lemma parse_sign_sound s sg rest :
  parse_sign s = (sg, rest) → s = print_sign sg ++ rest.
Proof.
  destruct s as [|c s]; simpl; [by intros [= <- <-]|].
  repeat case_decide; intros [= <- <-]; by subst.
Qed.

(** Parsing a printed decimal number gives the number back, whatever
    follows it, as long as what follows cannot be taken for more of it. *)
Lemma parse_decimal_print d rest :
  well_formed d →
  match rest with
  | c :: _ => is_digit c = false ∧ (dfrac d = None → c ≠ "."%char)
  | [] => True
  end →
  parse_decimal (print_decimal d ++ rest) = Some (d, rest).
Proof.
  intros (Hne & Hint & Hfrac) Hrest.
  destruct d as [sg ds frac]. simpl in *.
  destruct ds as [|c0 ds]; [done|].
  unfold parse_decimal, print_decimal. simpl dsign. simpl dint. simpl dfrac.
  rewrite <- !app_assoc, <- app_comm_cons.
  rewrite parse_sign_print by (by inversion Hint).
  destruct frac as [fs|].
  - rewrite app_comm_cons, take_digits_app by done.
    rewrite <- app_comm_cons. rewrite decide_True by done.
    rewrite take_digits_app; [done|by apply Hfrac|].
    destruct rest as [|c rest]; [done|]. by destruct Hrest.
  - simpl app at 2.
    rewrite app_comm_cons, take_digits_app; [|done|].
    + destruct rest as [|c rest]; [done|].
      destruct Hrest as [_ Hpt]. by rewrite decide_False by auto.
    + destruct rest as [|c rest]; [done|]. by destruct Hrest.
Qed.

Lemma parse_decimal_sound s d rest :
  parse_decimal s = Some (d, rest) →
  s = print_decimal d ++ rest
  ∧ Forall (λ c, is_digit c = true) (dint d)
  ∧ ∀ fs, dfrac d = Some fs → Forall (λ c, is_digit c = true) fs.
Proof.
  unfold parse_decimal.
  destruct (parse_sign s) as [sg s1] eqn:Hsg.
  apply parse_sign_sound in Hsg as ->.
  destruct (take_digits s1) as [ds s2] eqn:Hds.
  apply take_digits_sound in Hds as [-> Hds].
  destruct ds as [|c0 ds]; [done|].
  destruct s2 as [|c s3].
  - intros [= <- <-]. unfold print_decimal. simpl.
    rewrite !app_nil_r. split; [done|]. split; [done|]. done.
  - case_decide as Hc.
    + subst c. destruct (take_digits s3) as [fs s4] eqn:Hfs.
      apply take_digits_sound in Hfs as [-> Hfs].
      intros [= <- <-]. unfold print_decimal. simpl.
      split; [by repeat (rewrite <- app_assoc; simpl)|]. split; [done|].
      by intros fs' [= <-].
    + intros [= <- <-]. unfold print_decimal. simpl.
      rewrite !app_nil_r.
      split; [by repeat (rewrite <- app_assoc; simpl)|]. split; [done|]. done.
Qed.

Lemma count_points_app s1 s2 :
  count_points (s1 ++ s2) = count_points s1 + count_points s2.
Proof. unfold count_points. by rewrite filter_app, length_app. Qed.

Lemma count_points_digits ds :
  Forall (λ c, is_digit c = true) ds → count_points ds = 0.
Proof.
  unfold count_points. induction 1 as [|c ds Hc _ IH]; [done|].
  rewrite filter_cons. case_decide as Hp; [|done].
  subst c. discriminate Hc.
Qed.

Lemma count_points_sign sg : count_points (print_sign sg) = 0.
Proof. by destruct sg. Qed.

Lemma count_points_decimal d :
  Forall (λ c, is_digit c = true) (dint d) →
  (∀ fs, dfrac d = Some fs → Forall (λ c, is_digit c = true) fs) →
  count_points (print_decimal d) ≤ 1.
Proof.
  intros Hint Hfrac. unfold print_decimal.
  rewrite !count_points_app, count_points_sign.
  rewrite (count_points_digits (dint d)) by done.
  destruct (dfrac d) as [fs|]; [|cbn; lia].
  change ("."%char :: fs) with (["."%char] ++ fs).
  rewrite count_points_app, (count_points_digits fs) by auto.
  change (count_points ["."%char]) with 1. lia.
Qed.

Lemma parse_exponent_points s x :
  parse_exponent s = Some x → count_points s = 0.
Proof.
  destruct s as [|c s1]; [done|]. simpl.
  case_decide as Hc; [|done].
  destruct (parse_sign s1) as [sg s2] eqn:Hsg.
  apply parse_sign_sound in Hsg as ->.
  destruct (take_digits s2) as [ds s3] eqn:Hds.
  apply take_digits_sound in Hds as [-> Hds].
  destruct ds as [|c0 ds]; [done|]. destruct s3; [|done]. intros _.
  change (c :: print_sign sg ++ (c0 :: ds) ++ [])
    with ([c] ++ print_sign sg ++ (c0 :: ds) ++ []).
  rewrite !count_points_app, count_points_sign.
  rewrite (count_points_digits (c0 :: ds)) by done.
  unfold count_points. rewrite filter_cons.
  rewrite decide_False; [done|]. by destruct Hc as [-> | ->].
Qed.

(** An accepted literal has at most one decimal point. *)
Lemma str2float_Ok_points num v :
  str2float num = Ok v → count_points (list_ascii_of_string num) ≤ 1.
Proof.
  unfold str2float.
  destruct (parse_decimal (list_ascii_of_string num)) as [[d rest]|] eqn:Hp;
    [|done].
  apply parse_decimal_sound in Hp as (-> & Hint & Hfrac).
  pose proof (count_points_decimal d Hint Hfrac) as Hd.
  rewrite count_points_app.
  destruct rest as [|c [|c' rest]].
  - intros _. change (count_points []) with 0. lia.
  - destruct (SI_table c) as [k|] eqn:Hk; [|done]. intros _.
    assert (count_points [c] = 0) as ->; [|lia].
    unfold count_points. rewrite filter_cons.
    rewrite decide_False; [done|]. by intros ->.
  - destruct (parse_exponent (c :: c' :: rest)) as [x|] eqn:Hx; [|done].
    intros _. rewrite (parse_exponent_points _ _ Hx). lia.
Qed.

Lemma str2float_Raise num e : str2float num = Raise e → e = ValueError.
Proof.
  unfold str2float.
  destruct (parse_decimal _) as [[d [|c [|c' rest]]]|]; try congruence.
  - destruct (SI_table c); congruence.
  - destruct (parse_exponent _); congruence.
Qed.

Lemma SI_table_letter c k :
  SI_table c = Some k → is_digit c = false ∧ c ≠ "."%char.
Proof.
  unfold SI_table.
  repeat (destruct (decide _) as [->|?]; [intros _; by split|]). done.
Qed.

Lemma letter_not_digit c :
  is_letter c = true → is_digit c = false ∧ c ≠ "."%char.
Proof.
  intros Hc. split; [|by intros ->].
  destruct (is_digit c) eqn:Hd; [|done]. exfalso.
  unfold is_letter, is_digit in *.
  apply andb_true_iff in Hd as [_ Hd%Nat.leb_le].
  apply orb_true_iff in Hc as [Hc|Hc];
    apply andb_true_iff in Hc as [Hc%Nat.leb_le _]; lia.
Qed.

(** [str2float] on printed decimal numbers, in terms of the parser's own
    reading of them. *)
Lemma str2float_print_decimal :
  (∀ d, well_formed d →
     (∀ c k, SI_table c = Some k →
        str2float (string_of_list_ascii (print_decimal d ++ [c]))
        = Ok (Qmult (decimal_value d) (pow10 k)))
     ∧ str2float (string_of_list_ascii (print_decimal d))
       = Ok (decimal_value d)
     ∧ (∀ c sg ds, c = "e"%char ∨ c = "E"%char → ds ≠ [] →
        Forall (λ c, is_digit c = true) ds →
        str2float
          (string_of_list_ascii (print_decimal d ++ c :: print_sign sg ++ ds))
        = Ok (Qmult (decimal_value d) (pow10 (signed sg (digits_value ds)))))
     ∧ (∀ c, is_letter c = true → SI_table c = None →
        str2float (string_of_list_ascii (print_decimal d ++ [c]))
        = Raise ValueError))
  ∧ (∀ num, 2 ≤ count_points (list_ascii_of_string num) →
       str2float num = Raise ValueError)
  ∧ (SI_table <$> ["f"; "p"; "n"; "u"; "m"; "c"; "k"; "M"; "G"; "T"]%char)
    = Some <$> [-15; -12; -9; -6; -3; -2; 3; 6; 9; 12]%Z.
Proof.
  split; [|split; [|reflexivity]].
  - intros d Hd. split; [|split; [|split]].
    + intros c k Hk. unfold str2float.
      rewrite list_ascii_of_string_of_list_ascii.
      rewrite parse_decimal_print; [by rewrite Hk|done|].
      destruct (SI_table_letter c k Hk). by split.
    + unfold str2float. rewrite list_ascii_of_string_of_list_ascii.
      rewrite <- (app_nil_r (print_decimal d)).
      by rewrite parse_decimal_print.
    + intros c sg ds Hc Hne Hds. unfold str2float.
      rewrite list_ascii_of_string_of_list_ascii.
      rewrite parse_decimal_print;
        [|done|by destruct Hc as [-> | ->]].
      destruct ds as [|c0 ds]; [done|].
      assert (parse_exponent (c :: print_sign sg ++ c0 :: ds)
              = Some (signed sg (digits_value (c0 :: ds)))) as Hx.
      { unfold parse_exponent. rewrite decide_True by done.
        rewrite parse_sign_print by (by inversion Hds).
        rewrite <- (app_nil_r (c0 :: ds)) at 1.
        by rewrite take_digits_app. }
      destruct (print_sign sg ++ c0 :: ds) as [|c1 l] eqn:E.
      { by destruct sg. }
      by rewrite Hx.
    + intros c Hc Hk. unfold str2float.
      rewrite list_ascii_of_string_of_list_ascii.
      rewrite parse_decimal_print; [by rewrite Hk|done|].
      destruct (letter_not_digit c Hc). by split.
  - intros num Hnum. destruct (str2float num) as [v|e] eqn:E.
    + apply str2float_Ok_points in E. lia.
    + by rewrite (str2float_Raise _ _ E).
Qed.

(** The prototype [strToSci] knows three suffixes only: on any other
    last character, a digit of a plain number included, it returns
    nothing. *)
Lemma strToSci_other_suffix {Float : Type}
    (py_float : list ascii → result Float) float_mul float_exp10
    number prefix ex v :
  list_ascii_of_string number = prefix ++ [ex] →
  ex ≠ "m"%char → ex ≠ "u"%char → ex ≠ "n"%char →
  strToSci py_float float_mul float_exp10 number ≠ Ok v.
Proof.
  intros Hnum Hm Hu Hn. unfold strToSci.
  rewrite Hnum, reverse_app. simpl.
  destruct (py_float _) as [base|e]; [|done]. simpl.
  by rewrite !decide_False by done.
Qed.

(** * More of the cascade *)

Lemma filter_Forall_id {A} (P : A → Prop) `{!∀ x, Decision (P x)}
    (l : list A) :
  Forall P l → filter P l = l.
Proof.
  induction 1 as [|x l Hx _ IH]; [done|].
  by rewrite filter_cons, decide_True, IH by done.
Qed.

Lemma filter_Forall_nil {A} (P : A → Prop) `{!∀ x, Decision (P x)}
    (l : list A) :
  Forall (λ x, ¬ P x) l → filter P l = [].
Proof.
  induction 1 as [|x l Hx _ IH]; [done|].
  by rewrite filter_cons, decide_False, IH by done.
Qed.

Section Pairing.

Context {Freq SMat : Type}.
Abbreviation entry := (ComponentSimulation Freq SMat).

Lemma scan_from_ge k n (cl : list entry) a i :
  (a, i) ∈ scan_from k n cl → k ≤ a.
Proof. intros H. by apply elem_of_scan_from in H as [? _]. Qed.

Lemma comp_idx_head k n (cl : list entry) :
  head (filtered_comps_from k n cl).*1 = head (scan_from k n cl).*1.
Proof.
  revert k. induction cl as [|e cl IH]; intros k; [done|].
  rewrite scan_from_cons, filtered_comps_from_cons.
  destruct (positions n (cs_nets e)) as [|p ps] eqn:Hp.
  - apply positions_nil_iff in Hp. rewrite decide_False by done.
    simpl. apply IH.
  - assert (n ∈ cs_nets e) as Hin.
    { destruct (decide (n ∈ cs_nets e)) as [|Hn]; [done|].
      apply positions_nil_iff in Hn. congruence. }
    by rewrite decide_True by done.
Qed.

Lemma filter_other_scan_from k n (cl : list entry) a :
  a < k →
  filter (λ c, c ≠ a) (scan_from k n cl).*1 = (scan_from k n cl).*1.
Proof.
  intros Hak. apply filter_Forall_id, Forall_forall.
  intros c Hc. apply list_elem_of_fmap in Hc as [[c' i] [-> Hc]].
  apply scan_from_ge in Hc. simpl. lia.
Qed.

Lemma comp_idx_second k n (cl : list entry) a i sc :
  scan_from k n cl = (a, i) :: sc →
  ∃ tl, (filtered_comps_from k n cl).*1 = a :: tl
        ∧ head tl = head (filter (λ c, c ≠ a) (scan_from k n cl).*1).
Proof.
  revert k. induction cl as [|e cl IH]; intros k; [done|].
  rewrite scan_from_cons, filtered_comps_from_cons.
  destruct (positions n (cs_nets e)) as [|p ps] eqn:Hp.
  - apply positions_nil_iff in Hp. rewrite decide_False by done.
    simpl. apply IH.
  - assert (n ∈ cs_nets e) as Hin.
    { destruct (decide (n ∈ cs_nets e)) as [|Hn]; [done|].
      apply positions_nil_iff in Hn. congruence. }
    rewrite decide_True by done. rewrite !fmap_cons. simpl.
    intros [= <- <- <-].
    exists (filtered_comps_from (S k) n cl).*1. split; [done|].
    rewrite comp_idx_head, fmap_app, filter_cons, decide_False by naive_solver.
    rewrite filter_app, (filter_other_scan_from (S k)) by lia.
    rewrite (filter_Forall_nil _ ((λ i, (k, i)) <$> ps).*1); [done|].
    apply Forall_forall. intros c Hc.
    apply list_elem_of_fmap in Hc as [[c' i] [-> Hc]].
    apply list_elem_of_fmap in Hc as [j [[= -> ->] _]]. simpl. naive_solver.
Qed.

(** X1: whenever a net id is on two ports or more, [_match_ports]
    returns the first two port indices of the scan, the entry of the
    first of them, and as second entry the first other entry that holds
    the id, or the same entry when no other does. With the id twice on
    the first entry and again on a later one, the second port index is
    therefore paired with an entry it was not read from. *)
Theorem match_ports_pairing n (cl : list entry) a i b j rest :
  scan n cl = (a, i) :: (b, j) :: rest →
  _match_ports n cl
  = Ok (a, i, default a (head (filter (λ c, c ≠ a) (scan n cl).*1)), j).
Proof.
  intros Hs. unfold _match_ports. cbv zeta.
  rewrite net_idx_scan. fold (scan n cl).
  destruct (comp_idx_second 0 n cl a i _ Hs) as (tl & Hc & Hh).
  fold (scan n cl) in Hh. rewrite Hc, <- Hh, Hs.
  destruct tl as [|c tl]; simpl; by rewrite ?decide_True by done.
Qed.

End Pairing.

(** A net id twice on the first entry and once, on port 0, on the
    second: the second entry is paired on its port 1, an external one. *)
Lemma match_ports_pairing_witness :
  _match_ports 0 [Sym.sim [0; 0; -1]%Z [193]%Z 1; Sym.sim [0; -2]%Z [193]%Z 2]
  = Ok (0, 0, 1, 1).
Proof.
  apply (match_ports_pairing 0
           [Sym.sim [0; 0; -1]%Z [193]%Z 1; Sym.sim [0; -2]%Z [193]%Z 2]
           0 0 0 1 [(1, 0)]).
  reflexivity.
Defined.

(** ** The ids a run keeps *)

Lemma permutation_of_counts (l1 l2 : list Z) :
  (∀ m, length (filter (λ x, x = m) l1) = length (filter (λ x, x = m) l2)) →
  l1 ≡ₚ l2.
Proof.
  revert l2. induction l1 as [|x l1 IH]; intros l2 H.
  - destruct l2 as [|y l2]; [done|].
    specialize (H y). rewrite filter_cons, decide_True in H by done.
    simpl in H. lia.
  - assert (x ∈ l2) as Hx.
    { specialize (H x). rewrite filter_cons, decide_True in H by done.
      destruct (filter (λ y, y = x) l2) as [|y ?] eqn:E; [simpl in H; lia|].
      assert (y ∈ filter (λ y, y = x) l2) as Hy by (rewrite E; left).
      apply list_elem_of_filter in Hy as [-> ?]. done. }
    apply list_elem_of_split in Hx as (a & b & ->).
    rewrite <- Permutation_middle. constructor. apply IH. intros m.
    specialize (H m). rewrite filter_app, !filter_cons, length_app in H.
    rewrite filter_app, length_app.
    destruct (decide (x = m)); simpl in H; lia.
Qed.

Lemma filter_eq_filter (Q : Z → Prop) `{!∀ x, Decision (Q x)}
    (l : list Z) m :
  length (filter (λ x, x = m) (filter Q l))
  = if decide (Q m) then length (filter (λ x, x = m) l) else 0.
Proof.
  induction l as [|x l IH]; [by destruct (decide (Q m))|].
  rewrite (filter_cons Q).
  destruct (decide (Q x)) as [Hx|Hx].
  - rewrite !filter_cons. destruct (decide (x = m)) as [->|].
    + rewrite decide_True in IH |- * by done. simpl. by rewrite IH.
    + done.
  - rewrite IH, filter_cons. destruct (decide (x = m)) as [->|]; [|done].
    by rewrite !decide_False by done.
Qed.

Section Kept.

Context {Freq SMat Model : Type}.
Variable get_s_parameters : ComponentInstance Model → Freq * SMat.
Variable innerconnect_s : SMat → nat → nat → SMat.
Variable connect_s : SMat → nat → SMat → nat → SMat.
Abbreviation entry := (ComponentSimulation Freq SMat).
Abbreviation step := (connect_step innerconnect_s connect_s).
Abbreviation loop := (cascade innerconnect_s connect_s).
Abbreviation run := (connect_circuit get_s_parameters innerconnect_s connect_s).
Abbreviation entries := (working_entries get_s_parameters).
Implicit Types (nl : ObjectModelNetlist Model) (cl : list entry).

Lemma length_scan_bind m cl :
  length (scan m cl) = length (filter (λ x, x = m) (cl ≫= cs_nets)).
Proof.
  rewrite length_scan. induction cl as [|e cl IH]; [done|].
  rewrite fmap_cons, bind_cons, filter_app, length_app. simpl.
  by rewrite IH.
Qed.

Lemma cascade_other_ids ids cl :
  NoDup ids →
  (∀ n, n ∈ ids → length (scan n cl) = 2) →
  ∃ cl', (loop ids cl).2 = Ok cl'
    ∧ (cl' ≫= cs_nets) ≡ₚ filter (λ x, x ∉ ids) (cl ≫= cs_nets)
    ∧ port_count cl = 2 * length ids + port_count cl'.
Proof.
  intros Hnd Htwo.
  destruct (cascade_completes innerconnect_s connect_s ids cl Hnd Htwo)
    as (cl' & Hrun & Hocc & Hports & _).
  exists cl'. split; [done|]. split; [|done].
  apply permutation_of_counts. intros m.
  rewrite <- length_scan_bind, Hocc, filter_eq_filter, <- length_scan_bind.
  destruct (decide (m ∈ ids)).
  - by rewrite decide_False by naive_solver.
  - by rewrite decide_True by done.
Qed.

Lemma working_entries_nets nl :
  entries nl ≫= cs_nets = component_list nl ≫= nets.
Proof.
  unfold working_entries. induction (component_list nl) as [|c l IH]; [done|].
  rewrite fmap_cons, !bind_cons, IH. f_equal.
  unfold ComponentSimulation_init. by destruct (get_s_parameters c).
Qed.

Lemma external_ids_filter nl :
  (∀ c x, c ∈ component_list nl → x ∈ nets c → (x ≤ net_count nl)%Z) →
  filter (λ x, x ∉ cascade_ids nl) (component_list nl ≫= nets)
  = filter (λ x, (x < 0)%Z) (component_list nl ≫= nets).
Proof.
  intros Hb. apply filter_agree. intros x Hx.
  apply list_elem_of_bind in Hx as (c & Hx & Hc).
  specialize (Hb c x Hc Hx). unfold cascade_ids.
  rewrite elem_of_seqZ. lia.
Qed.

Lemma cascade_ids_twice nl :
  (∀ n, (0 ≤ n ≤ net_count nl)%Z → length (scan n (entries nl)) = 2) →
  NoDup (cascade_ids nl)
  ∧ ∀ n, n ∈ cascade_ids nl → length (scan n (entries nl)) = 2.
Proof.
  intros H. split; [apply NoDup_seqZ|].
  intros n Hn. apply H. unfold cascade_ids in Hn.
  apply elem_of_seqZ in Hn. lia.
Qed.

(** X2: in a netlist with a positive counter whose ids from 0 to the
    counter are each on exactly two ports and which holds no larger id,
    the loop of [connect_circuit] runs to its end and [connect_circuit]
    returns the first entry left; the entries left hold, all together,
    exactly the negative ids of the components, each as often as the
    components do; two ports are gone for every id looked up. *)
Theorem terminal_entries_keep_external_ids nl :
  (0 < net_count nl)%Z →
  (∀ n, (0 ≤ n ≤ net_count nl)%Z → length (scan n (entries nl)) = 2) →
  (∀ c x, c ∈ component_list nl → x ∈ nets c → (x ≤ net_count nl)%Z) →
  ∃ first rest,
    (loop (cascade_ids nl) (entries nl)).2 = Ok (first :: rest)
    ∧ run nl = Ok (Some (first, get_external_components nl))
    ∧ ((first :: rest) ≫= cs_nets)
      ≡ₚ filter (λ x, (x < 0)%Z) (component_list nl ≫= nets)
    ∧ port_count (entries nl)
      = 2 * length (cascade_ids nl) + port_count (first :: rest).
Proof.
  intros Hpos Htwo Hb.
  destruct (cascade_ids_twice nl Htwo) as [Hnd Hids].
  destruct (cascade_other_ids _ _ Hnd Hids) as (cl & Hrun & Hperm & Hports).
  destruct (cascade_completes innerconnect_s connect_s _ _ Hnd Hids)
    as (cl' & Hrun' & _ & _ & Hne).
  rewrite Hrun in Hrun'. injection Hrun' as <-.
  destruct cl as [|first rest].
  { exfalso. apply Hne; [|done]. intros E.
    specialize (Htwo 0%Z ltac:(lia)). by rewrite E in Htwo. }
  exists first, rest. split; [done|]. split; [|split; [|done]].
  - unfold connect_circuit. rewrite decide_False by lia. by rewrite Hrun.
  - by rewrite Hperm, working_entries_nets, external_ids_filter.
Qed.

(** X3: the order in which the ids are looked up does not change what
    is left: two loops over the same ids, each on exactly two ports of
    the working list, both run to their end and leave the same net ids,
    each as often, on as many ports. *)
Theorem cascade_order_independent ids ids' cl :
  NoDup ids → ids ≡ₚ ids' →
  (∀ n, n ∈ ids → length (scan n cl) = 2) →
  ∃ cl1 cl2, (loop ids cl).2 = Ok cl1 ∧ (loop ids' cl).2 = Ok cl2
    ∧ (cl1 ≫= cs_nets) ≡ₚ (cl2 ≫= cs_nets)
    ∧ port_count cl1 = port_count cl2.
Proof.
  intros Hnd Hp Htwo.
  destruct (cascade_other_ids ids cl Hnd Htwo) as (cl1 & Hr1 & Hp1 & Hc1).
  destruct (cascade_other_ids ids' cl) as (cl2 & Hr2 & Hp2 & Hc2).
  { by rewrite <- Hp. }
  { intros n Hn. apply Htwo. by rewrite Hp. }
  exists cl1, cl2. split; [done|]. split; [done|]. split.
  - rewrite Hp1, Hp2.
    rewrite (filter_agree (λ x, x ∉ ids) (λ x, x ∉ ids')); [done|].
    intros x _. by rewrite Hp.
  - apply Permutation_length in Hp. lia.
Qed.

End Kept.

(** ** [get_sparameters] *)

Lemma remove_dups_constant {A} (l : list A) (g : nat) :
  l ≠ [] → remove_dups ((λ _, g) <$> l) = [g].
Proof.
  induction l as [|x l IH]; [done|]. intros _.
  destruct l as [|y l]; [done|].
  rewrite fmap_cons. simpl remove_dups.
  destruct (decide_rel _ _ _) as [_|Hn]; [by apply IH|].
  exfalso. apply Hn. left.
Qed.

Section GetSparameters.

Context {Freq SMat Model : Type}.
Variable get_s_parameters : ComponentInstance Model → Freq * SMat.
Variable innerconnect_s : SMat → nat → nat → SMat.
Variable connect_s : SMat → nat → SMat → nat → SMat.
Abbreviation entry := (ComponentSimulation Freq SMat).
Abbreviation step := (connect_step innerconnect_s connect_s).
Abbreviation loop := (cascade innerconnect_s connect_s).
Abbreviation run := (connect_circuit get_s_parameters innerconnect_s connect_s).
Abbreviation entries := (working_entries get_s_parameters).
Implicit Types (nl : ObjectModelNetlist Model) (cl : list entry).

Lemma match_ports_Raise_only n cl e :
  _match_ports n cl = Raise e → e = IndexError.
Proof.
  unfold _match_ports. cbv zeta. intros H.
  repeat (apply bind_getitem_Raise in H as [->|[? H]]; [done|]).
  done.
Qed.

Lemma delitem_Raise_only {A} (l : list A) i e :
  delitem l i = Raise e → e = IndexError.
Proof. unfold delitem. case_decide; congruence. Qed.

Lemma del_pair_Raise_only {A} (l : list A) i j e :
  del_pair i j l = Raise e → e = IndexError.
Proof.
  unfold del_pair. destruct (delitem l i) as [l'|e'] eqn:E; simpl.
  - case_decide; apply delitem_Raise_only.
  - intros [= <-]. by apply delitem_Raise_only in E.
Qed.

Lemma connect_step_Raise_only n cl e :
  step n cl = Raise e → e = IndexError.
Proof.
  unfold connect_step.
  destruct (_match_ports n cl) as [[[[ca ia] cb] ib]|e'] eqn:Em; simpl.
  2: { intros [= <-]. by apply match_ports_Raise_only in Em. }
  destruct (decide (ca = cb)) as [->|Hne].
  - intros H. apply bind_getitem_Raise in H as [->|[A H]]; [done|].
    unfold self_loop_nets in H.
    destruct (del_pair ia ib (cs_nets A)) as [l|e'] eqn:Ed; [done|].
    simpl in H. injection H as <-. by apply del_pair_Raise_only in Ed.
  - intros H.
    apply bind_getitem_Raise in H as [->|[first H]]; [done|].
    apply bind_getitem_Raise in H as [->|[A H]]; [done|].
    apply bind_getitem_Raise in H as [->|[B H]]; [done|].
    destruct (delitem (cs_nets A) ia) as [la|e'] eqn:Ea; simpl in H.
    2: { injection H as <-. by apply delitem_Raise_only in Ea. }
    destruct (delitem (cs_nets B) ib) as [lb|e'] eqn:Eb; simpl in H.
    2: { injection H as <-. by apply delitem_Raise_only in Eb. }
    unfold retire_pair in H.
    destruct (del_pair ca cb cl) as [l|e'] eqn:Ed; [done|].
    simpl in H. injection H as <-. by apply del_pair_Raise_only in Ed.
Qed.

Lemma cascade_Raise_only ids cl e :
  (loop ids cl).2 = Raise e → e = IndexError.
Proof.
  revert cl. induction ids as [|n ids IH]; intros cl; [done|].
  simpl. destruct (step n cl) as [cl'|e'] eqn:Es.
  - destruct (loop ids cl') as [lg r] eqn:El. simpl. intros ->.
    apply (IH cl'). by rewrite El.
  - simpl. intros [= <-]. by apply connect_step_Raise_only in Es.
Qed.

(** X4: on a netlist whose components are all chained together by
    shared internal ids, with every id from 0 to a positive counter on
    exactly two ports and no larger id, [get_sparameters] returns the
    matrix and frequencies of the single entry left, as external ports
    exactly the negative ids of the components, each as often as the
    components carry it, and as edge components the components with a
    negative id; every external port belongs to one of them. *)
Theorem get_sparameters_connected nl :
  (0 < net_count nl)%Z →
  (∀ n, (0 ≤ n ≤ net_count nl)%Z → length (scan n (entries nl)) = 2) →
  (∀ c x, c ∈ component_list nl → x ∈ nets c → (x ≤ net_count nl)%Z) →
  (∀ p q, p < length (component_list nl) → q < length (component_list nl) →
     rtc (linked (component_list nl)) p q) →
  ∃ combined,
    (loop (cascade_ids nl) (entries nl)).2 = Ok [combined]
    ∧ get_sparameters get_s_parameters innerconnect_s connect_s nl
      = Ok (cs_s combined, cs_f combined, cs_nets combined,
            get_external_components nl)
    ∧ cs_nets combined
      ≡ₚ filter (λ x, (x < 0)%Z) (component_list nl ≫= nets)
    ∧ ∀ x, x ∈ cs_nets combined →
        ∃ c, c ∈ get_external_components nl ∧ x ∈ nets c.
Proof.
  intros Hpos Htwo Hb Hconn.
  assert (grouping (λ _, 0) (component_list nl)) as Hg.
  { split; [done|]. intros p q Hp Hq _. by apply Hconn. }
  destruct (cascade_terminal get_s_parameters innerconnect_s connect_s
              (λ _, 0) nl Htwo Hb Hg) as (cl & Hrun & _ & Hlen).
  assert (component_list nl ≠ []) as Hne.
  { intros E. specialize (Htwo 0%Z ltac:(lia)).
    unfold working_entries in Htwo. by rewrite E in Htwo. }
  unfold group_count in Hlen. rewrite remove_dups_constant in Hlen.
  2: { destruct (component_list nl); [done|]. done. }
  destruct cl as [|combined [|? ?]]; [done| |done]. clear Hlen.
  destruct (cascade_ids_twice get_s_parameters nl Htwo) as [Hnd Hids].
  destruct (cascade_other_ids innerconnect_s connect_s _ _ Hnd Hids)
    as (cl & Hrun' & Hperm & _).
  rewrite Hrun in Hrun'. injection Hrun' as <-.
  rewrite bind_cons in Hperm. simpl in Hperm. rewrite app_nil_r in Hperm.
  rewrite working_entries_nets, external_ids_filter in Hperm by done.
  exists combined. split; [done|].
  split; [|split; [done|]].
  - unfold get_sparameters, connect_circuit.
    rewrite decide_False by lia. by rewrite Hrun.
  - intros x Hx. rewrite Hperm in Hx.
    apply list_elem_of_filter in Hx as [Hneg Hx].
    apply list_elem_of_bind in Hx as (c & Hx & Hc).
    exists c. split; [|done]. apply list_elem_of_filter. split; [|done].
    apply Exists_exists. eauto.
Qed.

(** X5: [get_sparameters] raises [TypeError] whenever the counter of the
    netlist is 0, whatever the components are, since [connect_circuit]
    then returns nothing to unpack; with another counter, and the
    component models and matrix routines returning, the only exception
    it raises is the [IndexError] of the cascade. *)
Theorem get_sparameters_errors nl :
  (net_count nl = 0%Z →
     get_sparameters get_s_parameters innerconnect_s connect_s nl
     = Raise TypeError)
  ∧ (∀ e,
       get_sparameters get_s_parameters innerconnect_s connect_s nl
       = Raise e →
       (e = TypeError ∧ net_count nl = 0%Z)
       ∨ (e = IndexError ∧ net_count nl ≠ 0%Z)).
Proof.
  unfold get_sparameters, connect_circuit. split.
  - intros E. by rewrite decide_True by done.
  - intros e. destruct (decide (net_count nl = 0%Z)) as [E|E]; simpl.
    + intros [= <-]. by left.
    + destruct (loop (cascade_ids nl) (entries nl)).2 as [cl|e'] eqn:Er;
        simpl.
      * destruct (getitem cl 0) as [first|e'] eqn:Eg; simpl; [done|].
        intros [= <-]. apply getitem_Raise in Eg as [_ ->]. by right.
      * intros [= <-]. apply cascade_Raise_only in Er. by right.
Qed.

(** X6: [add_component] appends and never touches the counter: a
    netlist built from a new [ObjectModelNetlist] with [add_component]
    alone holds the components in the order given and keeps the counter
    0, so [connect_circuit] returns nothing for it and [get_sparameters]
    raises [TypeError], however the components are connected. *)
Theorem add_component_keeps_counter (cs : list (ComponentInstance Model)) :
  let nl := foldl ObjectModelNetlist_add_component ObjectModelNetlist_init cs in
  component_list nl = cs
  ∧ net_count nl = 0%Z
  ∧ run nl = Ok None
  ∧ get_sparameters get_s_parameters innerconnect_s connect_s nl
    = Raise TypeError.
Proof.
  assert (∀ self,
    component_list (foldl ObjectModelNetlist_add_component self cs)
    = component_list self ++ cs
    ∧ net_count (foldl ObjectModelNetlist_add_component self cs)
      = net_count self) as H.
  { induction cs as [|c cs IH]; intros self; simpl.
    - by rewrite app_nil_r.
    - destruct (IH (ObjectModelNetlist_add_component self c)) as [-> ->].
      simpl. by rewrite <- app_assoc. }
  intros nl. destruct (H ObjectModelNetlist_init) as [Hc Hn].
  fold nl in Hc, Hn. simpl in Hc, Hn.
  split; [done|]. split; [done|].
  unfold get_sparameters, connect_circuit.
  by rewrite decide_True by done.
Qed.

End GetSparameters.

(** ** The kept ids and [get_sparameters] on [Sym.nl_pair] *)

Lemma nl_pair_twice n :
  (0 ≤ n ≤ net_count Sym.nl_pair)%Z →
  length (scan n (working_entries Sym.get_s_parameters Sym.nl_pair)) = 2.
Proof.
  simpl. intros Hn. assert (n = 0 ∨ n = 1)%Z as [-> | ->] by lia; reflexivity.
Qed.

Lemma nl_pair_bound c x :
  c ∈ component_list Sym.nl_pair → x ∈ nets c →
  (x ≤ net_count Sym.nl_pair)%Z.
Proof.
  simpl. intros Hc Hx.
  repeat (apply elem_of_cons in Hc as [->|Hc]); simpl in Hx;
    [| |by apply elem_of_nil in Hc];
    repeat (apply elem_of_cons in Hx as [->|Hx]);
    try lia; by apply elem_of_nil in Hx.
Qed.

Lemma nl_pair_connected p q :
  p < length (component_list Sym.nl_pair) →
  q < length (component_list Sym.nl_pair) →
  rtc (linked (component_list Sym.nl_pair)) p q.
Proof.
  simpl. intros Hp Hq.
  assert (∀ a b, a < 2 → b < 2 →
            linked (component_list Sym.nl_pair) a b) as Hl.
  { intros a b Ha Hb.
    destruct a as [|[|a]], b as [|[|b]]; try lia;
      eexists _, _, 0%Z; (split; [reflexivity|]); (split; [reflexivity|]);
      (split; [lia|]); split; simpl; left. }
  apply rtc_once. by apply Hl.
Qed.

Lemma terminal_entries_keep_external_ids_witness :
  ∃ first rest,
    (Sym.cascade (cascade_ids Sym.nl_pair)
       (working_entries Sym.get_s_parameters Sym.nl_pair)).2
    = Ok (first :: rest)
    ∧ Sym.connect_circuit Sym.nl_pair
      = Ok (Some (first, get_external_components Sym.nl_pair))
    ∧ ((first :: rest) ≫= cs_nets)
      ≡ₚ filter (λ x, (x < 0)%Z) (component_list Sym.nl_pair ≫= nets)
    ∧ port_count (working_entries Sym.get_s_parameters Sym.nl_pair)
      = 2 * length (cascade_ids Sym.nl_pair) + port_count (first :: rest).
Proof.
  apply (terminal_entries_keep_external_ids Sym.get_s_parameters
           Sym.Inner Sym.Conn Sym.nl_pair).
  - simpl. lia.
  - apply nl_pair_twice.
  - apply nl_pair_bound.
Defined.

Lemma cascade_order_independent_witness :
  ∃ cl1 cl2,
    (Sym.cascade [0; 1]%Z
       (working_entries Sym.get_s_parameters Sym.nl_pair)).2 = Ok cl1
    ∧ (Sym.cascade [1; 0]%Z
         (working_entries Sym.get_s_parameters Sym.nl_pair)).2 = Ok cl2
    ∧ (cl1 ≫= cs_nets) ≡ₚ (cl2 ≫= cs_nets)
    ∧ port_count cl1 = port_count cl2.
Proof.
  apply (cascade_order_independent Sym.Inner Sym.Conn [0; 1]%Z [1; 0]%Z
           (working_entries Sym.get_s_parameters Sym.nl_pair)).
  - apply (NoDup_seqZ 0 2).
  - apply perm_swap.
  - intros n Hn. apply nl_pair_twice. simpl.
    repeat (apply elem_of_cons in Hn as [->|Hn]); try lia.
    by apply elem_of_nil in Hn.
Defined.

Lemma get_sparameters_connected_witness :
  ∃ combined,
    (Sym.cascade (cascade_ids Sym.nl_pair)
       (working_entries Sym.get_s_parameters Sym.nl_pair)).2 = Ok [combined]
    ∧ get_sparameters Sym.get_s_parameters Sym.Inner Sym.Conn Sym.nl_pair
      = Ok (cs_s combined, cs_f combined, cs_nets combined,
            get_external_components Sym.nl_pair)
    ∧ cs_nets combined
      ≡ₚ filter (λ x, (x < 0)%Z) (component_list Sym.nl_pair ≫= nets)
    ∧ ∀ x, x ∈ cs_nets combined →
        ∃ c, c ∈ get_external_components Sym.nl_pair ∧ x ∈ nets c.
Proof.
  apply (get_sparameters_connected Sym.get_s_parameters Sym.Inner Sym.Conn
           Sym.nl_pair).
  - simpl. lia.
  - apply nl_pair_twice.
  - apply nl_pair_bound.
  - apply nl_pair_connected.
Defined.

(** ** The list objects of a run *)

Section StoreSeparate.

Context {Freq SMat Model : Type}.
Variable get_s_parameters : ComponentInstance Model → Freq * SMat.
Variable innerconnect_s : SMat → nat → nat → SMat.
Variable connect_s : SMat → nat → SMat → nat → SMat.
Abbreviation sobj := (SimulationObject Freq SMat).

Lemma separate_store_cascade ids h (cl : list sobj) h' cl' :
  separate h cl →
  store_cascade innerconnect_s connect_s ids (h, cl) = Ok (h', cl') →
  separate h' cl'.
Proof.
  revert h cl. induction ids as [|n ids IH]; intros h cl Hsep Hrun.
  - by injection Hrun as <- <-.
  - cbn [store_cascade] in Hrun.
    apply bind_Ok in Hrun as ([h1 cl1] & Hstep & Hrun).
    eapply IH; [|done]. by eapply separate_store_step.
Qed.

(** X7: at every point of a run, after any number of ids, no two
    working entries refer to the same net list object, and every
    working entry refers to a list object created by the run itself,
    never to the list of a component or to any other list that existed
    before. *)
Theorem working_entries_never_share h
    (components : list (ComponentObject Model)) ids h' cl' :
  store_cascade innerconnect_s connect_s ids
    (make_entries get_s_parameters h components) = Ok (h', cl') →
  NoDup (so_nets <$> cl')
  ∧ ∀ e, e ∈ cl' → length h ≤ so_nets e < length h'.
Proof.
  destruct (make_entries get_s_parameters h components) as [h1 es] eqn:Em.
  intros Hrun.
  pose proof (make_entries_separate get_s_parameters h components) as Hsep.
  rewrite Em in Hsep. simpl in Hsep.
  split.
  - by destruct (separate_store_cascade _ _ _ _ _ Hsep Hrun).
  - assert (extends h h (@nil sobj)) as H0.
    { split; [done|]. split; [done|]. intros e He.
      by apply elem_of_nil in He. }
    pose proof (extends_make_entries get_s_parameters _ _ _ _ _ _ H0 Em)
      as H1.
    simpl in H1.
    pose proof (extends_store_cascade innerconnect_s connect_s
                  _ _ _ _ _ _ H1 Hrun) as (_ & _ & H2).
    done.
Qed.

End StoreSeparate.

Lemma working_entries_never_share_witness :
  NoDup (so_nets <$> [{| so_nets := 4; so_f := [193]%Z;
                         so_s := Sym.Conn (Sym.Leaf 1) 0 (Sym.Leaf 2) 0 |}])
  ∧ ∀ e, e ∈ [{| so_nets := 4; so_f := [193]%Z;
                 so_s := Sym.Conn (Sym.Leaf 1) 0 (Sym.Leaf 2) 0 |}] →
      length SymStore.store0 ≤ so_nets e
      < length [[0; 1; -1]; [0; 1; -2]; [1; -1]; [1; -2]; [1; -1; 1; -2]]%Z.
Proof.
  apply (working_entries_never_share Sym.get_s_parameters Sym.Inner Sym.Conn
           SymStore.store0 SymStore.objects [0%Z]).
  reflexivity.
Defined.

Lemma store_connect_circuit_refines_witness :
  result_map
    (λ out, option_map
              (λ r, (entry_value out.1 r.1, component_value out.1 <$> r.2))
              out.2)
    (SymStore.connect_circuit SymStore.store0 SymStore.objects 1)
  = Sym.connect_circuit
      {| component_list := component_value SymStore.store0 <$> SymStore.objects;
         net_count := 1 |}.
Proof.
  apply (store_connect_circuit_refines Sym.get_s_parameters Sym.Inner Sym.Conn
           SymStore.store0 SymStore.objects 1).
  intros c Hc. simpl.
  repeat (apply elem_of_cons in Hc as [->|Hc]); simpl; try lia.
  by apply elem_of_nil in Hc.
Defined.

(** * More of the netlist module *)

Lemma foldl_max_init (a y : Z) (l : list Z) :
  foldl Z.max (Z.max a y) l = Z.max a (foldl Z.max y l).
Proof.
  revert y. induction l as [|x l IH]; intros y; [done|].
  simpl. by rewrite <- IH, Z.max_assoc.
Qed.

Section NetlistClass.

Context {Model : Type}.
Implicit Types (self : Netlist Model) (component : ComponentInstance Model).

(** X9: [add_component] composes with the two readers of a [Netlist]:
    afterwards [net_count] is the larger of the old count and the
    largest net id of the new component plus one (the old count alone
    when the component has no net, the new one alone when there was no
    net before), and the external components are the old ones followed
    by the new component when it has a negative id. *)
Theorem add_component_readers self component :
  Netlist_net_count (Netlist_add_component self component)
  = match py_max (nets component), Netlist_net_count self with
    | Raise _, r => r
    | Ok k, Ok m => Ok (Z.max m (k + 1))
    | Ok k, Raise _ => Ok (k + 1)%Z
    end
  ∧ Netlist_get_external_components (Netlist_add_component self component)
    = Netlist_get_external_components self
      ++ (if decide (is_external component) then [component] else []).
Proof.
  split.
  - unfold Netlist_net_count, Netlist_add_component. simpl.
    rewrite bind_app, bind_cons. simpl. rewrite app_nil_r.
    destruct (nets component) as [|y ys].
    { by rewrite app_nil_r. }
    destruct (components self ≫= nets) as [|x xs]; [done|].
    simpl. rewrite foldl_app. simpl. rewrite foldl_max_init.
    f_equal. lia.
  - unfold Netlist_get_external_components, Netlist_add_component. simpl.
    by rewrite filter_app.
Qed.

(** X10: [parse_text] never returns a component. Past lines that are
    empty or whose first element contains a point or a star, it stops at
    the end of the text or at a line whose first element contains
    [.ends] and returns the component list as it was, the object
    untouched and the lines after [.ends] unread; at the first other
    line, its net ids read as integers, it fails with the
    [AttributeError] of [_parse_line], the component list as it was and
    only the counter moved by the net ids of that line. *)
Theorem parse_text_outcome (self : ObjectModelNetlist Model)
    (skipped : list text_line) :
  Forall (λ line, kind_of line = Skipped) skipped →
  parse_text self skipped = (self, Ok (component_list self))
  ∧ (∀ line lines, kind_of line = Ends →
       parse_text self (skipped ++ line :: lines)
       = (self, Ok (component_list self)))
  ∧ (∀ line lines rest, kind_of line = ComponentLine rest →
       parse_text self (skipped ++ line :: lines)
       = ((_parse_line self (OtherItem :: rest)).1, Raise AttributeError)
       ∧ component_list (_parse_line self (OtherItem :: rest)).1
         = component_list self
       ∧ (net_count self
          ≤ net_count (_parse_line self (OtherItem :: rest)).1)%Z).
Proof.
  intros Hs.
  assert (∀ tail, parse_text self (skipped ++ tail) = parse_text self tail)
    as Hskip.
  { intros tail. induction Hs as [|line skipped Hk _ IH]; [done|].
    destruct line as [|first rest]; simpl; [done|].
    simpl in Hk. destruct (contains ".ends" first); [done|].
    destruct (contains "." first || contains "*" first); [done|done]. }
  split; [|split].
  - by rewrite <- (app_nil_r skipped), Hskip.
  - intros line lines Hk. rewrite Hskip.
    destruct line as [|first rest]; [done|]. simpl in *.
    destruct (contains ".ends" first); [done|].
    by destruct (contains "." first || contains "*" first).
  - intros line lines rest Hk. rewrite Hskip.
    destruct line as [|first rest']; [done|]. simpl in Hk.
    cbn [parse_text].
    destruct (contains ".ends" first); [done|].
    destruct (contains "." first || contains "*" first); [done|].
    injection Hk as ->. split; [done|]. split; [done|].
    unfold _parse_line. cbn [fst net_count].
    by destruct (parse_count_spec (drop 1 (OtherItem :: rest))
                   (net_count self)) as [H _].
Qed.

End NetlistClass.

Lemma parse_text_outcome_witness :
  parse_text (ObjectModelNetlist_init (Model := Sym.model_t))
    ([Elements "* Spice output" []; NoElements;
      Elements ".subckt" [OtherItem; OtherItem]]
     ++ Elements "wg_1" [NetItem 0; NetItem 3; OtherItem]
        :: [Elements "wg_2" [NetItem 3; NetItem 7]; Elements ".ends" []])
  = ({| component_list := []; net_count := 3 |}, Raise AttributeError).
Proof.
  assert (Forall (λ line, kind_of line = Skipped)
            [Elements "* Spice output" []; NoElements;
             Elements ".subckt" [OtherItem; OtherItem]]) as Hs
    by (repeat constructor).
  apply (proj2 (proj2 (parse_text_outcome
                         (ObjectModelNetlist_init (Model := Sym.model_t))
                         _ Hs))
           (Elements "wg_1" [NetItem 0; NetItem 3; OtherItem])
           [Elements "wg_2" [NetItem 3; NetItem 7]; Elements ".ends" []]
           [NetItem 0; NetItem 3; OtherItem]).
  reflexivity.
Defined.

(** * The SPICE visitor: [visit_ona] *)

Section OnaOptions.

Context {V : Type}.
Implicit Types (l : list (option V)) (o : Pair V) (opts : list (Pair V))
  (params : gmap string (ona_param V)).

Lemma dlist_insert_value_nonneg l (k : nat) e :
  dlist_insert_value l (Z.of_nat k) e
  = Ok (<[k := e]> (l ++ replicate (S k - length l) None)).
Proof.
  unfold dlist_insert_value. destruct (decide (k < length l)) as [Hk|Hk].
  - rewrite (dlist_insert_in_place [l] 0 l (Z.of_nat k) e eq_refl) by lia.
    simpl. rewrite Nat2Z.id. replace (S k - length l) with 0 by lia.
    simpl. by rewrite app_nil_r.
  - rewrite (dlist_insert_grow [l] 0 l (Z.of_nat k) e eq_refl) by lia.
    simpl. rewrite Nat2Z.id. unfold deref. simpl. f_equal.
    rewrite insert_app_r_alt by lia.
    replace (S k - length l) with (S (k - length l)) by lia.
    by rewrite insert_replicate_last.
Qed.

Lemma dlist_insert_value_negative l (i : Z) e :
  (i < 0)%Z →
  dlist_insert_value l i e
  = if decide (- Z.of_nat (length l) ≤ i)%Z
    then Ok (<[Z.to_nat (Z.of_nat (length l) + i) := e]> l)
    else Raise IndexError.
Proof.
  intros Hi. unfold dlist_insert_value. case_decide as Hl.
  - rewrite (dlist_insert_from_end [l] 0 l i e eq_refl) by lia. done.
  - by rewrite (dlist_insert_below [l] 0 l i e eq_refl) by lia.
Qed.

Lemma ona_optionset_snoc acc opts o :
  ona_optionset acc (opts ++ [o])
  = (params ← ona_optionset acc opts; ona_option params o).
Proof. unfold ona_optionset. by rewrite foldl_app. Qed.

Lemma ona_optionset_Raise opts e :
  ona_optionset (Raise e) opts = Raise e.
Proof. induction opts as [|o opts IH]; [done|]. apply IH. Qed.

Lemma ona_optionsets_concat acc (options : list (list (Pair V))) :
  foldl ona_optionset acc options = ona_optionset acc (concat options).
Proof.
  revert acc. induction options as [|s options IH]; intros acc; [done|].
  simpl. rewrite IH. unfold ona_optionset. by rewrite foldl_app.
Qed.

Lemma filter_snoc {A} (P : A → Prop) `{!∀ x, Decision (P x)}
    (xs : list A) x :
  filter P (xs ++ [x]) = filter P xs ++ (if decide (P x) then [x] else []).
Proof. rewrite filter_app, filter_cons, filter_nil. by destruct (decide _). Qed.

Lemma slot_writer_snoc name k opts o :
  slot_writer name k (opts ++ [o])
  = if decide (pair_name o = name ∧ pair_order o = Some (Z.of_nat k + 1)%Z)
    then Some o else slot_writer name k opts.
Proof.
  unfold slot_writer. rewrite filter_snoc.
  destruct (decide _); [apply last_snoc | by rewrite app_nil_r].
Qed.

Lemma assembled_snoc_other opts o name p :
  pair_name o ≠ name →
  assembled opts name p → assembled (opts ++ [o]) name p.
Proof.
  intros Hne. destruct p as [[v|l]|]; simpl.
  - intros (o' & Hl & Ho & Hv). exists o'.
    by rewrite filter_snoc, decide_False, app_nil_r by done.
  - intros (Hb & (o' & Ho' & Hn & Hlen) & Hs). split; [|split].
    + intros o'' order [Hin|Hin]%elem_of_app Hn'' Ho''; [by eapply Hb|].
      apply list_elem_of_singleton in Hin as ->. done.
    + exists o'. split; [|done]. apply elem_of_app. by left.
    + intros k Hk. rewrite slot_writer_snoc, decide_False; [by apply Hs|].
      by intros [? _].
  - intros H o' [Hin|Hin]%elem_of_app; [by apply H|].
    by apply list_elem_of_singleton in Hin as ->.
Qed.

Lemma assembled_list_write opts o order l :
  pair_order o = Some order → (1 ≤ order)%Z →
  (∀ o' order', o' ∈ opts → pair_name o' = pair_name o →
     pair_order o' = Some order' → (order' ≤ Z.of_nat (length l))%Z) →
  (l = [] ∨ ∃ o', o' ∈ opts ∧ pair_name o' = pair_name o
                  ∧ pair_order o' = Some (Z.of_nat (length l))) →
  (∀ k, k < length l →
     l !! k = Some (pair_value <$> slot_writer (pair_name o) k opts)) →
  assembled (opts ++ [o]) (pair_name o)
    (Some (OnaList (<[Z.to_nat (order - 1) := Some (pair_value o)]>
                      (l ++ replicate (S (Z.to_nat (order - 1)) - length l)
                              None)))).
Proof.
  intros Ho Hord Hb Hex Hs.
  set (k0 := Z.to_nat (order - 1)).
  assert (order = Z.of_nat k0 + 1)%Z as Hk0 by lia.
  set (l' := <[k0 := Some (pair_value o)]>
               (l ++ replicate (S k0 - length l) None)).
  assert (length l' = length l `max` S k0) as Hlen.
  { unfold l'. rewrite length_insert, length_app, length_replicate. lia. }
  simpl. split; [|split].
  - intros o' order' [Hin|Hin]%elem_of_app Hn' Ho'.
    + specialize (Hb o' order' Hin Hn' Ho'). lia.
    + apply list_elem_of_singleton in Hin as ->. simplify_eq. lia.
  - destruct (decide (S k0 ≤ length l)) as [Hle|Hgt].
    + destruct Hex as [->|(o' & Hin & Hn' & Ho')]; [simpl in Hle; lia|].
      exists o'. split; [apply elem_of_app; by left|]. split; [done|].
      rewrite Ho'. do 2 f_equal. lia.
    + exists o. split; [apply elem_of_app; right; by left|]. split; [done|].
      rewrite Ho. f_equal. lia.
  - intros k Hk. rewrite slot_writer_snoc.
    destruct (decide _) as [[_ Hko]|Hno].
    + assert (k = k0) as -> by (rewrite Ho in Hko; simplify_eq; lia).
      unfold l'. rewrite list_lookup_insert_eq; [done|].
      rewrite length_app, length_replicate. lia.
    + assert (k ≠ k0) as Hne.
      { intros ->. apply Hno. split; [done|]. rewrite Ho. f_equal. lia. }
      unfold l'. rewrite list_lookup_insert_ne by done.
      destruct (decide (k < length l)) as [Hkl|Hkl].
      * rewrite lookup_app_l by done. by apply Hs.
      * rewrite lookup_app_r by lia.
        rewrite lookup_replicate_2 by lia.
        unfold slot_writer. rewrite filter_Forall_nil; [done|].
        apply Forall_forall. intros o' Hin [Hn' Ho'].
        specialize (Hb o' _ Hin Hn' Ho'). lia.
Qed.

(** The options do not ask for an order below 1, and the options of one
    name all have an order or all have none. *)
Lemma ona_optionset_assembled opts :
  (∀ o order, o ∈ opts → pair_order o = Some order → (1 ≤ order)%Z) →
  (∀ o1 o2, o1 ∈ opts → o2 ∈ opts → pair_name o1 = pair_name o2 →
     is_Some (pair_order o1) → is_Some (pair_order o2)) →
  ∃ params, ona_optionset (Ok ∅) opts = Ok params
    ∧ ∀ name, assembled opts name (params !! name).
Proof.
  induction opts as [|o opts IH] using rev_ind; intros Hord Hcons.
  { exists ∅. split; [done|]. intros name. rewrite lookup_empty. simpl.
    intros o Ho. by apply elem_of_nil in Ho. }
  destruct IH as (params & Hrun & Hinv).
  { intros o' order Hin. apply Hord, elem_of_app. by left. }
  { intros o1 o2 H1 H2. apply Hcons; apply elem_of_app; by left. }
  rewrite ona_optionset_snoc, Hrun. simpl. unfold ona_option.
  assert (o ∈ opts ++ [o]) as Hoin by (apply elem_of_app; right; left).
  destruct (pair_order o) as [order|] eqn:Ho.
  - assert (1 ≤ order)%Z as Hge by (by apply (Hord o)).
    assert (order - 1 = Z.of_nat (Z.to_nat (order - 1)))%Z as Hidx by lia.
    pose proof (Hinv (pair_name o)) as Hname.
    destruct (params !! pair_name o) as [[v|l]|] eqn:Hp; simpl in Hname.
    + exfalso. destruct Hname as (o' & Hl & Ho' & _).
      apply last_Some in Hl as [pre Hl].
      assert (o' ∈ filter (λ o0, pair_name o0 = pair_name o) opts) as Hin
        by (rewrite Hl; apply elem_of_app; right; left).
      apply list_elem_of_filter in Hin as [Hn' Hin].
      destruct (Hcons o o' Hoin) as [? Hsome];
        [apply elem_of_app; by left|done|by rewrite Ho|].
      congruence.
    + rewrite Hidx, dlist_insert_value_nonneg. simpl.
      eexists. split; [done|]. intros name.
      destruct (decide (name = pair_name o)) as [->|Hne].
      * rewrite lookup_insert_eq. destruct Hname as (Hb & Hex & Hs).
        apply (assembled_list_write opts o order l); auto.
      * rewrite lookup_insert_ne by done.
        apply assembled_snoc_other; [done|apply Hinv].
    + rewrite Hidx, dlist_insert_value_nonneg. simpl.
      eexists. split; [done|]. intros name.
      destruct (decide (name = pair_name o)) as [->|Hne].
      * rewrite lookup_insert_eq.
        apply (assembled_list_write opts o order []); auto.
        -- intros o' order' Hin Hn'. by destruct (Hname o' Hin).
        -- simpl. lia.
      * rewrite lookup_insert_ne by done.
        apply assembled_snoc_other; [done|apply Hinv].
  - eexists. split; [done|]. intros name.
    destruct (decide (name = pair_name o)) as [->|Hne].
    + rewrite lookup_insert_eq. simpl. exists o.
      by rewrite filter_snoc, decide_True, last_snoc by done.
    + rewrite lookup_insert_ne by done.
      apply assembled_snoc_other; [done|apply Hinv].
Qed.

(** X11: when no option asks for an order below 1 and the options of one
    name all have an order or all have none, [visit_ona] returns, with
    the parameters as [definition], options assembled name by name: a
    name without order holds the value of its last option; a name with
    orders holds a list as long as the largest order, where slot
    [order - 1] holds the value of the last option written with that
    order and a slot no option names holds [None]; no other name is
    there. *)
Theorem visit_ona_assembles (parameters : list (Pair V))
    (options : list (list (Pair V))) :
  (∀ o order, o ∈ concat options → pair_order o = Some order →
     (1 ≤ order)%Z) →
  (∀ o1 o2, o1 ∈ concat options → o2 ∈ concat options →
     pair_name o1 = pair_name o2 →
     is_Some (pair_order o1) → is_Some (pair_order o2)) →
  ∃ ona, visit_ona parameters options = Ok (ONA, ona)
    ∧ ona_definition ona = params_dict parameters
    ∧ ∀ name, assembled (concat options) name (ona_params ona !! name).
Proof.
  intros Hord Hcons.
  destruct (ona_optionset_assembled _ Hord Hcons) as (params & Hrun & Hinv).
  unfold visit_ona. rewrite ona_optionsets_concat, Hrun. simpl.
  eexists. split; [done|]. split; [done|]. apply Hinv.
Qed.

End OnaOptions.

(** ** The order of the options *)

Lemma NoDup_fmap_inj_on {A B} (f : A → B) (l : list A) x y :
  NoDup (f <$> l) → x ∈ l → y ∈ l → f x = f y → x = y.
Proof.
  induction l as [|z l IH]; intros Hnd Hx Hy Hf.
  { by apply elem_of_nil in Hx. }
  rewrite fmap_cons in Hnd. apply NoDup_cons in Hnd as [Hz Hnd].
  apply elem_of_cons in Hx as [->|Hx], Hy as [->|Hy]; [done| | |by apply IH].
  - exfalso. apply Hz. rewrite Hf. by apply list_elem_of_fmap_2.
  - exfalso. apply Hz. rewrite <- Hf. by apply list_elem_of_fmap_2.
Qed.

Section OnaOrder.

Context {V : Type}.
Implicit Types (l : list (option V)) (o : Pair V) (opts : list (Pair V))
  (params : gmap string (ona_param V)).

(** The slot an option writes to. *)
Abbreviation key := (λ o : Pair V, (pair_name o, pair_order o)).

Lemma slot_writer_perm name k opts opts' :
  NoDup (key <$> opts) → opts ≡ₚ opts' →
  slot_writer name k opts = slot_writer name k opts'.
Proof.
  intros Hnd Hp. unfold slot_writer.
  set (P := λ o, pair_name o = name
                 ∧ pair_order o = Some (Z.of_nat k + 1)%Z).
  assert (filter P opts ≡ₚ filter P opts') as Hf by (by rewrite Hp).
  destruct (filter P opts) as [|x [|y t]] eqn:E.
  - symmetry in Hf. apply Permutation_nil_r in Hf. by rewrite Hf.
  - symmetry in Hf. apply Permutation_singleton_r in Hf. by rewrite Hf.
  - exfalso.
    assert (x ∈ filter P opts) as Hx by (rewrite E; left).
    assert (y ∈ filter P opts) as Hy by (rewrite E; right; left).
    apply list_elem_of_filter in Hx as [[Hx1 Hx2] Hx].
    apply list_elem_of_filter in Hy as [[Hy1 Hy2] Hy].
    assert (x = y) as ->.
    { apply (NoDup_fmap_inj_on key opts); [done..|].
      simpl. by rewrite Hx1, Hx2, Hy1, Hy2. }
    assert (NoDup (filter P opts)) as Hndf.
    { apply NoDup_filter. by apply NoDup_fmap_1 in Hnd. }
    rewrite E in Hndf. apply NoDup_cons in Hndf as [Hin _].
    apply Hin. left.
Qed.

Lemma assembled_scalar opts name v :
  assembled opts name (Some (OnaScalar v)) →
  ∃ o, o ∈ opts ∧ pair_name o = name ∧ pair_order o = None
       ∧ pair_value o = v.
Proof.
  intros (o & Hl & Ho & Hv). exists o.
  apply last_Some in Hl as [pre Hl].
  assert (o ∈ filter (λ o0, pair_name o0 = name) opts) as Hin
    by (rewrite Hl; apply elem_of_app; right; left).
  by apply list_elem_of_filter in Hin as [? ?].
Qed.

Lemma assembled_unique opts opts' name a b :
  (∀ o1 o2, o1 ∈ opts → o2 ∈ opts → pair_name o1 = pair_name o2 →
     is_Some (pair_order o1) → is_Some (pair_order o2)) →
  NoDup (key <$> opts) → opts ≡ₚ opts' →
  assembled opts name a → assembled opts' name b → a = b.
Proof.
  intros Hcons Hnd Hp Ha Hb.
  assert (∀ o, o ∈ opts' ↔ o ∈ opts) as Hmem by (intros o; by rewrite Hp).
  destruct a as [[v|l]|], b as [[v'|l']|].
  - apply assembled_scalar in Ha as (o & Hin & Hn & Ho & <-).
    apply assembled_scalar in Hb as (o' & Hin' & Hn' & Ho' & <-).
    apply Hmem in Hin'. do 3 f_equal.
    apply (NoDup_fmap_inj_on key opts); [done..|].
    simpl. by rewrite Hn, Ho, Hn', Ho'.
  - exfalso. apply assembled_scalar in Ha as (o & Hin & Hn & Ho & _).
    destruct Hb as (_ & (o' & Hin' & Hn' & Ho') & _). apply Hmem in Hin'.
    destruct (Hcons o' o Hin' Hin) as [? Hsome];
      [congruence|by rewrite Ho'|congruence].
  - exfalso. apply assembled_scalar in Ha as (o & Hin & Hn & _).
    apply Hmem in Hin. by apply (Hb o).
  - exfalso. apply assembled_scalar in Hb as (o & Hin & Hn & Ho & _).
    apply Hmem in Hin.
    destruct Ha as (_ & (o' & Hin' & Hn' & Ho') & _).
    destruct (Hcons o' o Hin' Hin) as [? Hsome];
      [congruence|by rewrite Ho'|congruence].
  - destruct Ha as (Hb1 & (o1 & Hin1 & Hn1 & Ho1) & Hs1).
    destruct Hb as (Hb2 & (o2 & Hin2 & Hn2 & Ho2) & Hs2).
    assert (length l = length l') as Hlen.
    { apply Hmem in Hin2. apply Hmem in Hin1.
      specialize (Hb1 o2 _ Hin2 Hn2 Ho2).
      specialize (Hb2 o1 _ Hin1 Hn1 Ho1). lia. }
    do 2 f_equal. apply list_eq. intros i.
    destruct (decide (i < length l)) as [Hi|Hi].
    + rewrite Hs1, Hs2 by lia. by rewrite (slot_writer_perm _ _ _ opts').
    + rewrite !lookup_ge_None_2 by lia. done.
  - exfalso. destruct Ha as (_ & (o & Hin & Hn & _) & _).
    apply Hmem in Hin. by apply (Hb o).
  - exfalso. apply assembled_scalar in Hb as (o & Hin & Hn & _).
    apply Hmem in Hin. by apply (Ha o).
  - exfalso. destruct Hb as (_ & (o & Hin & Hn & _) & _).
    apply Hmem in Hin. by apply (Ha o).
  - done.
Qed.

(** X12: the order of the options plays no part when no slot is written
    twice: if no option asks for an order below 1, the options of one
    name all have an order or all have none, and no two options share
    name and order, then [visit_ona] returns the same result for the
    options in any other order, however they are spread over option
    sets. *)
Theorem visit_ona_order_independent (parameters : list (Pair V))
    (options options' : list (list (Pair V))) :
  (∀ o order, o ∈ concat options → pair_order o = Some order →
     (1 ≤ order)%Z) →
  (∀ o1 o2, o1 ∈ concat options → o2 ∈ concat options →
     pair_name o1 = pair_name o2 →
     is_Some (pair_order o1) → is_Some (pair_order o2)) →
  NoDup (key <$> concat options) →
  concat options ≡ₚ concat options' →
  visit_ona parameters options = visit_ona parameters options'.
Proof.
  intros Hord Hcons Hnd Hp.
  assert (∀ o, o ∈ concat options' ↔ o ∈ concat options) as Hmem
    by (intros o; by rewrite Hp).
  destruct (ona_optionset_assembled _ Hord Hcons) as (p1 & Hrun1 & Hinv1).
  destruct (ona_optionset_assembled (concat options'))
    as (p2 & Hrun2 & Hinv2).
  { intros o order Hin%Hmem. by apply Hord. }
  { intros o1 o2 H1%Hmem H2%Hmem. by apply Hcons. }
  unfold visit_ona. rewrite !ona_optionsets_concat, Hrun1, Hrun2. simpl.
  do 3 f_equal. apply map_eq. intros name.
  by apply (assembled_unique (concat options) (concat options') name).
Qed.

(** X13: an order below 1 never reaches slot 0 of a new list. As the
    first option of a name such an option makes [visit_ona] fail with
    [IndexError]; on a list of [n] elements already there, orders 0 down
    to [1 - n] overwrite, counted from the end, the elements [n - 1] down
    to 0, and a lower order raises [IndexError]. *)
Theorem ona_option_order_below_one params o order :
  pair_order o = Some order → (order ≤ 0)%Z →
  (params !! pair_name o = None → ona_option params o = Raise IndexError)
  ∧ (∀ l, params !! pair_name o = Some (OnaList l) →
       ona_option params o
       = if decide (1 - Z.of_nat (length l) ≤ order)%Z
         then Ok (<[pair_name o :=
                      OnaList (<[Z.to_nat (Z.of_nat (length l) + order - 1) :=
                                   Some (pair_value o)]> l)]> params)
         else Raise IndexError)
  ∧ (∀ parameters rest more,
       visit_ona parameters ((o :: rest) :: more) = Raise IndexError).
Proof.
  intros Ho Hle.
  assert (∀ params, params !! pair_name o = None →
            ona_option params o = Raise IndexError) as Hnew.
  { intros ps Hp. unfold ona_option. rewrite Ho, Hp.
    rewrite dlist_insert_value_negative by lia. simpl.
    by rewrite decide_False by lia. }
  split; [apply Hnew|]. split.
  - intros l Hp. unfold ona_option. rewrite Ho, Hp.
    rewrite dlist_insert_value_negative by lia.
    destruct (decide (1 - Z.of_nat (length l) ≤ order)%Z).
    + rewrite decide_True by lia. simpl. do 4 f_equal. lia.
    + by rewrite decide_False by lia.
  - intros parameters rest more. unfold visit_ona.
    rewrite ona_optionsets_concat. simpl. unfold ona_optionset at 1. simpl.
    rewrite (Hnew ∅) by apply lookup_empty.
    pose proof (ona_optionset_Raise (rest ++ concat more) IndexError) as Hr.
    unfold ona_optionset in Hr. by rewrite Hr.
Qed.

End OnaOrder.

(** ** [visit_ona] on [SymOna.options] *)

Lemma SymOna_orders o order :
  o ∈ concat SymOna.options → pair_order o = Some order → (1 ≤ order)%Z.
Proof.
  simpl. intros Hin Ho.
  repeat (apply elem_of_cons in Hin as [->|Hin]); simpl in Ho;
    simplify_eq; try lia.
  by apply elem_of_nil in Hin.
Qed.

Lemma SymOna_consistent o1 o2 :
  o1 ∈ concat SymOna.options → o2 ∈ concat SymOna.options →
  pair_name o1 = pair_name o2 →
  is_Some (pair_order o1) → is_Some (pair_order o2).
Proof.
  simpl. intros H1 H2 Hn [x Hx].
  repeat (apply elem_of_cons in H1 as [->|H1]);
    try (by apply elem_of_nil in H1);
    repeat (apply elem_of_cons in H2 as [->|H2]);
    try (by apply elem_of_nil in H2);
    simpl in *; simplify_eq; eauto.
Qed.

Lemma SymOna_keys :
  NoDup ((λ o : Pair Z, (pair_name o, pair_order o))
           <$> concat SymOna.options).
Proof.
  simpl. repeat (apply NoDup_cons_2); [| | |apply NoDup_nil_2];
    intros Hin; repeat (apply elem_of_cons in Hin as [Hin|Hin]);
    try discriminate; by apply elem_of_nil in Hin.
Qed.

Lemma visit_ona_assembles_witness :
  ∃ ona, visit_ona [] SymOna.options = Ok (ONA, ona)
    ∧ ona_definition ona = params_dict []
    ∧ ∀ name, assembled (concat SymOna.options) name
                (ona_params ona !! name).
Proof.
  apply (visit_ona_assembles [] SymOna.options).
  - apply SymOna_orders.
  - apply SymOna_consistent.
Defined.

Lemma visit_ona_order_independent_witness :
  visit_ona [] SymOna.options = visit_ona [] SymOna.options'.
Proof.
  apply (visit_ona_order_independent [] SymOna.options SymOna.options').
  - apply SymOna_orders.
  - apply SymOna_consistent.
  - apply SymOna_keys.
  - exact (Permutation_rev [SymOna.start; SymOna.input3; SymOna.input1]).
Defined.

Lemma ona_option_order_below_one_witness :
  visit_ona [] [[SymOna.input0; SymOna.input1]] = Raise IndexError
  ∧ ona_option (<[ "input" := OnaList [Some 10; None; Some 30]%Z ]> ∅)
      SymOna.input0
    = Ok (<[ "input" := OnaList [Some 10; None; Some 99]%Z ]>
            (<[ "input" := OnaList [Some 10; None; Some 30]%Z ]> ∅)).
Proof.
  split.
  - apply (proj2 (proj2 (ona_option_order_below_one ∅ SymOna.input0 0
                           eq_refl ltac:(lia)))).
  - apply (proj1 (proj2 (ona_option_order_below_one
                           (<[ "input" := OnaList [Some 10; None; Some 30]%Z ]> ∅)
                           SymOna.input0 0 eq_refl ltac:(lia)))
             [Some 10; None; Some 30]%Z).
    reflexivity.
Defined.

(** * The SPICE visitor: subcircuits and files *)

Section Subcircuits.

Context {V : Type}.

Lemma params_dict_lookup (params : list (Pair V)) name :
  params_dict params !! name
  = pair_value <$> last (filter (λ p, pair_name p = name) params).
Proof.
  unfold params_dict.
  induction params as [|p params IH] using rev_ind.
  { simpl. by rewrite lookup_empty. }
  rewrite foldl_app, filter_snoc. simpl.
  destruct (decide (pair_name p = name)) as [<-|Hne].
  - by rewrite lookup_insert_eq, last_snoc.
  - by rewrite lookup_insert_ne, app_nil_r.
Qed.

(** X14: [visit_subckt] raises [ValueError] exactly when the name after
    [.ends] differs from the name of the header. Otherwise it returns
    the header's name and ports and the components as given, and a
    parameter dictionary in which a name given by several [.param]
    lines holds the value of the last of them, and a name given by none
    is absent; [visit_component] builds the parameters of a component
    in the same way. *)
Theorem visit_subckt_result (header : Header) (params : list (Pair V))
    (components : list (Component V)) (footer : Footer) :
  (header_name header ≠ footer_name footer →
     visit_subckt header params components footer = Raise ValueError)
  ∧ (header_name header = footer_name footer →
       ∃ sub, visit_subckt header params components footer
              = Ok (SUBCKT, sub)
         ∧ subckt_name sub = header_name header
         ∧ subckt_ports sub = header_externals header
         ∧ subckt_components sub = components
         ∧ ∀ name,
             subckt_params sub !! name
             = pair_value
                 <$> last (filter (λ p, pair_name p = name) params))
  ∧ (∀ cname ports model name,
       comp_params (visit_component cname ports model params) !! name
       = pair_value <$> last (filter (λ p, pair_name p = name) params)).
Proof.
  unfold visit_subckt. split; [|split].
  - intros Hn. by rewrite decide_True by done.
  - intros Hn. rewrite decide_False by (by intros ?).
    eexists. split; [done|].
    simpl. repeat split. apply params_dict_lookup.
  - intros cname ports model name. apply params_dict_lookup.
Qed.

Implicit Types (container payload : Contents V) (item : file_item V).

Lemma sort_items_include_assoc container item payload :
  sort_items (sort_items container item) (IncludeItem payload)
  = sort_items container
      (IncludeItem
         (sort_items
            (sort_items {| circuits := []; subcircuits := []; analyses := [] |}
               item)
            (IncludeItem payload))).
Proof.
  destruct container, payload, item as [p|p|[]|p|]; simpl;
    by rewrite <- ?app_assoc.
Qed.

Lemma foldl_sort_items container (items : list (file_item V)) :
  foldl sort_items container items
  = sort_items container (IncludeItem (visit_file items)).
Proof.
  unfold visit_file. revert container.
  induction items as [|item items IH]; intros container.
  - destruct container. simpl. by rewrite !app_nil_r.
  - simpl. rewrite IH.
    rewrite (IH (sort_items _ item)).
    apply sort_items_include_assoc.
Qed.

(** X15: an [.INCLUDE] line behaves as if the items of the file it
    names stood in its place: the circuits, subcircuits and analyses of
    that file are spliced into the three lists at the position of the
    line, in their order, so the result is that of the file with the
    included items written out. *)
Theorem include_inlines (before inner after : list (file_item V)) :
  visit_file (before ++ IncludeItem (visit_file inner) :: after)
  = visit_file (before ++ inner ++ after).
Proof.
  unfold visit_file at 1 3. rewrite !foldl_app.
  by rewrite (foldl_sort_items _ inner).
Qed.

End Subcircuits.

(** * The ids a run looks up *)

Section LookedUp.

Context {Freq SMat Model : Type}.
Variable get_s_parameters : ComponentInstance Model → Freq * SMat.
Variable innerconnect_s : SMat → nat → nat → SMat.
Variable connect_s : SMat → nat → SMat → nat → SMat.

(** C3: with [net_count] the largest net id plus one, as [Netlist.net_count]
    computes it, and the counter of the netlist the largest id itself:
    whenever the counter is not 0 and the run returns, the ids looked up
    are exactly 0, 1, ..., [net_count - 1], each once and in increasing
    order. With the counter at 0 the early [return] is taken: on
    [nl_net_zero], where id 0 is on two ports and [net_count] is 1, no
    id is looked up and nothing is returned. *)
Theorem counter_zero_skips_net_zero :
  (∀ (nl : ObjectModelNetlist Model) count r,
     Netlist_net_count {| components := component_list nl |} = Ok count →
     net_count nl = (count - 1)%Z → net_count nl ≠ 0%Z →
     connect_circuit get_s_parameters innerconnect_s connect_s nl
     = Ok (Some r) →
     looked_up get_s_parameters innerconnect_s connect_s nl = seqZ 0 count)
  ∧ Netlist_net_count {| components := component_list nl_net_zero |}
    = Ok 1%Z
  ∧ scan 0 (working_entries Sym.get_s_parameters nl_net_zero)
    = [(0, 0); (1, 0)]
  ∧ net_count
      (_parse_line
         (_parse_line (ObjectModelNetlist_init (Model := Sym.model_t))
            [OtherItem; NetItem 0; OtherItem]).1
         [OtherItem; NetItem 0; OtherItem]).1
    = net_count nl_net_zero
  ∧ Sym.looked_up nl_net_zero = []
  ∧ Sym.connect_circuit nl_net_zero = Ok None.
Proof.
  split; [|repeat split; reflexivity].
  intros nl count r _ Hc _ Hrun.
  destruct (looked_up_ids get_s_parameters innerconnect_s connect_s nl)
    as (_ & _ & Hall & _).
  rewrite (Hall r Hrun). f_equal. lia.
Qed.

End LookedUp.

(** * Numeric literals: the numbers they denote *)

Lemma list_ascii_of_string_app (a b : string) :
  list_ascii_of_string (a +:+ b)
  = list_ascii_of_string a ++ list_ascii_of_string b.
Proof. induction a as [|c a IH]; [done|]. simpl. by rewrite IH. Qed.

Section Literals.

(** The digits of a numeral and the number it denotes, as the Standard
    Library has them. *)
Abbreviation digits := NilEmpty.string_of_uint.
Abbreviation number_of := (λ u, inject_Z (Z.of_nat (Nat.of_uint u))).
Abbreviation chars := (λ u, list_ascii_of_string (digits u)).

Lemma chars_digits u : Forall (λ c, is_digit c = true) (chars u).
Proof. induction u; simpl; by constructor. Qed.

Lemma chars_nil u : u ≠ Decimal.Nil → chars u ≠ [].
Proof. by destruct u. Qed.

Lemma length_chars u : length (chars u) = Decimal.nb_digits u.
Proof. induction u; simpl; by f_equal. Qed.

Lemma digits_value_acc u (acc : nat) :
  foldl (λ a c, 10 * a + digit_value c)%Z (Z.of_nat acc) (chars u)
  = Z.of_nat (Nat.of_uint_acc u acc).
Proof.
  revert acc. induction u; intros acc; [done|..];
    cbn [Nat.of_uint_acc NilEmpty.string_of_uint list_ascii_of_string foldl];
    rewrite <- IHu; f_equal; rewrite Nat.tail_mul_spec;
    unfold digit_value;
    match goal with
    | |- context [nat_of_ascii ?c - 48] =>
        let v := eval vm_compute in (nat_of_ascii c - 48) in
        change (nat_of_ascii c - 48) with v
    end; lia.
Qed.

Lemma digits_value_chars u :
  digits_value (chars u) = Z.of_nat (Nat.of_uint u).
Proof. apply (digits_value_acc u 0). Qed.

Lemma decimal_value_chars sg i f :
  decimal_value {| dsign := sg; dint := chars i; dfrac := chars <$> f |}
  == inject_Z (match sg with Minus => -1 | _ => 1 end)
     * (number_of i
        + match f with
          | Some f =>
              number_of f / inject_Z (10 ^ Z.of_nat (Decimal.nb_digits f))
          | None => 0
          end).
Proof.
  unfold decimal_value. cbn [dsign dint dfrac].
  destruct f as [f|]; cbn [fmap option_fmap option_map].
  - rewrite !digits_value_chars, length_chars.
    assert (Z.of_nat (Nat.of_uint f)
              # Z.to_pos (10 ^ Z.of_nat (Decimal.nb_digits f))
            == number_of f / inject_Z (10 ^ Z.of_nat (Decimal.nb_digits f)))
      as Hq.
    { rewrite Qmake_Qdiv.
      by rewrite Z2Pos.id by (apply Z.pow_pos_nonneg; lia). }
    destruct sg; rewrite Hq; ring.
  - rewrite digits_value_chars.
    change (digits_value [] # Z.to_pos (10 ^ Z.of_nat (length (@nil ascii))))
      with 0%Q.
    destruct sg; ring.
Qed.

Lemma sign_text s factor :
  (s, factor) ∈ [(EmptyString, 1); ("+"%string, 1); ("-"%string, -1)]%Z →
  ∃ sg, list_ascii_of_string s = print_sign sg
        ∧ factor = match sg with Minus => (-1)%Z | _ => 1%Z end.
Proof.
  intros H.
  repeat (apply elem_of_cons in H as [[= -> ->]|H]);
    [by exists NoSign|by exists Plus|by exists Minus|].
  by apply elem_of_nil in H.
Qed.

Lemma SI_table_listed c k :
  (c, k) ∈ [("f", -15); ("p", -12); ("n", -9); ("u", -6); ("m", -3);
            ("c", -2); ("k", 3); ("M", 6); ("G", 9); ("T", 12)]%char%Z →
  SI_table c = Some k.
Proof.
  intros H. repeat (apply elem_of_cons in H as [[= -> ->]|H]; [done|]).
  by apply elem_of_nil in H.
Qed.

Lemma SI_table_unlisted c :
  c ∉ ["f"; "p"; "n"; "u"; "m"; "c"; "k"; "M"; "G"; "T"]%char →
  SI_table c = None.
Proof.
  intros H. unfold SI_table.
  repeat (destruct (decide (c = _)) as [->|_];
          [exfalso; apply H; repeat (first [by left | right])|]).
  done.
Qed.

Lemma printed_text sg i f s :
  list_ascii_of_string s = print_sign sg →
  list_ascii_of_string
    (s +:+ digits i
       +:+ match f with Some f => "." +:+ digits f | None => "" end)
  = print_decimal {| dsign := sg; dint := chars i; dfrac := chars <$> f |}.
Proof.
  intros Hs. rewrite !list_ascii_of_string_app, Hs.
  unfold print_decimal. cbn [dsign dint dfrac]. by destruct f.
Qed.

Lemma well_formed_chars sg i f :
  i ≠ Decimal.Nil →
  well_formed {| dsign := sg; dint := chars i; dfrac := chars <$> f |}.
Proof.
  intros Hi. split; [by apply chars_nil|]. split; [apply chars_digits|].
  intros fs. destruct f as [f|]; [|done]. intros [= <-]. apply chars_digits.
Qed.

(** C8: [str2float] on the literals of the claim, the digits and the
    numbers they denote read as the Standard Library reads numerals. A
    decimal number (a sign or none, digits, and perhaps a point and more
    digits) followed by one letter of the SI table gives the number it
    denotes times the power of ten of the table; alone, the number it
    denotes; with an [e]/[E] exponent, that number times that power of
    ten; one trailing letter outside the table is rejected, and so is any
    text with more than one decimal point. The cases of
    [tests/test_tools.py] follow, up to equality of rationals. *)
Theorem str2float_literals :
  (∀ s factor i f,
     (s, factor) ∈ [(EmptyString, 1); ("+"%string, 1); ("-"%string, -1)]%Z →
     i ≠ Decimal.Nil →
     let text :=
       s +:+ digits i
         +:+ match f with Some f => "." +:+ digits f | None => "" end in
     let value :=
       (inject_Z factor
        * (number_of i
           + match f with
             | Some f =>
                 number_of f
                 / inject_Z (10 ^ Z.of_nat (Decimal.nb_digits f))
             | None => 0
             end))%Q in
     (∀ c k,
        (c, k) ∈ [("f", -15); ("p", -12); ("n", -9); ("u", -6); ("m", -3);
                  ("c", -2); ("k", 3); ("M", 6); ("G", 9); ("T", 12)]%char%Z →
        ∃ v, str2float (text +:+ String c "") = Ok v
             ∧ v == value * inject_Z 10 ^ k)
     ∧ (∃ v, str2float text = Ok v ∧ v == value)
     ∧ (∀ c s' factor' x,
          c = "e"%char ∨ c = "E"%char →
          (s', factor')
          ∈ [(EmptyString, 1); ("+"%string, 1); ("-"%string, -1)]%Z →
          x ≠ Decimal.Nil →
          ∃ v, str2float (text +:+ String c (s' +:+ digits x)) = Ok v
               ∧ v == value
                      * inject_Z 10 ^ (factor' * Z.of_nat (Nat.of_uint x)))
     ∧ (∀ c,
          (65 ≤ nat_of_ascii c ≤ 90 ∨ 97 ≤ nat_of_ascii c ≤ 122)%nat →
          c ∉ ["f"; "p"; "n"; "u"; "m"; "c"; "k"; "M"; "G"; "T"]%char →
          str2float (text +:+ String c "") = Raise ValueError))
  ∧ (∀ num,
       (2 ≤ length (filter (λ c, c = "."%char) (list_ascii_of_string num)))%nat →
       str2float num = Raise ValueError)
  ∧ (∃ v1 v2 v3 v4 v5 v6 v7 v8 v9 v10 v11 v12 v13,
       str2float "2.53" = Ok v1 ∧ v1 == 253 # 100
       ∧ str2float "17.83f" = Ok v2 ∧ v2 == 1783 # 100000000000000000
       ∧ str2float "-15.37p" = Ok v3 ∧ v3 == -1537 # 100000000000000
       ∧ str2float "158.784n" = Ok v4 ∧ v4 == 158784 # 1000000000000
       ∧ str2float "15.26u" = Ok v5 ∧ v5 == 1526 # 100000000
       ∧ str2float "-15.781m" = Ok v6 ∧ v6 == -15781 # 1000000
       ∧ str2float "14.5c" = Ok v7 ∧ v7 == 145 # 1000
       ∧ str2float "-0.257k" = Ok v8 ∧ v8 == -257 # 1
       ∧ str2float "15.26M" = Ok v9 ∧ v9 == 15260000 # 1
       ∧ str2float "-8.73G" = Ok v10 ∧ v10 == -8730000000 # 1
       ∧ str2float "183.4T" = Ok v11 ∧ v11 == 183400000000000 # 1
       ∧ str2float "15.2e-6" = Ok v12 ∧ v12 == 152 # 10000000
       ∧ str2float "0.4E6" = Ok v13 ∧ v13 == 400000 # 1
       ∧ str2float "17.3o" = Raise ValueError
       ∧ str2float "17.3.5e7" = Raise ValueError).
Proof.
  destruct str2float_print_decimal as (Hlit & Hpoints & _).
  split; [|split; [exact Hpoints|]].
  2: { do 13 eexists. repeat split; vm_compute; reflexivity. }
  intros s factor i f Hs Hi text value.
  apply sign_text in Hs as (sg & Hs & ->).
  pose proof (printed_text sg i f s Hs) as Htext. fold text in Htext.
  pose proof (decimal_value_chars sg i f) as Hval. fold value in Hval.
  destruct (Hlit _ (well_formed_chars sg i f Hi))
    as (Hsuffix & Hplain & Hexp & Hother).
  assert (∀ tail,
            text +:+ tail
            = string_of_list_ascii
                (print_decimal
                   {| dsign := sg; dint := chars i; dfrac := chars <$> f |}
                 ++ list_ascii_of_string tail)) as Happ.
  { intros tail. rewrite <- Htext, <- list_ascii_of_string_app.
    by rewrite string_of_list_ascii_of_string. }
  split; [|split; [|split]].
  - intros c k Hk%SI_table_listed. eexists. split.
    + rewrite Happ. apply (Hsuffix c k Hk).
    + unfold pow10. by rewrite Hval.
  - eexists. split.
    + rewrite <- (string_of_list_ascii_of_string text), Htext. apply Hplain.
    + done.
  - intros c s' factor' x Hc Hs' Hx.
    apply sign_text in Hs' as (sg' & Hs' & ->).
    eexists. split.
    + rewrite Happ. cbn [list_ascii_of_string].
      rewrite list_ascii_of_string_app, Hs'.
      apply (Hexp c sg' (chars x) Hc);
        [by apply chars_nil|apply chars_digits].
    + unfold pow10. rewrite Hval, digits_value_chars.
      replace (signed sg' (Z.of_nat (Nat.of_uint x)))
        with (match sg' with Minus => -1 | _ => 1 end
              * Z.of_nat (Nat.of_uint x))%Z
        by (destruct sg'; simpl; lia).
      done.
  - intros c Hc Hk%SI_table_unlisted. rewrite Happ.
    apply Hother; [|done]. unfold is_letter.
    destruct Hc as [[H1 H2]|[H1 H2]].
    + apply orb_true_iff. left. apply andb_true_iff.
      split; by apply Nat.leb_le.
    + apply orb_true_iff. right. apply andb_true_iff.
      split; by apply Nat.leb_le.
Qed.

End Literals.
